(** * Unified diff engine and file tools of the code-commander server

    A shallow embedding of [computeLCS] and [computeUnifiedDiff] (the
    LCS-based unified diff behind the [cc_diff_files] tool) and of the
    input schema of that tool, with the properties of the alignment, of the
    hunk grouper and of the rendered report; then of the handler of
    [cc_diff_files] itself, of [classifyImport] and the handler of
    [cc_organize_imports], of the handler of [cc_cleanup_file] and of
    [formatFileSize].

    Conventions of the embedding:
    - a JavaScript array is a [list]; [l !! k] is the read [l[k]], where
      [None] stands for [undefined];
    - array indices and counters that never go below zero are [nat];
      [lastChangeIdx] (initialised to -999) and the hunk start positions
      (computed by a subtraction and then clamped) are [Z];
    - the numbers of the source are integers far inside the range where
      its arithmetic is exact, and [contextLines] is a non-negative integer;
    - the only unbounded loop, the backtracking [while], runs on fuel and
      returns [None] when the fuel is used up; the [for] loops walk a
      segment of the array and are structural recursions over that segment;
    - a call [f(...array)] passes one argument per element and throws a
      RangeError when the engine takes fewer arguments than that: a
      function with such a call returns an [Outcome], and the number of
      arguments the engine takes is a parameter;
    - the lines of the diff engine, which are only compared, joined and
      tested for a first character, are [string]s; the strings of the
      handlers that trim, sort or look for single characters are lists of
      UTF-16 code units;
    - a handler takes what it reads from its environment (the file system
      as it stands during the call, the path functions, the translated
      messages) from a record, and returns its answer together with what
      it has written. *)

From Stdlib Require Import ZArith QArith Qround Qpower Lqa String Ascii List
  Lia DecimalString.
From stdpp Require Import base option list strings sorting.

Local Open Scope string_scope.
Local Open Scope list_scope.
Local Open Scope nat_scope.

(** ** Data model *)

Inductive ChangeType := T_equal | T_delete | T_insert.

#[global] Instance ChangeType_eq_dec : EqDecision ChangeType.
Proof. solve_decision. Defined.

(** [{ type; lineA?; lineB?; text }] *)
Record Change := mkChange {
  type : ChangeType;
  lineA : option nat;
  lineB : option nat;
  text : string
}.

Record DiffHunk := mkHunk {
  startA : Z;
  countA : Z;
  startB : Z;
  countB : Z;
  lines : list string
}.

(** [l[k]] read as a string; every read of the source is in range (see
    [bt_reads_in_range]), the default is never observed. *)
Definition line_at (l : list string) (k : nat) : string :=
  default EmptyString (l !! k).

(** ** computeLCS *)

(** [dp[i][j]] *)
Definition dp_get (dp : list (list nat)) (i j : nat) : nat :=
  default 0 (dp !! i ≫= (.!! j)).

(** [dp[i][j] = v] *)
Definition dp_set (dp : list (list nat)) (i j v : nat) : list (list nat) :=
  alter (<[j := v]>) i dp.

(** Body of the inner loop of [computeLCS], for [i >= 1] and [j >= 1]. *)
Definition lcs_cell (a b : list string) (i : nat) (dp : list (list nat)) (j : nat)
  : list (list nat) :=
  if decide (a !! (i - 1) = b !! (j - 1))
  then dp_set dp i j (dp_get dp (i - 1) (j - 1) + 1)
  else dp_set dp i j (dp_get dp (i - 1) j `max` dp_get dp i (j - 1)).

(** [for (let j = 1; j <= n; j++)] *)
Definition lcs_row (a b : list string) (dp : list (list nat)) (i : nat)
  : list (list nat) :=
  foldl (lcs_cell a b i) dp (seq 1 (length b)).

Definition computeLCS (a b : list string) : list (list nat) :=
  let m := length a in
  let n := length b in
  let dp := replicate (m + 1) (replicate (n + 1) 0) in
  foldl (lcs_row a b) dp (seq 1 m).

(** ** computeUnifiedDiff: backtracking *)

Record BtState := mkBt {
  bt_i : nat;
  bt_j : nat;
  bt_out : list Change   (* the array [backtrack] *)
}.

(** [while (i > 0 || j > 0)] *)
Definition bt_cond (s : BtState) : bool :=
  bool_decide (0 < bt_i s ∨ 0 < bt_j s).

(** One iteration of the backtracking loop.  [i - 1] and [j - 1] are only
    evaluated where the source evaluates them with [i > 0], [j > 0]: the last
    branch is reached under the loop guard with [j = 0] or a failed
    [i === 0], so with [i > 0]. *)
Definition bt_body (dp : list (list nat)) (a b : list string) (s : BtState)
  : BtState :=
  let i := bt_i s in
  let j := bt_j s in
  if decide (0 < i ∧ 0 < j ∧ a !! (i - 1) = b !! (j - 1)) then
    mkBt (i - 1) (j - 1)
         (bt_out s ++ [mkChange T_equal (Some (i - 1)) (Some (j - 1)) (line_at a (i - 1))])
  else if decide (0 < j ∧ (i = 0 ∨ dp_get dp (i - 1) j ≤ dp_get dp i (j - 1))) then
    mkBt i (j - 1)
         (bt_out s ++ [mkChange T_insert None (Some (j - 1)) (line_at b (j - 1))])
  else
    mkBt (i - 1) j
         (bt_out s ++ [mkChange T_delete (Some (i - 1)) None (line_at a (i - 1))]).

Fixpoint bt_loop (fuel : nat) (dp : list (list nat)) (a b : list string)
    (s : BtState) : option BtState :=
  if bt_cond s then
    match fuel with
    | 0 => None
    | S fuel' => bt_loop fuel' dp a b (bt_body dp a b s)
    end
  else Some s.

(** The array [backtrack] after [backtrack.reverse()]: the records in
    forward order, which are the elements of [changes].  [fuel] bounds the
    number of iterations of the [while].  The copy itself,
    [changes.push(...backtrack)], is a call that can throw; it is the
    [push_spread] of [computeUnifiedDiff_run]. *)
Definition backtrack_fuel (fuel : nat) (linesA linesB : list string)
  : option (list Change) :=
  let dp := computeLCS linesA linesB in
  s ← bt_loop fuel dp linesA linesB (mkBt (length linesA) (length linesB) []);
  Some (reverse (bt_out s)).

Definition backtrack (linesA linesB : list string) : option (list Change) :=
  backtrack_fuel (length linesA + length linesB) linesA linesB.

(** ** computeUnifiedDiff: hunk grouping *)

Record HunkState := mkHS {
  hunks : list DiffHunk;
  hunkLines : list string;
  hunkStartA : Z;
  hunkStartB : Z;
  hunkCountA : Z;
  hunkCountB : Z;
  lastChangeIdx : Z
}.

Definition hs_init : HunkState := mkHS [] [] 0%Z 0%Z 0%Z 0%Z (-999)%Z.

Definition is_equal (c : Change) : bool := bool_decide (type c = T_equal).

(** [` ${c.text}`], [`-${c.text}`], [`+${c.text}`] *)
Definition ctx_line (c : Change) : string := String " " (text c).
Definition del_line (c : Change) : string := String "-" (text c).
Definition ins_line (c : Change) : string := String "+" (text c).

(** [hunkLines.push(` ${changes[k].text}`); hunkCountA++; hunkCountB++] *)
Definition push_context (st : HunkState) (ck : Change) : HunkState :=
  mkHS (hunks st) (hunkLines st ++ [ctx_line ck]) (hunkStartA st) (hunkStartB st)
       (hunkCountA st + 1)%Z (hunkCountB st + 1)%Z (lastChangeIdx st).

(** [for (k = lastChangeIdx + 1; k < changes.length && trailingAdded <
    contextLines; k++)], over [rest = changes[lastChangeIdx + 1 ..]]. *)
Fixpoint trailing_loop (contextLines : nat) (rest : list Change)
    (trailingAdded : nat) (st : HunkState) : HunkState :=
  match rest with
  | [] => st
  | ck :: rest' =>
      if decide (trailingAdded < contextLines) then
        if is_equal ck
        then trailing_loop contextLines rest' (S trailingAdded) (push_context st ck)
        else trailing_loop contextLines rest' trailingAdded st
      else st
  end.

(** The records [changes[k ..]] for a [k] held in a [Z] variable. *)
Definition from_index (changes : list Change) (k : Z) : list Change :=
  drop (Z.to_nat k) changes.

(** Trailing context, then [hunks.push({...})]; the caller resets the
    buffer where the source does. *)
Definition close_hunk (changes : list Change) (contextLines : nat)
    (st : HunkState) : HunkState :=
  let st' := trailing_loop contextLines (from_index changes (lastChangeIdx st + 1)%Z) 0 st in
  mkHS (hunks st' ++ [mkHunk (hunkStartA st') (hunkCountA st') (hunkStartB st')
                             (hunkCountB st') (hunkLines st')])
       (hunkLines st') (hunkStartA st') (hunkStartB st')
       (hunkCountA st') (hunkCountB st') (lastChangeIdx st').

(** [hunkLines = []; hunkCountA = 0; hunkCountB = 0] *)
Definition reset_hunk (st : HunkState) : HunkState :=
  mkHS (hunks st) [] (hunkStartA st) (hunkStartB st) 0%Z 0%Z (lastChangeIdx st).

(** [for (k = idx - 1; k >= 0 && contextCount < contextLines; k--)] with its
    [break], over [before = changes[idx-1], changes[idx-2], ...]. *)
Fixpoint leading_loop (contextLines : nat) (before : list Change)
    (contextCount : nat) (hl : list string) : list string * nat :=
  match before with
  | [] => (hl, contextCount)
  | ck :: before' =>
      if decide (contextCount < contextLines) then
        if is_equal ck
        then leading_loop contextLines before' (S contextCount) (ctx_line ck :: hl)
        else (hl, contextCount)
      else (hl, contextCount)
  end.

(** [changes[idx - 1]?.f], [undefined] at [idx = 0]. *)
Definition prev_field (changes : list Change) (idx : nat)
    (f : Change → option nat) : option nat :=
  if decide (idx = 0) then None else changes !! (idx - 1) ≫= f.

(** [(c.f !== undefined ? c.f : (changes[idx-1]?.f !== undefined ?
    changes[idx-1].f + 1 : 0)) - contextCount], clamped at 0. *)
Definition hunk_start (changes : list Change) (idx : nat) (c : Change)
    (f : Change → option nat) (contextCount : nat) : Z :=
  let base :=
    match f c with
    | Some x => Z.of_nat x
    | None => match prev_field changes idx f with
              | Some y => (Z.of_nat y + 1)%Z
              | None => 0%Z
              end
    end in
  let s := (base - Z.of_nat contextCount)%Z in
  if decide (s < 0)%Z then 0%Z else s.

(** The branch [hunkLines.length === 0]: leading context and start
    positions of a new hunk. *)
Definition open_hunk (changes : list Change) (contextLines : nat) (idx : nat)
    (c : Change) (st : HunkState) : HunkState :=
  let '(hl, contextCount) :=
    leading_loop contextLines (reverse (take idx changes)) 0 (hunkLines st) in
  mkHS (hunks st) hl
       (hunk_start changes idx c lineA contextCount)
       (hunk_start changes idx c lineB contextCount)
       (Z.of_nat contextCount) (Z.of_nat contextCount) (lastChangeIdx st).

(** The [else] branch: [for (k = lastChangeIdx + 1; k < idx; k++)]. *)
Definition fill_gap (changes : list Change) (idx : nat) (st : HunkState)
  : HunkState :=
  let k0 := Z.to_nat (lastChangeIdx st + 1)%Z in
  foldl (λ st ck, if is_equal ck then push_context st ck else st)
        st (take (idx - k0) (drop k0 changes)).

(** [hunkLines.push(...)] of the changed line itself, the count of its side,
    and [lastChangeIdx = idx]. *)
Definition push_change (idx : nat) (c : Change) (st : HunkState) : HunkState :=
  if decide (type c = T_delete) then
    mkHS (hunks st) (hunkLines st ++ [del_line c]) (hunkStartA st) (hunkStartB st)
         (hunkCountA st + 1)%Z (hunkCountB st) (Z.of_nat idx)
  else
    mkHS (hunks st) (hunkLines st ++ [ins_line c]) (hunkStartA st) (hunkStartB st)
         (hunkCountA st) (hunkCountB st + 1)%Z (Z.of_nat idx).

(** [idx - lastChangeIdx > contextLines * 2 + 1] *)
Definition far_from_last (contextLines : nat) (idx : nat) (st : HunkState) : Prop :=
  (Z.of_nat idx - lastChangeIdx st > Z.of_nat contextLines * 2 + 1)%Z.

#[global] Instance far_from_last_dec cl idx st : Decision (far_from_last cl idx st).
Proof. unfold far_from_last. apply _. Defined.

(** Body of [for (let idx = 0; idx < changes.length; idx++)] for
    [c = changes[idx]].  The constant [contextStart] of the source is never
    read and is left out. *)
Definition hunk_step (changes : list Change) (contextLines : nat)
    (st : HunkState) (idx : nat) (c : Change) : HunkState :=
  if is_equal c then st
  else
    let st1 :=
      if decide (far_from_last contextLines idx st ∧ hunks st = [] ∧
                 hunkLines st = [] ∧ (lastChangeIdx st < 0)%Z)
      then st
      else if decide (far_from_last contextLines idx st ∧ hunkLines st ≠ [])
      then reset_hunk (close_hunk changes contextLines st)
      else st in
    let st2 :=
      if decide (hunkLines st1 = [])
      then open_hunk changes contextLines idx c st1
      else fill_gap changes idx st1 in
    push_change idx c st2.

(** The state of the grouping loop once the indices below [k] are done. *)
Fixpoint hunk_loop (changes : list Change) (contextLines : nat) (k : nat)
  : HunkState :=
  match k with
  | 0 => hs_init
  | S k' =>
      let st := hunk_loop changes contextLines k' in
      match changes !! k' with
      | Some c => hunk_step changes contextLines st k' c
      | None => st
      end
  end.

(** [// Close last hunk] *)
Definition close_last (changes : list Change) (contextLines : nat)
    (st : HunkState) : list DiffHunk :=
  if decide (hunkLines st ≠ [])
  then hunks (close_hunk changes contextLines st)
  else hunks st.

Definition group_hunks (changes : list Change) (contextLines : nat)
  : list DiffHunk :=
  close_last changes contextLines
    (hunk_loop changes contextLines (length changes)).

(** ** computeUnifiedDiff: rendering *)

(** [`${n}`] for an integer. *)
Definition num (z : Z) : string := NilZero.string_of_int (Z.to_int z).

Definition newline : string := String (ascii_of_nat 10) EmptyString.

(** [`@@ -${hunk.startA + 1},${hunk.countA} +${hunk.startB + 1},${hunk.countB} @@`] *)
Definition hunk_header (h : DiffHunk) : string :=
  "@@ -" +:+ num (startA h + 1)%Z +:+ "," +:+ num (countA h) +:+
  " +" +:+ num (startB h + 1)%Z +:+ "," +:+ num (countB h) +:+ " @@".

Definition render (hs : list DiffHunk) (fileA fileB : string) : string :=
  if decide (hs = []) then EmptyString
  else
    let output : list string :=
      (["--- " +:+ fileA; "+++ " +:+ fileB] ++
       concat (map (λ h, hunk_header h :: lines h) hs))%list in
    String.concat newline output.

#[global] Instance DiffHunk_eq_dec : EqDecision DiffHunk.
Proof. solve_decision. Defined.

(** The string that the function computes, with the fuel of the
    backtracking loop explicit: what a call returns when neither of its
    spread calls throws.  The call with its exception is
    [computeUnifiedDiff_run]. *)
Definition computeUnifiedDiff_fuel (fuel : nat) (linesA linesB : list string)
    (contextLines : nat) (fileA fileB : string) : option string :=
  changes ← backtrack_fuel fuel linesA linesB;
  Some (render (group_hunks changes contextLines) fileA fileB).

Definition computeUnifiedDiff (linesA linesB : list string)
    (contextLines : nat) (fileA fileB : string) : option string :=
  computeUnifiedDiff_fuel (length linesA + length linesB)
    linesA linesB contextLines fileA fileB.

(** ** computeUnifiedDiff: the call and its exception

    [changes.push(...backtrack)] and [output.push(...hunk.lines)] pass the
    elements of an array as the arguments of one call.  An engine takes
    only so many arguments in a call, [max_args] of them (the number
    depends on the engine and on its stack), and throws a RangeError when
    there are more.  Nothing in the function catches it. *)

Inductive Outcome (A : Type) : Type :=
  | Returns (a : A)
  | Throws.

Arguments Returns {A} a.
Arguments Throws {A}.

(** [target.push(...items)] *)
Definition push_spread {A : Type} (max_args : nat) (target items : list A)
  : Outcome (list A) :=
  if decide (length items ≤ max_args) then Returns (target ++ items)
  else Throws.

(** [for (const hunk of hunks) { output.push(header);
      output.push(...hunk.lines); }] *)
Fixpoint render_loop (max_args : nat) (hs : list DiffHunk)
    (output : list string) : Outcome (list string) :=
  match hs with
  | [] => Returns output
  | hunk :: hs' =>
      match push_spread max_args (output ++ [hunk_header hunk]) (lines hunk) with
      | Returns output' => render_loop max_args hs' output'
      | Throws => Throws
      end
  end.

(** A call of the function: [None] when the fuel of the backtracking loop
    is used up, [Some Throws] when a spread call throws, [Some (Returns s)]
    when the call returns [s]. *)
Definition computeUnifiedDiff_run_fuel (max_args fuel : nat)
    (linesA linesB : list string) (contextLines : nat)
    (fileA fileB : string) : option (Outcome string) :=
  backtrack ← backtrack_fuel fuel linesA linesB;
  Some
    match push_spread max_args [] backtrack with
    | Throws => Throws
    | Returns changes =>
        let hunks := group_hunks changes contextLines in
        if decide (hunks = []) then Returns EmptyString
        else
          match render_loop max_args hunks
                  ["--- " +:+ fileA; "+++ " +:+ fileB] with
          | Throws => Throws
          | Returns output => Returns (String.concat newline output)
          end
    end.

Definition computeUnifiedDiff_run (max_args : nat)
    (linesA linesB : list string) (contextLines : nat)
    (fileA fileB : string) : option (Outcome string) :=
  computeUnifiedDiff_run_fuel max_args (length linesA + length linesB)
    linesA linesB contextLines fileA fileB.

(** The state of the backtracking loop after [n] iterations. *)
Definition bt_state (dp : list (list nat)) (a b : list string) (n : nat)
  : BtState :=
  Nat.iter n (bt_body dp a b) (mkBt (length a) (length b) []).

(** ** The input schema of [cc_diff_files]

    [context_lines: z.number().int().min(0).max(20).default(3)].  The schema
    is a value built by the combinators of the validation library; the
    embedding keeps the chain of the source and gives each check the meaning
    the library documents: [number()] accepts a value of type number other
    than NaN, [int()] is [Number.isInteger], [min(b)] and [max(b)] are
    [b <= x] and [x <= b], and [default(d)] validates [d] in place of an
    absent value.  The server validates the arguments of a call against the
    schema and runs the handler of the tool on the parsed arguments only. *)

(** A number of the request: a finite value, taken as the rational it
    denotes, or one of the special values. *)
Inductive JsNumber :=
  | Finite (q : Q)
  | NaN
  | Infinity (negative : bool).

(** The value of the [context_lines] property in a request. *)
Inductive JsValue :=
  | V_undefined               (* the property is absent *)
  | V_number (x : JsNumber)
  | V_other.                  (* a string, a boolean, null, an array, an object *)

Inductive NumCheck :=
  | Check_int
  | Check_min (bound : Q)
  | Check_max (bound : Q).

Record ZodNumber := mkZodNumber { checks : list NumCheck }.

Record ZodDefault := mkZodDefault { inner : ZodNumber; default_value : Q }.

Definition z_number : ZodNumber := mkZodNumber [].
Definition z_int (s : ZodNumber) : ZodNumber := mkZodNumber (checks s ++ [Check_int]).
Definition z_min (b : Q) (s : ZodNumber) : ZodNumber :=
  mkZodNumber (checks s ++ [Check_min b]).
Definition z_max (b : Q) (s : ZodNumber) : ZodNumber :=
  mkZodNumber (checks s ++ [Check_max b]).
Definition z_default (d : Q) (s : ZodNumber) : ZodDefault := mkZodDefault s d.

(** [Number.isInteger] on a finite value. *)
Definition is_integer (q : Q) : bool :=
  (Qnum q mod Zpos (Qden q) =? 0)%Z.

(** One check of the chain on a number; an infinity is no integer and is
    beyond every bound on its side. *)
Definition check_ok (x : JsNumber) (c : NumCheck) : bool :=
  match x, c with
  | Finite q, Check_int => is_integer q
  | Finite q, Check_min b => Qle_bool b q
  | Finite q, Check_max b => Qle_bool q b
  | Infinity _, Check_int => false
  | Infinity negative, Check_min _ => negb negative
  | Infinity negative, Check_max _ => negative
  | NaN, _ => false
  end.

(** [None] is a validation error. *)
Definition parse_number (s : ZodNumber) (v : JsValue) : option JsNumber :=
  match v with
  | V_number NaN => None
  | V_number x => if forallb (check_ok x) (checks s) then Some x else None
  | _ => None
  end.

Definition parse_default (s : ZodDefault) (v : JsValue) : option JsNumber :=
  match v with
  | V_undefined => parse_number (inner s) (V_number (Finite (default_value s)))
  | _ => parse_number (inner s) v
  end.

(** [z.number().int().min(0).max(20).default(3)] *)
Definition context_lines_schema : ZodDefault :=
  z_default 3 (z_max 20 (z_min 0 (z_int z_number))).

(** A call of the tool, as far as [context_lines] goes: [handler] stands for
    the body of the tool's callback from [const contextCount =
    params.context_lines ?? 3] on, where [params.context_lines] is the
    parsed value; [None] is the rejection of the request by the validation,
    without a call of the handler. *)
Definition cc_diff_files_call {Result : Type} (handler : JsNumber → Result)
    (context_lines : JsValue) : option Result :=
  handler <$> parse_default context_lines_schema context_lines.

(** ** Reference notions used by the statements *)

(** The recurrence of the alignment table: [lcs_len a b i j] is the length of
    a longest common subsequence of the first [i] lines of [a] and the first
    [j] lines of [b]. *)
Fixpoint lcs_len (a b : list string) (i : nat) : nat → nat :=
  match i with
  | 0 => λ _, 0
  | S i' =>
      fix row (j : nat) : nat :=
        match j with
        | 0 => 0
        | S j' =>
            if decide (a !! i' = b !! j') then lcs_len a b i' j' + 1
            else lcs_len a b i' (S j') `max` row j'
        end
  end.

Arguments lcs_len : simpl never.

(** Replaying a change list: the texts of the records that consume a line
    of A (Equal and Delete), and of those that consume a line of B (Equal and
    Insert). *)
Definition replay_A (l : list Change) : list string :=
  text <$> filter (λ c, type c = T_equal ∨ type c = T_delete) l.

Definition replay_B (l : list Change) : list string :=
  text <$> filter (λ c, type c = T_equal ∨ type c = T_insert) l.

(** Number of records of a given type. *)
Definition count_type (t : ChangeType) (l : list Change) : nat :=
  length (filter (λ c, type c = t) l).

(** An alignment of [a] and [b]: any change list that replays to both. *)
Definition alignment (a b : list string) (l : list Change) : Prop :=
  replay_A l = a ∧ replay_B l = b.

(** The line pushed for a non-Equal record, and the line that renders any
    record. *)
Definition change_line (c : Change) : string :=
  if decide (type c = T_delete) then del_line c else ins_line c.

Definition any_line (c : Change) : string :=
  if is_equal c then ctx_line c else change_line c.

(** The records [l[i]], ..., [l[j-1]]. *)
Definition slice (l : list Change) (i j : nat) : list Change :=
  take (j - i) (drop i l).

(** Length of the run of Equal records at the head of a list; the runs that
    end just before index [f] and that start just after index [l]. *)
Fixpoint equal_run (l : list Change) : nat :=
  match l with
  | c :: l' => if is_equal c then S (equal_run l') else 0
  | [] => 0
  end.

Definition run_before (changes : list Change) (f : nat) : nat :=
  equal_run (reverse (take f changes)).

Definition run_after (changes : list Change) (l : nat) : nat :=
  equal_run (drop (S l) changes).

(** Index of the last non-Equal record below [k], if there is one. *)
Fixpoint last_change (changes : list Change) (k : nat) : option nat :=
  match k with
  | 0 => None
  | S k' =>
      match changes !! k' with
      | Some c => if is_equal c then last_change changes k' else Some k'
      | None => last_change changes k'
      end
  end.

(** The first character of a line of the report tells its role. *)
Definition starts_with (ch : ascii) (s : string) : bool :=
  match s with
  | String c _ => bool_decide (c = ch)
  | EmptyString => false
  end.

Definition is_context_line (s : string) : bool := starts_with " " s.

(** The body lines of the hunks, in the order of the report; those that are
    not context; the number of those that start with a given character. *)
Definition body_lines (hs : list DiffHunk) : list string :=
  concat (lines <$> hs).

Definition is_changed_line (s : string) : bool := negb (is_context_line s).

Definition changed_lines (hs : list DiffHunk) : list string :=
  filter (λ s, is_changed_line s = true) (body_lines hs).

Definition count_lines (ch : ascii) (hs : list DiffHunk) : nat :=
  length (filter (λ s, starts_with ch s = true) (body_lines hs)).

(** A changed line with the opposite prefix. *)
Definition swap_prefix (s : string) : string :=
  match s with
  | String c t =>
      if decide (c = "+"%char) then String "-" t
      else if decide (c = "-"%char) then String "+" t
      else s
  | EmptyString => s
  end.

(** The reading of "the report of (B, A) contains exactly the changed lines of
    the report of (A, B) with the roles swapped": the same lines up to order,
    each with the opposite prefix. *)
Definition roles_swapped (linesA linesB : list string) (contextLines : nat)
  : Prop :=
  ∃ chAB chBA,
    backtrack linesA linesB = Some chAB ∧ backtrack linesB linesA = Some chBA ∧
    changed_lines (group_hunks chBA contextLines)
      ≡ₚ swap_prefix <$> changed_lines (group_hunks chAB contextLines).

(** Number of context lines at the head and at the tail of a hunk body. *)

Fixpoint leading_context (ls : list string) : nat :=
  match ls with
  | s :: ls' => if is_context_line s then S (leading_context ls') else 0
  | [] => 0
  end.

Definition trailing_context (ls : list string) : nat :=
  leading_context (reverse ls).

(** The buffer and the hunk list of [st'] continue those of [st]: either no
    hunk was pushed and the buffer grew at its end, or the buffer of [st],
    grown at its end, was pushed as the next hunk. *)
Definition hunk_extends (st st' : HunkState) : Prop :=
  (hunks st' = hunks st ∧ hunkLines st `prefix_of` hunkLines st') ∨
  (∃ h rest, hunks st' = hunks st ++ h :: rest ∧ hunkLines st `prefix_of` lines h).

(** The hunk [h] spans the changes [changes[f]] (its first) to [changes[l]]
    (its last): its body is made of the [min contextLines (run_before f)]
    records just before [f] as context, of every record from [f] to [l], and
    of the [min contextLines (run_after l)] records just after [l] as
    context. *)
Definition hunk_spans (changes : list Change) (contextLines : nat)
    (f l : nat) (h : DiffHunk) : Prop :=
  f ≤ l ∧ l < length changes ∧
  (∃ c, changes !! f = Some c ∧ type c ≠ T_equal) ∧
  (∃ c, changes !! l = Some c ∧ type c ≠ T_equal) ∧
  lines h =
    (ctx_line <$> slice changes (f - contextLines `min` run_before changes f) f)
    ++ (any_line <$> slice changes f (S l))
    ++ (ctx_line <$> slice changes (S l)
          (S l + contextLines `min` run_after changes l)).

(** ** Sample inputs *)

Definition lines_xy : list string := ["x"; "y"].
Definition lines_yx : list string := ["y"; "x"].

(** Two changes with [n] unchanged lines between them. *)
Definition sample_delete : Change := mkChange T_delete (Some 0) None "old".
Definition sample_insert (n : nat) : Change := mkChange T_insert None (Some n) "new".
Definition sample_equals (n : nat) : list Change :=
  (λ k, mkChange T_equal (Some (S k)) (Some k) "same") <$> seq 0 n.

Definition six_lines : list string := ["1"; "2"; "3"; "4"; "5"; "6"].
Definition seven_lines : list string := ["1"; "2"; "3"; "4"; "5"; "6"; "7"].

(** ** Loop invariants *)

(** Invariant of the two loops of [computeLCS]: rows of the right size, and
    the cells written so far (all rows below [i], and row [i] up to column
    [j]) hold the recurrence; the others are still zero. *)
Definition dp_filled (a b : list string) (dp : list (list nat)) (i j : nat) : Prop :=
  length dp = length a + 1 ∧
  Forall (λ r, length r = length b + 1) dp ∧
  ∀ i' j', i' ≤ length a → j' ≤ length b →
    dp_get dp i' j' =
      if decide (i' < i ∨ (i' = i ∧ j' ≤ j)) then lcs_len a b i' j' else 0.

(** Invariant of the backtracking loop: the indices stay inside the arrays,
    the records emitted so far replay to the parts of [a] and [b] already
    walked, and the number of Equal records follows the table. *)
Definition bt_inv (a b : list string) (s : BtState) : Prop :=
  bt_i s ≤ length a ∧ bt_j s ≤ length b ∧
  replay_A (reverse (bt_out s)) = drop (bt_i s) a ∧
  replay_B (reverse (bt_out s)) = drop (bt_j s) b ∧
  count_type T_equal (reverse (bt_out s)) + lcs_len a b (bt_i s) (bt_j s)
    = lcs_len a b (length a) (length b).

(** The ranges [spans], in order, hold all the changes below [k]: no change
    before the first range, and the last change before the start of each
    range, and below [k], is the end of the range before. *)
Definition boundaries_ok (changes : list Change) (spans : list (nat * nat))
    (k : nat) : Prop :=
  ((λ sp, last_change changes sp.1) <$> spans) ++ [last_change changes k]
    = None :: ((λ sp, Some sp.2) <$> spans).

(** Invariant of the grouping loop: the hunks pushed span the ranges
    [closed]; the range [open] of the buffer goes from its first change [f]
    to the last change seen, and the buffer holds the leading context of [f]
    and every record of that range. *)
Definition hunk_loop_inv (changes : list Change) (contextLines : nat)
    (k : nat) (st : HunkState) : Prop :=
  ∃ closed open,
    Forall2 (λ sp h, hunk_spans changes contextLines sp.1 sp.2 h)
            closed (hunks st) ∧
    boundaries_ok changes (closed ++ open) k ∧
    match last_change changes k with
    | None => open = []
    | Some p =>
        ∃ f, open = [(f, p)] ∧ f ≤ p ∧
          (∃ c, changes !! f = Some c ∧ type c ≠ T_equal) ∧
          hunkLines st =
            (ctx_line <$> slice changes (f - contextLines `min` run_before changes f) f)
            ++ (any_line <$> slice changes f (S p))
    end.

(** * Further notions: the alignment *)

(** The texts of the Equal records: the common subsequence that a change
    list keeps. *)
Definition equal_texts (l : list Change) : list string :=
  text <$> filter (λ c, type c = T_equal) l.

(** The [lineA] and [lineB] fields of a change list that starts at line [i]
    of A and line [j] of B: each record holds the index of the line it
    consumes on each side, and nothing for the side it does not touch. *)
Fixpoint indexed_from (i j : nat) (l : list Change) : Prop :=
  match l with
  | [] => True
  | c :: l' =>
      match type c with
      | T_equal =>
          lineA c = Some i ∧ lineB c = Some j ∧ indexed_from (S i) (S j) l'
      | T_delete =>
          lineA c = Some i ∧ lineB c = None ∧ indexed_from (S i) j l'
      | T_insert =>
          lineA c = None ∧ lineB c = Some j ∧ indexed_from i (S j) l'
      end
  end.

(** Invariant of the backtracking loop, with the indices of the records. *)
Definition bt_indexed_inv (a b : list string) (s : BtState) : Prop :=
  bt_inv a b s ∧ indexed_from (bt_i s) (bt_j s) (reverse (bt_out s)).

(** * Further notions: the hunks *)

(** The lines of a hunk body that belong to the A side (context and
    deletions) and to the B side (context and insertions), and their
    numbers. *)
Definition is_old_line (s : string) : bool :=
  starts_with " " s || starts_with "-" s.

Definition is_new_line (s : string) : bool :=
  starts_with " " s || starts_with "+" s.

Definition old_count (ls : list string) : Z :=
  Z.of_nat (length (filter (λ s, is_old_line s = true) ls)).

Definition new_count (ls : list string) : Z :=
  Z.of_nat (length (filter (λ s, is_new_line s = true) ls)).

(** Invariant of the grouping loop on the counters: those of the buffer and
    of every hunk pushed count the lines of each side. *)
Definition counts_ok (cA cB : Z) (ls : list string) : Prop :=
  cA = old_count ls ∧ cB = new_count ls.

Definition count_inv (st : HunkState) : Prop :=
  counts_ok (hunkCountA st) (hunkCountB st) (hunkLines st) ∧
  Forall (λ h, counts_ok (countA h) (countB h) (lines h)) (hunks st).

(** Number of lines of A, and of B, consumed by the records below index
    [k]. *)
Definition a_pos (changes : list Change) (k : nat) : nat :=
  length (replay_A (take k changes)).

Definition b_pos (changes : list Change) (k : nat) : nat :=
  length (replay_B (take k changes)).

(** The hunk [h] renders the records [s .. e-1] of the change list, and its
    start positions are the numbers of lines consumed before [s]. *)
Definition hunk_located (changes : list Change) (s e : nat) (h : DiffHunk)
  : Prop :=
  s < e ∧ e ≤ length changes ∧
  lines h = any_line <$> slice changes s e ∧
  startA h = Z.of_nat (a_pos changes s) ∧
  startB h = Z.of_nat (b_pos changes s).

(** Ranges [s .. e-1] in increasing order, none starting before [lo] or
    before the end of the one before. *)
Fixpoint ranges_sorted (lo : nat) (ranges : list (nat * nat)) : Prop :=
  match ranges with
  | [] => True
  | r :: ranges' => lo ≤ r.1 ∧ r.1 ≤ r.2 ∧ ranges_sorted r.2 ranges'
  end.

(** Invariant of the grouping loop on the positions: the hunks pushed
    render the ranges [closed]; the buffer renders the records from [s] to
    the last change seen and starts where [s] starts. *)
Definition located_inv (changes : list Change) (k : nat) (st : HunkState)
  : Prop :=
  ∃ closed,
    Forall2 (λ r h, hunk_located changes r.1 r.2 h) closed (hunks st) ∧
    match last_change changes k with
    | None => closed = []
    | Some p =>
        ∃ s, s ≤ p ∧ ranges_sorted 0 (closed ++ [(s, S p)]) ∧
          hunkLines st = any_line <$> slice changes s (S p) ∧
          hunkStartA st = Z.of_nat (a_pos changes s) ∧
          hunkStartB st = Z.of_nat (b_pos changes s)
    end.

(** The A side and the B side of a hunk body, without the prefixes. *)
Definition strip_prefix (s : string) : string :=
  match s with
  | String _ t => t
  | EmptyString => EmptyString
  end.

Definition old_side (ls : list string) : list string :=
  strip_prefix <$> filter (λ s, is_old_line s = true) ls.

Definition new_side (ls : list string) : list string :=
  strip_prefix <$> filter (λ s, is_new_line s = true) ls.

(** Hunks in increasing order on both sides, each starting at or after the
    end of the one before. *)
Fixpoint hunks_ordered (loA loB : Z) (hs : list DiffHunk) : Prop :=
  match hs with
  | [] => True
  | h :: hs' =>
      (loA ≤ startA h)%Z ∧ (loB ≤ startB h)%Z ∧
      hunks_ordered (startA h + countA h) (startB h + countB h) hs'
  end.

(** ** The handler of [cc_diff_files]

    The handler reads the two files, splits them at the newlines, calls
    [computeUnifiedDiff] and counts the added and the removed lines of the
    report.  What it takes from its environment is a field of
    [DiffFilesEnv]: the path functions, the file system as it stands
    during the call ([readFile] gives the content, or the message of the
    error it throws), the translations [t()] of the messages, and of the
    engine the number of arguments a call takes and the message of the
    RangeError it throws beyond.  The handler catches what is thrown inside
    it and answers with the message. *)

(** [s.split('\n')] *)
Fixpoint split_lines (s : string) : list string :=
  match s with
  | EmptyString => [EmptyString]
  | String c t =>
      if decide (c = ascii_of_nat 10) then EmptyString :: split_lines t
      else match split_lines t with
           | l :: ls => String c l :: ls
           | [] => [String c EmptyString]
           end
  end.

(** [lines.join('\n')] is [String.concat newline lines]. *)

(** [if (line.startsWith('+') && !line.startsWith('+++')) added++;
     if (line.startsWith('-') && !line.startsWith('---')) removed++;] *)
Definition is_added (line : string) : bool :=
  String.prefix "+" line && negb (String.prefix "+++" line).

Definition is_removed (line : string) : bool :=
  String.prefix "-" line && negb (String.prefix "---" line).

Definition count_step (acc : nat * nat) (line : string) : nat * nat :=
  (if is_added line then S acc.1 else acc.1,
   if is_removed line then S acc.2 else acc.2).

Definition count_changes (diffLines : list string) : nat * nat :=
  foldl count_step (0, 0) diffLines.

Record DiffFilesEnv := mkDiffFilesEnv {
  normalizePath : string → string;
  pathExists : string → bool;
  readFile : string → string + string;
  basename : string → string;
  t_fileNotFound : string → string;
  t_error : string → string;
  t_header : string → string → string;
  t_identical : string;
  t_linesChanged : nat → nat → string;
  maxArgs : nat;
  rangeErrorMessage : string
}.

(** [{ isError, content: [{ type: "text", text }] }] *)
Record ToolResult := mkToolResult {
  isError : bool;
  result_text : string
}.

Definition cc_diff_files (env : DiffFilesEnv) (file_a file_b : string)
    (context_lines : option nat) : option ToolResult :=
  let fileA := normalizePath env file_a in
  let fileB := normalizePath env file_b in
  if negb (pathExists env fileA) then
    Some (mkToolResult true (t_fileNotFound env fileA))
  else if negb (pathExists env fileB) then
    Some (mkToolResult true (t_fileNotFound env fileB))
  else
    match readFile env fileA with
    | inr msg => Some (mkToolResult true (t_error env msg))
    | inl contentA =>
        match readFile env fileB with
        | inr msg => Some (mkToolResult true (t_error env msg))
        | inl contentB =>
            let linesA := split_lines contentA in
            let linesB := split_lines contentB in
            let contextCount := default 3 context_lines in
            if decide (contentA = contentB) then
              Some (mkToolResult false
                (String.concat newline
                   [t_header env (basename env fileA) (basename env fileB);
                    EmptyString; t_identical env]))
            else
              outcome ← computeUnifiedDiff_run (maxArgs env) linesA linesB
                          contextCount fileA fileB;
              match outcome with
              | Throws =>
                  Some (mkToolResult true
                          (t_error env (rangeErrorMessage env)))
              | Returns diffOutput =>
                  let diffLines := split_lines diffOutput in
                  let counts := count_changes diffLines in
                  Some (mkToolResult false
                    (String.concat newline
                       [t_header env (basename env fileA)
                                     (basename env fileB);
                        EmptyString;
                        t_linesChanged env counts.1 counts.2;
                        EmptyString;
                        "```diff";
                        diffOutput;
                        "```"]))
              end
        end
    end.

(** A string with a newline in it. *)
Fixpoint has_newline (s : string) : bool :=
  match s with
  | EmptyString => false
  | String c t => bool_decide (c = ascii_of_nat 10) || has_newline t
  end.

(** The insertions and the deletions that the handler counts: those whose
    text does not start with a second [+], or with a second [-]. *)
Definition counted_insert (c : Change) : Prop :=
  type c = T_insert ∧ String.prefix "++" (text c) = false.

Definition counted_delete (c : Change) : Prop :=
  type c = T_delete ∧ String.prefix "--" (text c) = false.

#[global] Instance counted_insert_dec c : Decision (counted_insert c).
Proof. unfold counted_insert. apply _. Defined.

#[global] Instance counted_delete_dec c : Decision (counted_delete c).
Proof. unfold counted_delete. apply _. Defined.

(** A sample environment: two files, [a.txt] and [b.txt]. *)
Definition sample_env : DiffFilesEnv :=
  mkDiffFilesEnv
    (λ p, p)
    (λ p, bool_decide (p = "a.txt") || bool_decide (p = "b.txt"))
    (λ p, if bool_decide (p = "a.txt") then inl "x
++y
z"
          else if bool_decide (p = "b.txt") then inl "x
z
++i
w"
          else inr "ENOENT")
    (λ p, p)
    (λ p, "File not found: " +:+ p)
    (λ m, "Error: " +:+ m)
    (λ a b, "Diff: " +:+ a +:+ " vs " +:+ b)
    "Files are identical."
    (λ a r, "+" +:+ num (Z.of_nat a) +:+ " -" +:+ num (Z.of_nat r))
    1000
    "Maximum call stack size exceeded".

(** ** Strings as lists of code units

    The handlers below trim lines, test for white space and look for the
    byte order mark: their strings are modelled as JavaScript has them, as
    lists of UTF-16 code units ([N]).  [u] turns a literal of the source
    (ASCII) into its code units. *)

Definition jsstr : Type := list N.

Definition u (s : string) : jsstr := N_of_ascii <$> list_ascii_of_string s.

(** White space and line terminators, the characters that [trim()] removes
    and that [\s] matches. *)
Definition is_ws (c : N) : bool :=
  bool_decide (c ∈ [9; 10; 11; 12; 13; 32; 160; 5760; 8192; 8193; 8194; 8195;
                    8196; 8197; 8198; 8199; 8200; 8201; 8202; 8232; 8233;
                    8239; 8287; 12288; 65279]%N).

Fixpoint take_while (p : N → bool) (s : jsstr) : jsstr :=
  match s with
  | [] => []
  | c :: t => if p c then c :: take_while p t else []
  end.

Fixpoint drop_while (p : N → bool) (s : jsstr) : jsstr :=
  match s with
  | [] => []
  | c :: t => if p c then drop_while p t else s
  end.

(** [s.trim()] *)
Definition trim (s : jsstr) : jsstr :=
  reverse (drop_while is_ws (reverse (drop_while is_ws s))).

(** [s.startsWith(p)] and [s.includes(p)] *)
Definition startsWith (p s : jsstr) : bool :=
  bool_decide (take (length p) s = p).

Fixpoint includes (p s : jsstr) : bool :=
  startsWith p s ||
  match s with
  | [] => false
  | _ :: t => includes p t
  end.

(** [s.split(sep)] for a separator of one code unit, and [l.join(sep)]. *)
Fixpoint split_on (sep : N) (s : jsstr) : list jsstr :=
  match s with
  | [] => [[]]
  | c :: t =>
      if decide (c = sep) then [] :: split_on sep t
      else match split_on sep t with
           | l :: ls => (c :: l) :: ls
           | [] => [[c]]
           end
  end.

Fixpoint join (sep : jsstr) (l : list jsstr) : jsstr :=
  match l with
  | [] => []
  | [x] => x
  | x :: l' => x ++ sep ++ join sep l'
  end.

(** ** classifyImport *)

Definition STDLIB_MODULES : list jsstr := u <$> [
  "abc"; "aifc"; "argparse"; "array"; "ast"; "asyncio"; "atexit"; "base64";
  "binascii"; "bisect"; "builtins"; "calendar"; "cgi"; "cmd"; "code";
  "codecs"; "collections"; "colorsys"; "compileall"; "configparser";
  "contextlib"; "copy"; "copyreg"; "csv"; "ctypes"; "curses"; "dataclasses";
  "datetime"; "decimal"; "difflib"; "dis"; "distutils"; "doctest"; "email";
  "encodings"; "enum"; "errno"; "faulthandler"; "fcntl"; "filecmp";
  "fileinput"; "fnmatch"; "fractions"; "ftplib"; "functools"; "gc"; "getopt";
  "getpass"; "gettext"; "glob"; "gzip"; "hashlib"; "heapq"; "hmac"; "html";
  "http"; "idlelib"; "imaplib"; "importlib"; "inspect"; "io"; "ipaddress";
  "itertools"; "json"; "keyword"; "lib2to3"; "linecache"; "locale";
  "logging"; "lzma"; "mailbox"; "math"; "mimetypes"; "mmap"; "modulefinder";
  "multiprocessing"; "netrc"; "numbers"; "operator"; "optparse"; "os";
  "pathlib"; "pdb"; "pickle"; "pickletools"; "pkgutil"; "platform";
  "plistlib"; "poplib"; "posixpath"; "pprint"; "profile"; "pstats";
  "py_compile"; "pyclbr"; "pydoc"; "queue"; "quopri"; "random"; "re";
  "readline"; "reprlib"; "resource"; "rlcompleter"; "runpy"; "sched";
  "secrets"; "select"; "selectors"; "shelve"; "shlex"; "shutil"; "signal";
  "site"; "smtpd"; "smtplib"; "sndhdr"; "socket"; "socketserver"; "sqlite3";
  "ssl"; "stat"; "statistics"; "string"; "stringprep"; "struct";
  "subprocess"; "sunau"; "symtable"; "sys"; "sysconfig"; "syslog";
  "tabnanny"; "tarfile"; "tempfile"; "test"; "textwrap"; "threading"; "time";
  "timeit"; "tkinter"; "token"; "tokenize"; "trace"; "traceback";
  "tracemalloc"; "tty"; "turtle"; "turtledemo"; "types"; "typing";
  "unicodedata"; "unittest"; "urllib"; "uu"; "uuid"; "venv"; "warnings";
  "wave"; "weakref"; "webbrowser"; "winreg"; "winsound"; "wsgiref"; "xdrlib";
  "xml"; "xmlrpc"; "zipapp"; "zipfile"; "zipimport"; "zlib"; "_thread";
  "__future__"
].

Inductive ImportClass := stdlib | third_party | local.

#[global] Instance ImportClass_eq_dec : EqDecision ImportClass.
Proof. solve_decision. Defined.

(** [module.split('.')[0]] *)
Definition topLevel (module : jsstr) : jsstr :=
  default [] (head (split_on 46 module)).

Definition classifyImport (module : jsstr) : ImportClass :=
  if startsWith (u ".") module then local
  else if bool_decide (topLevel module ∈ STDLIB_MODULES) then stdlib
  else third_party.

(** ** The handler of [cc_organize_imports] *)

(** The loop that finds the import block.  [importStart] and [importEnd]
    start at -1; [stopped] records the [break]. *)
Record ImportScan := mkImportScan {
  importStart : Z;
  importEnd : Z;
  importLines : list jsstr;
  stopped : bool
}.

Definition is_import_line (trimmed : jsstr) : bool :=
  startsWith (u "import ") trimmed || startsWith (u "from ") trimmed.

Definition scan_step (st : ImportScan) (i : nat) (line : jsstr) : ImportScan :=
  if stopped st then st
  else
    let trimmed := trim line in
    if is_import_line trimmed then
      mkImportScan
        (if decide (importStart st = -1)%Z then Z.of_nat i else importStart st)
        (Z.of_nat i) (importLines st ++ [trimmed]) false
    else if bool_decide (importStart st ≠ -1)%Z
            && bool_decide (trimmed ≠ [])
            && negb (startsWith (u "#") trimmed) then
      if decide (importEnd st < Z.of_nat i - 2)%Z
      then mkImportScan (importStart st) (importEnd st) (importLines st) true
      else st
    else st.

(** The loop from index [i] on, over the lines that are left. *)
Fixpoint scan_from (i : nat) (rest : list jsstr) (st : ImportScan)
  : ImportScan :=
  match rest with
  | [] => st
  | line :: rest' => scan_from (S i) rest' (scan_step st i line)
  end.

Definition scan_imports (lines : list jsstr) : ImportScan :=
  scan_from 0 lines (mkImportScan (-1) (-1) [] false).

(** [[...new Set(importLines)]]: the first occurrence of each line, in
    order. *)
Definition uniqueImports (importLines : list jsstr) : list jsstr :=
  foldl (λ acc l, if bool_decide (l ∈ acc) then acc else acc ++ [l])
        [] importLines.

(** The default order of [sort()]: strings compared code unit by code
    unit.  [sort()] returns the sorted permutation of its array; so does
    [merge_sort]. *)
Fixpoint str_leb (x y : jsstr) : bool :=
  match x, y with
  | [], _ => true
  | _ :: _, [] => false
  | a :: x', b :: y' =>
      if (a <? b)%N then true
      else if (b <? a)%N then false
      else str_leb x' y'
  end.

Definition str_le (x y : jsstr) : Prop := str_leb x y = true.

#[global] Instance str_le_dec x y : Decision (str_le x y).
Proof. unfold str_le. apply _. Defined.

Definition sort (l : list jsstr) : list jsstr := merge_sort str_le l.

(** [l.match(/^(?:from\s+)?(\S+)/)?.[1]?.replace(/^from\s+/, '') || '']:
    the optional group takes [from] and the white space after it when a
    character that is no white space follows; the capture is the run of
    such characters from there on.  Without a match the result is [''];
    the [replace] applies to the capture. *)
Definition capture_module (l : jsstr) : jsstr :=
  let after_from := drop 4 l in
  let rest := drop_while is_ws after_from in
  if startsWith (u "from") l
     && bool_decide (rest ≠ after_from) && bool_decide (rest ≠ [])
  then take_while (λ c, negb (is_ws c)) rest
  else take_while (λ c, negb (is_ws c)) l.

Definition replace_from (s : jsstr) : jsstr :=
  let after_from := drop 4 s in
  let rest := drop_while is_ws after_from in
  if startsWith (u "from") s && bool_decide (rest ≠ after_from)
  then rest else s.

Definition import_module (l : jsstr) : jsstr :=
  replace_from (capture_module l).

Definition is_future (l : jsstr) : bool := includes (u "__future__") l.

Definition futureImports (unique : list jsstr) : list jsstr :=
  sort (filter (λ l, is_future l = true) unique).

Definition stdlibImports (unique : list jsstr) : list jsstr :=
  sort (filter (λ l, is_future l = false ∧
                     classifyImport (import_module l) = stdlib) unique).

Definition thirdPartyImports (unique : list jsstr) : list jsstr :=
  sort (filter (λ l, classifyImport (import_module l) = third_party) unique).

Definition localImports (unique : list jsstr) : list jsstr :=
  sort (filter (λ l, classifyImport (import_module l) = local) unique).

(** [if (group.length > 0) { newImportBlock.push(...group, ''); }], a call
    with one argument per line of the group and one more. *)
Definition push_group (max_args : nat) (block group : list jsstr)
  : Outcome (list jsstr) :=
  if decide (group = []) then Returns block
  else push_spread max_args block (group ++ [[]]).

(** [while (b.length > 0 && b[b.length - 1] === '') b.pop();] *)
Fixpoint pop_empty (block : list jsstr) : list jsstr :=
  match block with
  | [] => []
  | x :: block' =>
      match pop_empty block' with
      | [] => if decide (x = []) then [] else [x]
      | kept => x :: kept
      end
  end.

Definition newImportBlock (max_args : nat) (unique : list jsstr)
  : Outcome (list jsstr) :=
  match push_group max_args [] (futureImports unique) with
  | Throws => Throws
  | Returns block1 =>
      match push_group max_args block1 (stdlibImports unique) with
      | Throws => Throws
      | Returns block2 =>
          match push_group max_args block2 (thirdPartyImports unique) with
          | Throws => Throws
          | Returns block3 =>
              match push_group max_args block3 (localImports unique) with
              | Throws => Throws
              | Returns block4 => Returns (pop_empty block4)
              end
          end
      end
  end.

(** [[...lines.slice(0, importStart), ...newImportBlock,
      ...lines.slice(importEnd + 1)]] *)
Definition newLines (lines : list jsstr) (sc : ImportScan)
    (block : list jsstr) : list jsstr :=
  take (Z.to_nat (importStart sc)) lines ++ block
  ++ drop (Z.to_nat (importEnd sc + 1)) lines.

Record OrganizeEnv := mkOrganizeEnv {
  oe_normalizePath : jsstr → jsstr;
  oe_pathExists : jsstr → bool;
  oe_readFile : jsstr → jsstr + jsstr;
  oe_writeFile : jsstr → jsstr → option jsstr;
  oe_basename : jsstr → jsstr;
  oe_fileNotFound : jsstr → jsstr;
  oe_error : jsstr → jsstr;
  oe_header : jsstr → jsstr;
  oe_noImportsFound : jsstr → jsstr;
  oe_categoryFuture : jsstr;
  oe_categoryStdlib : jsstr;
  oe_categoryThirdParty : jsstr;
  oe_categoryLocal : jsstr;
  oe_duplicatesRemoved : jsstr;
  oe_previewHeader : jsstr;
  oe_importsSaved : jsstr;
  oe_maxArgs : nat;
  oe_rangeErrorMessage : jsstr
}.

(** The answer of the handler and, when it has written the file, the path
    and the content written.  Of the environment, [oe_readFile] gives the
    content or the message of the error thrown, [oe_writeFile] the message
    of the error thrown, if any, and [oe_maxArgs] the number of arguments
    a call takes in the engine, with the message of the RangeError thrown
    beyond.  The handler catches what is thrown inside it. *)
Record OrganizeResult := mkOrganizeResult {
  org_isError : bool;
  org_text : jsstr;
  org_written : option (jsstr * jsstr)
}.

(** [`| ${label} | ${n} |`] *)
Definition table_row (label : jsstr) (n : nat) : jsstr :=
  u "| " ++ label ++ u " | " ++ u (num (Z.of_nat n)) ++ u " |".

Definition cc_organize_imports (env : OrganizeEnv) (path : jsstr)
    (dry_run : bool) : OrganizeResult :=
  let filePath := oe_normalizePath env path in
  if negb (oe_pathExists env filePath) then
    mkOrganizeResult true (oe_fileNotFound env filePath) None
  else
    match oe_readFile env filePath with
    | inr msg => mkOrganizeResult true (oe_error env msg) None
    | inl content =>
        let lines := split_on 10 content in
        let sc := scan_imports lines in
        if decide (importLines sc = []) then
          mkOrganizeResult false
            (oe_noImportsFound env (oe_basename env filePath)) None
        else
          let unique := uniqueImports (importLines sc) in
          let removed := length (importLines sc) - length unique in
          let thrown :=
            mkOrganizeResult true
              (oe_error env (oe_rangeErrorMessage env)) None in
          match newImportBlock (oe_maxArgs env) unique with
          | Throws => thrown
          | Returns block =>
              let output :=
                [oe_header env (oe_basename env filePath); [];
                 table_row (oe_categoryFuture env)
                           (length (futureImports unique));
                 u "|---|---|";
                 table_row (oe_categoryFuture env)
                           (length (futureImports unique));
                 table_row (oe_categoryStdlib env)
                           (length (stdlibImports unique));
                 table_row (oe_categoryThirdParty env)
                           (length (thirdPartyImports unique));
                 table_row (oe_categoryLocal env)
                           (length (localImports unique));
                 table_row (oe_duplicatesRemoved env) removed] in
              if dry_run then
                match push_spread (oe_maxArgs env) output
                        ([[]; oe_previewHeader env; u "```python"]
                         ++ block ++ [u "```"]) with
                | Throws => thrown
                | Returns output' =>
                    mkOrganizeResult false (join [10%N] output') None
                end
              else
                let newContent := join [10%N] (newLines lines sc block) in
                match oe_writeFile env filePath newContent with
                | Some msg => mkOrganizeResult true (oe_error env msg) None
                | None =>
                    mkOrganizeResult false
                      (join [10%N] (output ++ [[]; oe_importsSaved env]))
                      (Some (filePath, newContent))
                end
          end
    end.

(** A sample environment: one file, [m.py]. *)
Definition sample_organize_env : OrganizeEnv :=
  mkOrganizeEnv
    (λ p, p)
    (λ p, bool_decide (p = u "m.py"))
    (λ p, if bool_decide (p = u "m.py")
          then inl (u "import os
x = 1
from os import path")
          else inr (u "ENOENT"))
    (λ _ _, None)
    (λ p, p)
    (λ p, u "File not found: " ++ p)
    (λ m, u "Error: " ++ m)
    (λ f, u "Imports of " ++ f)
    (λ f, u "No imports in " ++ f)
    (u "__future__") (u "stdlib") (u "third-party") (u "local")
    (u "duplicates removed") (u "Preview:") (u "Saved.")
    1000 (u "Maximum call stack size exceeded").

(** The trimmed lines of the region [s .. e] of the file, and the invariant
    of the scanning loop before line [k]: either no import line has been
    seen, or the loop holds the first and the last import line seen and the
    import lines between them. *)
Definition import_region (lines : list jsstr) (s e : nat) : list jsstr :=
  trim <$> take (S e - s) (drop s lines).

Definition scan_inv (lines : list jsstr) (k : nat) (st : ImportScan) : Prop :=
  (importLines st = [] ∧ importStart st = (-1)%Z ∧ importEnd st = (-1)%Z ∧
   stopped st = false ∧
   ∀ i line, i < k → lines !! i = Some line →
     is_import_line (trim line) = false)
  ∨ (∃ s e,
       importStart st = Z.of_nat s ∧ importEnd st = Z.of_nat e ∧
       s ≤ e ∧ e < k ∧
       importLines st =
         filter (λ x, is_import_line x = true) (import_region lines s e) ∧
       (∃ line, lines !! s = Some line ∧ is_import_line (trim line) = true) ∧
       (∃ line, lines !! e = Some line ∧ is_import_line (trim line) = true) ∧
       (stopped st = false →
        ∀ i line, e < i → i < k → lines !! i = Some line →
          is_import_line (trim line) = false)).

(** Invariant of the scanning loop on [importStart]: no import line stands
    before it, nor before line [k] as long as it is -1. *)
Definition scan_first_inv (lines : list jsstr) (k : nat) (st : ImportScan)
  : Prop :=
  (importStart st = (-1)%Z ∧ stopped st = false ∧
   ∀ i line, i < k → lines !! i = Some line →
     is_import_line (trim line) = false)
  ∨ (∃ s, importStart st = Z.of_nat s ∧
       ∀ i line, i < s → lines !! i = Some line →
         is_import_line (trim line) = false).

(** ** The handler of [cc_cleanup_file] *)

Inductive LineEnding := lf | crlf.

#[global] Instance LineEnding_eq_dec : EqDecision LineEnding.
Proof. solve_decision. Defined.

(** The parameters after validation: the booleans have defaults, the line
    ending is optional. *)
Record CleanupParams := mkCleanupParams {
  remove_bom : bool;
  remove_trailing_whitespace : bool;
  normalize_line_endings : option LineEnding;
  remove_nul_bytes : bool;
  cleanup_dry_run : bool
}.

(** The entries of [fixes]: three translated labels, and [LF] or [CRLF]. *)
Inductive CleanupFix :=
  | fixBomRemoved
  | fixNulRemoved
  | fixTrailingWhitespace
  | fixLineEnding (le : LineEnding).

(** [content.replace(/\0/g, '')] *)
Definition remove_nul (content : jsstr) : jsstr :=
  filter (λ c, c ≠ 0%N) content.

Definition is_blank (c : N) : bool :=
  bool_decide (c = 32%N) || bool_decide (c = 9%N).

Definition is_line_terminator (c : N) : bool :=
  bool_decide (c ∈ [10; 13; 8232; 8233]%N).

(** [content.replace(/[ \t]+$/gm, '')].  With the [m] flag, [$] holds at
    the end of the input and before a line terminator, so a match is a
    whole run of spaces and tabs that ends there.  The scan keeps in
    [pending] the run it is reading: the run is dropped when a line
    terminator or the end follows, and kept when another character does. *)
Fixpoint strip_trailing (pending content : jsstr) : jsstr :=
  match content with
  | [] => []
  | c :: rest =>
      if is_blank c then strip_trailing (pending ++ [c]) rest
      else if is_line_terminator c then c :: strip_trailing [] rest
      else pending ++ c :: strip_trailing [] rest
  end.

(** [content.replace(/\r\n/g, '\n')] *)
Fixpoint crlf_to_lf (content : jsstr) : jsstr :=
  match content with
  | [] => []
  | c :: rest =>
      match rest with
      | d :: rest' =>
          if decide (c = 13%N ∧ d = 10%N) then 10%N :: crlf_to_lf rest'
          else c :: crlf_to_lf rest
      | [] => [c]
      end
  end.

(** [content.replace(/\n/g, '\r\n')] *)
Definition lf_to_crlf (content : jsstr) : jsstr :=
  content ≫= λ c, if decide (c = 10%N) then [13; 10]%N else [c].

(** The four steps on [content] and [fixes]. *)
Definition cleanup_bom (p : CleanupParams) (st : jsstr * list CleanupFix)
  : jsstr * list CleanupFix :=
  if remove_bom p && bool_decide (head st.1 = Some 65279%N)
  then (drop 1 st.1, st.2 ++ [fixBomRemoved]) else st.

Definition cleanup_nul (p : CleanupParams) (st : jsstr * list CleanupFix)
  : jsstr * list CleanupFix :=
  if remove_nul_bytes p && bool_decide (0%N ∈ st.1)
  then (remove_nul st.1, st.2 ++ [fixNulRemoved]) else st.

Definition cleanup_whitespace (p : CleanupParams)
    (st : jsstr * list CleanupFix) : jsstr * list CleanupFix :=
  if remove_trailing_whitespace p then
    let c := st.1 in
    let content := strip_trailing [] c in
    (content, if decide (content ≠ c) then st.2 ++ [fixTrailingWhitespace]
              else st.2)
  else st.

Definition cleanup_line_endings (p : CleanupParams)
    (st : jsstr * list CleanupFix) : jsstr * list CleanupFix :=
  match normalize_line_endings p with
  | None => st
  | Some le =>
      let c := st.1 in
      let content := crlf_to_lf c in
      let content := if decide (le = crlf) then lf_to_crlf content
                     else content in
      (content, if decide (content ≠ c) then st.2 ++ [fixLineEnding le]
                else st.2)
  end.

Definition cleanup_content (p : CleanupParams) (raw : jsstr)
  : jsstr * list CleanupFix :=
  cleanup_line_endings p
    (cleanup_whitespace p (cleanup_nul p (cleanup_bom p (raw, [])))).

Record CleanupEnv := mkCleanupEnv {
  ce_normalizePath : jsstr → jsstr;
  ce_pathExists : jsstr → bool;
  ce_readFile : jsstr → jsstr + jsstr;
  ce_writeFile : jsstr → jsstr → option jsstr;
  ce_basename : jsstr → jsstr;
  ce_fileNotFound : jsstr → jsstr;
  ce_error : jsstr → jsstr;
  ce_alreadyClean : jsstr → jsstr;
  ce_previewHeader : jsstr → jsstr;
  ce_cleanedHeader : jsstr → jsstr;
  ce_fixBomRemoved : jsstr;
  ce_fixNulRemoved : jsstr;
  ce_fixTrailingWhitespace : jsstr
}.

Definition fix_label (env : CleanupEnv) (f : CleanupFix) : jsstr :=
  match f with
  | fixBomRemoved => ce_fixBomRemoved env
  | fixNulRemoved => ce_fixNulRemoved env
  | fixTrailingWhitespace => ce_fixTrailingWhitespace env
  | fixLineEnding lf => u "LF"
  | fixLineEnding crlf => u "CRLF"
  end.

Record CleanupResult := mkCleanupResult {
  cl_isError : bool;
  cl_text : jsstr;
  cl_written : option (jsstr * jsstr)
}.

Definition cc_cleanup_file (env : CleanupEnv) (path : jsstr)
    (p : CleanupParams) : CleanupResult :=
  let filePath := ce_normalizePath env path in
  if negb (ce_pathExists env filePath) then
    mkCleanupResult true (ce_fileNotFound env filePath) None
  else
    match ce_readFile env filePath with
    | inr msg => mkCleanupResult true (ce_error env msg) None
    | inl raw =>
        let '(content, fixes) := cleanup_content p raw in
        let items := (λ f, u "  - " ++ fix_label env f) <$> fixes in
        if decide (fixes = []) then
          mkCleanupResult false
            (ce_alreadyClean env (ce_basename env filePath)) None
        else if cleanup_dry_run p then
          mkCleanupResult false
            (join [10%N]
               ([ce_previewHeader env (ce_basename env filePath); []] ++ items))
            None
        else
          match ce_writeFile env filePath content with
          | Some msg => mkCleanupResult true (ce_error env msg) None
          | None =>
              mkCleanupResult false
                (join [10%N]
                   ([ce_cleanedHeader env (ce_basename env filePath); []]
                    ++ items))
                (Some (filePath, content))
          end
    end.

(** A content in which no space or tab stands before a line terminator or
    at the end. *)
Definition at_line_end (content : jsstr) : bool :=
  match content with
  | [] => true
  | c :: _ => is_line_terminator c
  end.

Fixpoint ends_clean (content : jsstr) : bool :=
  match content with
  | [] => true
  | c :: rest => negb (is_blank c && at_line_end rest) && ends_clean rest
  end.

Definition sample_cleanup_env : CleanupEnv :=
  mkCleanupEnv
    (λ p, p)
    (λ p, bool_decide (p = u "a.txt"))
    (λ p, if bool_decide (p = u "a.txt")
          then inl (65279%N :: u "x  " ++ [13; 10; 0]%N ++ u "y	")
          else inr (u "ENOENT"))
    (λ _ _, None)
    (λ p, p)
    (λ p, u "File not found: " ++ p)
    (λ m, u "Error: " ++ m)
    (λ f, f ++ u " is already clean.")
    (λ f, u "Preview: " ++ f)
    (λ f, u "Cleaned: " ++ f)
    (u "BOM removed") (u "NUL bytes removed") (u "Trailing whitespace").

(** ** formatFileSize

    The callers pass the size of a file, a non-negative integer below
    2^53, and every division by 1024 of the loop is then exact (a power of
    two is divided out): [size] is modelled as the rational number it is.
    [x.toFixed(2)] prints, for [0 <= x < 10^21], the integer [n] nearest
    to [100 x] (the larger one of two) with a point before its last two
    digits; from 10^21 on it is [String(x)], the number in exponent
    notation, for which [number_to_string] stands. *)

Definition units : list string := ["B"; "KB"; "MB"; "GB"].

(** [while (size >= 1024 && unitIndex < units.length - 1)
      { size /= 1024; unitIndex++; }], on a number of rounds. *)
Fixpoint scale_loop (rounds : nat) (size : Q) (unitIndex : nat) : Q * nat :=
  match rounds with
  | 0 => (size, unitIndex)
  | S rounds' =>
      if Qle_bool 1024 size && bool_decide (unitIndex < length units - 1)
      then scale_loop rounds' (size / 1024)%Q (S unitIndex)
      else (size, unitIndex)
  end.

Definition two_digits (d : Z) : string :=
  if decide (d < 10)%Z then "0" +:+ num d else num d.

Definition toFixed2 (number_to_string : Q → string) (x : Q) : string :=
  if Qle_bool (inject_Z (10 ^ 21)) x then number_to_string x
  else
    let n := Qfloor (x * 100 + (1 # 2))%Q in
    num (n / 100)%Z +:+ "." +:+ two_digits (n mod 100)%Z.

Definition formatFileSize (number_to_string : Q → string) (bytes : N)
  : string :=
  let r := scale_loop (length units - 1) (inject_Z (Z.of_N bytes)) 0 in
  toFixed2 number_to_string r.1 +:+ " "
  +:+ default EmptyString (units !! r.2).

(** * Properties *)

(** ** The table built by [computeLCS] *)

Section lcs_table.
Context (a b : list string).

Lemma lcs_len_0_r i : lcs_len a b i 0 = 0.
Proof. by destruct i. Qed.

Lemma lcs_len_S i j :
  lcs_len a b (S i) (S j) =
    if decide (a !! i = b !! j) then lcs_len a b i j + 1
    else lcs_len a b i (S j) `max` lcs_len a b (S i) j.
Proof. reflexivity. Qed.

Lemma dp_get_set dp i j v i' j' :
  i < length dp →
  Forall (λ r, length r = length b + 1) dp →
  j ≤ length b →
  dp_get (dp_set dp i j v) i' j' =
    if decide (i' = i ∧ j' = j) then v else dp_get dp i' j'.
Proof.
  intros Hi Hrows Hj. unfold dp_get, dp_set.
  destruct (decide (i = i')) as [<-|Hne].
  - rewrite list_lookup_alter_eq.
    destruct (lookup_lt_is_Some_2 dp i Hi) as [r Hr]. rewrite Hr. simpl.
    assert (length r = length b + 1) as Hlen
      by (eapply (proj1 (Forall_lookup _ _) Hrows); eauto).
    destruct (decide (j' = j)) as [->|Hne'].
    + rewrite list_lookup_insert_eq by lia. by rewrite decide_True.
    + rewrite list_lookup_insert_ne by done.
      rewrite decide_False by (intros [_ ?]; done). done.
  - rewrite list_lookup_alter_ne by done.
    rewrite decide_False by (intros [? _]; done). done.
Qed.

Lemma dp_set_rows dp i j v :
  Forall (λ r, length r = length b + 1) dp →
  Forall (λ r, length r = length b + 1) (dp_set dp i j v).
Proof.
  intros Hrows. unfold dp_set. apply Forall_alter; [done|].
  intros r Hr. by rewrite length_insert.
Qed.

Lemma dp_filled_init :
  dp_filled a b (replicate (length a + 1) (replicate (length b + 1) 0)) 0 (length b).
Proof.
  split_and!.
  - by rewrite length_replicate.
  - apply Forall_replicate. by rewrite length_replicate.
  - intros i' j' Hi' Hj'. unfold dp_get.
    rewrite lookup_replicate_2 by lia. simpl.
    rewrite lookup_replicate_2 by lia. simpl.
    case_decide as H; [|done].
    destruct H as [H|[-> _]]; [lia|done].
Qed.

Lemma dp_filled_next_row dp i :
  dp_filled a b dp i (length b) → dp_filled a b dp (S i) 0.
Proof.
  intros (Hlen & Hrows & Hcells). split_and!; [done..|].
  intros i' j' Hi' Hj'. rewrite Hcells by done.
  destruct (decide (i' = S i)) as [->|Hne].
  - rewrite decide_False by lia.
    case_decide as H; [|done].
    destruct H as [H|[_ H]]; [lia|].
    assert (j' = 0) as -> by lia. by rewrite lcs_len_0_r.
  - case_decide; case_decide; try done; lia.
Qed.

Lemma dp_filled_cell dp i j :
  dp_filled a b dp (S i) j → S i ≤ length a → S j ≤ length b →
  dp_filled a b (lcs_cell a b (S i) dp (S j)) (S i) (S j).
Proof.
  intros (Hlen & Hrows & Hcells) Hi Hj.
  assert (∀ v, dp_filled a b (dp_set dp (S i) (S j) v) (S i) (S j) ∨
               v ≠ lcs_len a b (S i) (S j)) as Hset.
  { intros v. destruct (decide (v = lcs_len a b (S i) (S j))) as [->|]; [left|by right].
    split_and!.
    - unfold dp_set. by rewrite length_alter.
    - by apply dp_set_rows.
    - intros i' j' Hi' Hj'. rewrite dp_get_set by (done || lia).
      case_decide as Heq.
      + destruct Heq as [-> ->]. rewrite decide_True by lia. done.
      + rewrite Hcells by done.
        case_decide; case_decide; try done; lia. }
  unfold lcs_cell. replace (S i - 1) with i by lia. replace (S j - 1) with j by lia.
  rewrite (Hcells i j), (Hcells i (S j)), (Hcells (S i) j) by lia.
  case_decide as Hab; rewrite !decide_True by lia.
  - destruct (Hset (lcs_len a b i j + 1)) as [?|Hne]; [done|].
    exfalso. apply Hne. rewrite lcs_len_S. by rewrite decide_True.
  - destruct (Hset (lcs_len a b i (S j) `max` lcs_len a b (S i) j)) as [?|Hne]; [done|].
    exfalso. apply Hne. rewrite lcs_len_S. by rewrite decide_False.
Qed.

Lemma dp_filled_cols dp i k :
  dp_filled a b dp (S i) 0 → S i ≤ length a → k ≤ length b →
  dp_filled a b (foldl (lcs_cell a b (S i)) dp (seq 1 k)) (S i) k.
Proof.
  intros Hdp Hi. induction k as [|k IH]; intros Hk; [done|].
  rewrite seq_S, foldl_app. simpl.
  apply dp_filled_cell; [apply IH; lia|done..].
Qed.

Lemma dp_filled_rows k :
  k ≤ length a →
  dp_filled a b (foldl (lcs_row a b)
               (replicate (length a + 1) (replicate (length b + 1) 0))
               (seq 1 k)) k (length b).
Proof.
  induction k as [|k IH]; intros Hk; [apply dp_filled_init|].
  rewrite seq_S, foldl_app. simpl. unfold lcs_row at 1.
  apply dp_filled_cols; [|done..].
  apply dp_filled_next_row, IH. lia.
Qed.

(** Every cell of the table returned by [computeLCS] obeys the
    recurrence. *)
Lemma computeLCS_cell i j :
  i ≤ length a → j ≤ length b →
  dp_get (computeLCS a b) i j = lcs_len a b i j.
Proof.
  intros Hi Hj. unfold computeLCS.
  destruct (dp_filled_rows (length a)) as (_ & _ & Hcells); [done|].
  rewrite Hcells by done. rewrite decide_True; [done|lia].
Qed.

End lcs_table.

(** ** The backtracking loop *)

Section backtracking.
Context (a b : list string).

Lemma replay_A_cons c l :
  replay_A (c :: l) =
    if decide (type c = T_insert) then replay_A l else text c :: replay_A l.
Proof.
  unfold replay_A. rewrite filter_cons.
  destruct c as [[] ? ? ?]; simpl; repeat case_decide; naive_solver.
Qed.

Lemma replay_B_cons c l :
  replay_B (c :: l) =
    if decide (type c = T_delete) then replay_B l else text c :: replay_B l.
Proof.
  unfold replay_B. rewrite filter_cons.
  destruct c as [[] ? ? ?]; simpl; repeat case_decide; naive_solver.
Qed.

Lemma count_type_cons t c l :
  count_type t (c :: l) =
    if decide (type c = t) then S (count_type t l) else count_type t l.
Proof. unfold count_type. rewrite filter_cons. by case_decide. Qed.

Lemma count_type_total l :
  count_type T_equal l + count_type T_delete l + count_type T_insert l = length l.
Proof.
  induction l as [|c l IH]; [done|].
  rewrite !count_type_cons. destruct c as [[] ? ? ?]; simpl;
    repeat case_decide; try done; lia.
Qed.

Lemma length_replay_A l :
  length (replay_A l) = count_type T_equal l + count_type T_delete l.
Proof.
  induction l as [|c l IH]; [done|].
  rewrite replay_A_cons, !count_type_cons. destruct c as [[] ? ? ?]; simpl;
    repeat case_decide; try done; simpl; lia.
Qed.

Lemma length_replay_B l :
  length (replay_B l) = count_type T_equal l + count_type T_insert l.
Proof.
  induction l as [|c l IH]; [done|].
  rewrite replay_B_cons, !count_type_cons. destruct c as [[] ? ? ?]; simpl;
    repeat case_decide; try done; simpl; lia.
Qed.

Lemma line_at_drop (l : list string) k :
  k < length l → drop k l = line_at l k :: drop (S k) l.
Proof.
  intros Hk. destruct (lookup_lt_is_Some_2 l k Hk) as [x Hx].
  unfold line_at. rewrite Hx. simpl. by apply drop_S.
Qed.

(** The three cases of one iteration, as the source orders them. *)
Lemma bt_body_equal dp s :
  0 < bt_i s → 0 < bt_j s → a !! (bt_i s - 1) = b !! (bt_j s - 1) →
  bt_body dp a b s =
    mkBt (bt_i s - 1) (bt_j s - 1)
      (bt_out s ++ [mkChange T_equal (Some (bt_i s - 1)) (Some (bt_j s - 1))
                      (line_at a (bt_i s - 1))]).
Proof. intros. unfold bt_body. by rewrite decide_True. Qed.

Lemma bt_body_insert dp s :
  ¬ (0 < bt_i s ∧ 0 < bt_j s ∧ a !! (bt_i s - 1) = b !! (bt_j s - 1)) →
  0 < bt_j s →
  bt_i s = 0 ∨ dp_get dp (bt_i s - 1) (bt_j s) ≤ dp_get dp (bt_i s) (bt_j s - 1) →
  bt_body dp a b s =
    mkBt (bt_i s) (bt_j s - 1)
      (bt_out s ++ [mkChange T_insert None (Some (bt_j s - 1))
                      (line_at b (bt_j s - 1))]).
Proof. intros. unfold bt_body. rewrite decide_False by done. by rewrite decide_True. Qed.

Lemma bt_body_delete dp s :
  ¬ (0 < bt_i s ∧ 0 < bt_j s ∧ a !! (bt_i s - 1) = b !! (bt_j s - 1)) →
  ¬ (0 < bt_j s ∧
     (bt_i s = 0 ∨ dp_get dp (bt_i s - 1) (bt_j s) ≤ dp_get dp (bt_i s) (bt_j s - 1))) →
  bt_body dp a b s =
    mkBt (bt_i s - 1) (bt_j s)
      (bt_out s ++ [mkChange T_delete (Some (bt_i s - 1)) None
                      (line_at a (bt_i s - 1))]).
Proof. intros. unfold bt_body. by rewrite !decide_False. Qed.

Lemma bt_cond_true s : bt_cond s = true ↔ 0 < bt_i s ∨ 0 < bt_j s.
Proof. unfold bt_cond. by rewrite bool_decide_eq_true. Qed.

Lemma bt_cond_false s : bt_cond s = false ↔ bt_i s = 0 ∧ bt_j s = 0.
Proof. unfold bt_cond. rewrite bool_decide_eq_false. lia. Qed.

(** Every iteration strictly decreases [i + j]. *)
Lemma bt_body_decreases dp s :
  bt_cond s = true →
  bt_i (bt_body dp a b s) + bt_j (bt_body dp a b s) < bt_i s + bt_j s.
Proof.
  rewrite bt_cond_true. intros Hc. unfold bt_body.
  repeat case_decide; simpl; lia.
Qed.

(** Invariant rule for the loop: with fuel [i + j] or more it exits, in a
    state that satisfies every invariant of the body. *)
Lemma bt_loop_invariant (P : BtState → Prop) dp :
  (∀ s, P s → bt_cond s = true → P (bt_body dp a b s)) →
  ∀ fuel s, bt_i s + bt_j s ≤ fuel → P s →
    ∃ s', bt_loop fuel dp a b s = Some s' ∧ P s' ∧ bt_i s' = 0 ∧ bt_j s' = 0.
Proof.
  intros Hstep fuel. induction fuel as [|fuel IH]; intros s Hfuel HP.
  - exists s. assert (bt_cond s = false) as Hc by (apply bt_cond_false; lia).
    simpl. rewrite Hc. apply bt_cond_false in Hc. destruct Hc. done.
  - simpl. destruct (bt_cond s) eqn:Hc.
    + apply IH; [|by apply Hstep].
      pose proof (bt_body_decreases dp s Hc). lia.
    + exists s. apply bt_cond_false in Hc. destruct Hc. done.
Qed.

Lemma bt_inv_init : bt_inv a b (mkBt (length a) (length b) []).
Proof.
  unfold bt_inv. simpl. rewrite !drop_all. done.
Qed.

Lemma bt_inv_step s :
  bt_inv a b s → bt_cond s = true → bt_inv a b (bt_body (computeLCS a b) a b s).
Proof.
  intros (Hi & Hj & HA & HB & HE). rewrite bt_cond_true. intros Hc.
  destruct s as [i j out]. simpl in *.
  destruct (decide (0 < i ∧ 0 < j ∧ a !! (i - 1) = b !! (j - 1))) as [(Hi0 & Hj0 & Hab)|Hno].
  - rewrite bt_body_equal by done. unfold bt_inv. simpl.
    rewrite reverse_snoc, replay_A_cons, replay_B_cons, count_type_cons. simpl.
    rewrite HA, HB.
    assert (line_at a (i - 1) = line_at b (j - 1)) as Hl by (unfold line_at; by rewrite Hab).
    split_and!; try lia.
    + rewrite (line_at_drop a (i - 1)) by lia. do 2 f_equal. lia.
    + rewrite Hl, (line_at_drop b (j - 1)) by lia. do 2 f_equal. lia.
    + rewrite <- HE. destruct i as [|i]; [lia|]. destruct j as [|j]; [lia|].
      rewrite lcs_len_S. simpl in Hab. rewrite !Nat.sub_0_r in *.
      rewrite decide_True by done. simpl. rewrite !Nat.sub_0_r. lia.
  - destruct (decide (0 < j ∧ (i = 0 ∨ dp_get (computeLCS a b) (i - 1) j
                                       ≤ dp_get (computeLCS a b) i (j - 1))))
      as [(Hj0 & Hdp)|Hno'].
    + rewrite bt_body_insert by done. unfold bt_inv. simpl.
      rewrite reverse_snoc, replay_A_cons, replay_B_cons, count_type_cons. simpl.
      rewrite HA, HB. split_and!; try lia; try done.
      * rewrite (line_at_drop b (j - 1)) by lia. do 2 f_equal. lia.
      * rewrite <- HE. destruct j as [|j]; [lia|]. simpl. rewrite Nat.sub_0_r.
        destruct i as [|i]; [done|].
        destruct Hdp as [?|Hdp]; [lia|]. simpl in Hdp. rewrite !Nat.sub_0_r in Hdp.
        rewrite !computeLCS_cell in Hdp by lia.
        rewrite lcs_len_S. rewrite decide_False; [lia|].
        intros Hab. apply Hno. simpl. rewrite !Nat.sub_0_r. split_and!; [lia..|done].
    + assert (0 < i) as Hi0.
      { destruct (decide (i = 0)) as [->|]; [|lia].
        exfalso. apply Hno'. split; [lia|by left]. }
      rewrite bt_body_delete by done. unfold bt_inv. simpl.
      rewrite reverse_snoc, replay_A_cons, replay_B_cons, count_type_cons. simpl.
      rewrite HA, HB. split_and!; try lia; try done.
      * rewrite (line_at_drop a (i - 1)) by lia. do 2 f_equal. lia.
      * rewrite <- HE. destruct i as [|i]; [lia|]. simpl. rewrite Nat.sub_0_r.
        destruct j as [|j]; [by rewrite !lcs_len_0_r|].
        assert (¬ dp_get (computeLCS a b) i (S j) ≤ dp_get (computeLCS a b) (S i) j) as Hdp.
        { intros Hle. apply Hno'. split; [lia|]. right. simpl. by rewrite !Nat.sub_0_r. }
        rewrite !computeLCS_cell in Hdp by lia.
        rewrite lcs_len_S. rewrite decide_False; [lia|].
        intros Hab. apply Hno. simpl. rewrite !Nat.sub_0_r. split_and!; [lia..|done].
Qed.

(** The backtracking loop, run on [length a + length b] units of fuel or
    more, returns; the change list it leaves satisfies the invariant at
    [i = j = 0]. *)
Lemma backtrack_fuel_spec fuel :
  length a + length b ≤ fuel →
  ∃ changes, backtrack_fuel fuel a b = Some changes ∧
    replay_A changes = a ∧ replay_B changes = b ∧
    count_type T_equal changes = lcs_len a b (length a) (length b).
Proof.
  intros Hfuel. unfold backtrack_fuel.
  destruct (bt_loop_invariant (bt_inv a b) (computeLCS a b) bt_inv_step fuel
              (mkBt (length a) (length b) []) Hfuel bt_inv_init)
    as (s' & Hloop & (_ & _ & HA & HB & HE) & Hi & Hj).
  exists (reverse (bt_out s')). rewrite Hloop. simpl.
  rewrite Hi in HA. rewrite Hj in HB. rewrite Hi, Hj in HE.
  change (lcs_len a b 0 0) with 0 in HE.
  split_and!; [done..|lia].
Qed.

End backtracking.

(** ** The recurrence computes the length of a longest common subsequence *)

Section lcs_optimal.
Context (a b : list string).

(** Neighbouring cells of the table differ by at most one, and the table
    grows in both directions. *)
Lemma lcs_len_neighbours n : ∀ i j, i + j < n →
  lcs_len a b i j ≤ lcs_len a b (S i) j ∧
  lcs_len a b i j ≤ lcs_len a b i (S j) ∧
  lcs_len a b (S i) j ≤ lcs_len a b i j + 1 ∧
  lcs_len a b i (S j) ≤ lcs_len a b i j + 1.
Proof.
  induction n as [|n IH]; intros i j Hn; [lia|].
  assert (lcs_len a b 0 (S j) = 0) as H0j by done.
  assert (lcs_len a b 0 j = 0) as H0j' by done.
  pose proof (lcs_len_0_r a b i) as Hi0.
  pose proof (lcs_len_0_r a b (S i)) as HSi0.
  split_and!.
  - destruct j as [|j]; [lia|]. rewrite (lcs_len_S a b i j).
    destruct (IH i j) as (_ & _ & _ & ?); [lia|]. case_decide; lia.
  - destruct i as [|i]; [lia|]. rewrite (lcs_len_S a b i j).
    destruct (IH i j) as (_ & _ & ? & _); [lia|]. case_decide; lia.
  - destruct j as [|j]; [lia|]. rewrite (lcs_len_S a b i j).
    destruct (IH i j) as (_ & ? & ? & _); [lia|]. case_decide; lia.
  - destruct i as [|i]; [lia|]. rewrite (lcs_len_S a b i j).
    destruct (IH i j) as (? & _ & _ & ?); [lia|]. case_decide; lia.
Qed.

Lemma lcs_len_mono_l i j : lcs_len a b i j ≤ lcs_len a b (S i) j.
Proof. by destruct (lcs_len_neighbours (S (i + j)) i j) as (? & _); [lia|]. Qed.

Lemma lcs_len_mono_r i j : lcs_len a b i j ≤ lcs_len a b i (S j).
Proof. by destruct (lcs_len_neighbours (S (i + j)) i j) as (_ & ? & _); [lia|]. Qed.

Lemma replay_A_snoc l c :
  replay_A (l ++ [c]) =
    replay_A l ++ (if decide (type c = T_insert) then [] else [text c]).
Proof.
  induction l as [|x l IH]; simpl.
  - rewrite replay_A_cons. by case_decide.
  - rewrite !replay_A_cons, IH. repeat case_decide; done.
Qed.

Lemma replay_B_snoc l c :
  replay_B (l ++ [c]) =
    replay_B l ++ (if decide (type c = T_delete) then [] else [text c]).
Proof.
  induction l as [|x l IH]; simpl.
  - rewrite replay_B_cons. by case_decide.
  - rewrite !replay_B_cons, IH. repeat case_decide; done.
Qed.

Lemma count_type_snoc t l c :
  count_type t (l ++ [c]) =
    count_type t l + (if decide (type c = t) then 1 else 0).
Proof.
  induction l as [|x l IH]; simpl.
  - rewrite count_type_cons. by case_decide.
  - rewrite !count_type_cons, IH. repeat case_decide; lia.
Qed.

(** A prefix that ends with [x] is the prefix one shorter, then [x]. *)
Lemma take_snoc_inv (l p : list string) x k :
  k ≤ length l → p ++ [x] = take k l →
  0 < k ∧ p = take (k - 1) l ∧ l !! (k - 1) = Some x.
Proof.
  intros Hk Heq.
  assert (0 < k) as Hk0.
  { apply (f_equal length) in Heq. rewrite length_app, length_take in Heq.
    simpl in Heq. lia. }
  destruct (lookup_lt_is_Some_2 l (k - 1)) as [y Hy]; [lia|].
  replace k with (S (k - 1)) in Heq by lia.
  rewrite (take_S_r _ _ _ Hy) in Heq.
  apply app_inj_tail in Heq as [-> ->]. done.
Qed.

(** No alignment of a prefix of [a] with a prefix of [b] has more Equal
    records than the table says. *)
Lemma lcs_len_upper l : ∀ i j,
  i ≤ length a → j ≤ length b →
  replay_A l = take i a → replay_B l = take j b →
  count_type T_equal l ≤ lcs_len a b i j.
Proof.
  induction l as [|c l IH] using rev_ind; intros i j Hi Hj HA HB.
  { unfold count_type. simpl. lia. }
  rewrite replay_A_snoc in HA. rewrite replay_B_snoc in HB.
  rewrite count_type_snoc.
  destruct (type c) eqn:Hty; simpl in *.
  - symmetry in HA, HB.
    apply symmetry, take_snoc_inv in HA as (Hi0 & HA & Ha); [|done].
    apply symmetry, take_snoc_inv in HB as (Hj0 & HB & Hb); [|done].
    specialize (IH (i - 1) (j - 1)).
    destruct i as [|i]; [lia|]. destruct j as [|j]; [lia|].
    simpl in *. rewrite !Nat.sub_0_r in *.
    rewrite lcs_len_S, decide_True by congruence.
    assert (count_type T_equal l ≤ lcs_len a b i j) by (apply IH; (done || lia)).
    lia.
  - rewrite app_nil_r in HB.
    apply take_snoc_inv in HA as (Hi0 & HA & Ha); [|done].
    destruct i as [|i]; [lia|]. simpl in *. rewrite !Nat.sub_0_r in *.
    assert (count_type T_equal l ≤ lcs_len a b i j) by (apply IH; (done || lia)).
    pose proof (lcs_len_mono_l i j). lia.
  - rewrite app_nil_r in HA.
    apply take_snoc_inv in HB as (Hj0 & HB & Hb); [|done].
    destruct j as [|j]; [lia|]. simpl in *. rewrite !Nat.sub_0_r in *.
    assert (count_type T_equal l ≤ lcs_len a b i j) by (apply IH; (done || lia)).
    pose proof (lcs_len_mono_r i j). lia.
Qed.

Lemma alignment_equal_bound l :
  alignment a b l → count_type T_equal l ≤ lcs_len a b (length a) (length b).
Proof.
  intros [HA HB]. apply lcs_len_upper; [done..| |]; by rewrite take_ge.
Qed.

Lemma alignment_counts l :
  alignment a b l →
  count_type T_insert l + count_type T_delete l + 2 * count_type T_equal l
    = length a + length b.
Proof.
  intros [HA HB].
  pose proof (length_replay_A l) as H1. pose proof (length_replay_B l) as H2.
  rewrite HA in H1. rewrite HB in H2. lia.
Qed.

End lcs_optimal.

(** The table of the swapped inputs is the transposed table. *)
Lemma lcs_len_swap (a b : list string) n : ∀ i j, i + j < n →
  lcs_len a b i j = lcs_len b a j i.
Proof.
  induction n as [|n IH]; intros i j Hn; [lia|].
  destruct i as [|i]; [by rewrite lcs_len_0_r|].
  destruct j as [|j]; [by rewrite lcs_len_0_r|].
  rewrite !lcs_len_S.
  rewrite (IH i j), (IH i (S j)), (IH (S i) j) by lia.
  case_decide; case_decide; (done || lia).
Qed.

(** ** The hunk grouper: its inner loops *)

Section grouper_loops.
Context (changes : list Change) (contextLines : nat).

Lemma is_equal_true c : is_equal c = true ↔ type c = T_equal.
Proof. unfold is_equal. by rewrite bool_decide_eq_true. Qed.

Lemma is_equal_false c : is_equal c = false ↔ type c ≠ T_equal.
Proof. unfold is_equal. by rewrite bool_decide_eq_false. Qed.

Lemma slice_app (l : list Change) i j k :
  i ≤ j → j ≤ k → slice l i j ++ slice l j k = slice l i k.
Proof.
  intros Hij Hjk. unfold slice.
  replace (drop j l) with (drop (j - i) (drop i l))
    by (rewrite drop_drop; f_equal; lia).
  rewrite take_take_drop. f_equal. lia.
Qed.

Lemma slice_singleton (l : list Change) k c :
  l !! k = Some c → slice l k (S k) = [c].
Proof.
  intros Hk. unfold slice. replace (S k - k) with 1 by lia.
  rewrite (drop_S _ _ _ Hk). done.
Qed.

Lemma length_slice (l : list Change) i j :
  j ≤ length l → length (slice l i j) = j - i.
Proof. intros. unfold slice. rewrite length_take, length_drop. lia. Qed.

Lemma slice_lookup (l : list Change) i j q :
  q < j - i → slice l i j !! q = l !! (i + q).
Proof. intros. unfold slice. by rewrite lookup_take_lt, lookup_drop. Qed.

(** The last [n] records below [k], read backwards by the leading loop. *)
Lemma reverse_take_reverse_take (l : list Change) k n :
  n ≤ k → k ≤ length l →
  reverse (take n (reverse (take k l))) = slice l (k - n) k.
Proof.
  intros Hn Hk. rewrite reverse_take, reverse_involutive, length_reverse, length_take.
  unfold slice. rewrite take_drop_commute.
  replace (k `min` length l - n) with (k - n) by lia.
  do 2 f_equal. lia.
Qed.

Lemma equal_run_le l : equal_run l ≤ length l.
Proof. induction l as [|c l IH]; simpl; [done|]. destruct (is_equal c); lia. Qed.

Lemma equal_run_app_stop (eqs rest : list Change) c :
  Forall (λ c, type c = T_equal) eqs → type c ≠ T_equal →
  equal_run (eqs ++ c :: rest) = length eqs.
Proof.
  intros Heqs Hc. induction Heqs as [|e eqs He _ IH]; simpl.
  - apply is_equal_false in Hc. by rewrite Hc.
  - apply is_equal_true in He. rewrite He. lia.
Qed.

Lemma equal_run_all (eqs : list Change) :
  Forall (λ c, type c = T_equal) eqs → equal_run eqs = length eqs.
Proof.
  induction 1 as [|e eqs He _ IH]; simpl; [done|].
  apply is_equal_true in He. rewrite He. lia.
Qed.

(** Pushing context lines only grows the buffer. *)
Lemma foldl_push_context st l :
  foldl push_context st l =
    mkHS (hunks st) (hunkLines st ++ (ctx_line <$> l)) (hunkStartA st) (hunkStartB st)
         (hunkCountA st + Z.of_nat (length l))%Z
         (hunkCountB st + Z.of_nat (length l))%Z (lastChangeIdx st).
Proof.
  revert st. induction l as [|c l IH]; intros st; simpl.
  - destruct st; simpl. rewrite app_nil_r. f_equal; lia.
  - rewrite IH. unfold push_context; simpl. rewrite <- app_assoc. simpl.
    f_equal; lia.
Qed.

(** The trailing loop takes the first [contextLines] records of the run of
    Equal records it starts on, when that run is long enough or reaches
    the end of the array. *)
Lemma trailing_loop_run rest t st :
  contextLines ≤ t + equal_run rest ∨ equal_run rest = length rest →
  trailing_loop contextLines rest t st =
    foldl push_context st (take ((contextLines - t) `min` equal_run rest) rest).
Proof.
  revert t st. induction rest as [|c rest IH]; intros t st Hrun; simpl.
  { by rewrite take_nil. }
  case_decide as Ht.
  - destruct (is_equal c) eqn:Hc.
    + rewrite IH by (simpl in Hrun; rewrite ?Hc in Hrun; lia).
      replace ((contextLines - t) `min` S (equal_run rest))
        with (S ((contextLines - S t) `min` equal_run rest)) by lia.
      done.
    + simpl in Hrun. rewrite Hc in Hrun. lia.
  - replace ((contextLines - t) `min` _) with 0 by lia. done.
Qed.

(** The leading loop takes the last [contextLines] records of the run of
    Equal records that ends just before the change. *)
Lemma leading_loop_run before cnt hl :
  leading_loop contextLines before cnt hl =
    let n := (contextLines - cnt) `min` equal_run before in
    ((ctx_line <$> reverse (take n before)) ++ hl, cnt + n).
Proof.
  revert cnt hl. induction before as [|c before IH]; intros cnt hl; simpl.
  { rewrite Nat.min_0_r. simpl. f_equal. lia. }
  case_decide as Ht.
  - destruct (is_equal c) eqn:Hc.
    + rewrite IH. simpl.
      replace ((contextLines - cnt) `min` S (equal_run before))
        with (S ((contextLines - S cnt) `min` equal_run before)) by lia.
      simpl. rewrite reverse_cons, fmap_app, <- app_assoc. simpl.
      f_equal. lia.
    + rewrite Nat.min_0_r. simpl. f_equal. lia.
  - replace ((contextLines - cnt) `min` _) with 0 by lia. simpl. f_equal. lia.
Qed.

End grouper_loops.

(** ** The hunk grouper: one iteration *)

Section grouper_step.
Context (changes : list Change) (contextLines : nat).

Lemma last_change_lt k p : last_change changes k = Some p → p < k.
Proof.
  induction k as [|k IH]; simpl; [done|].
  destruct (changes !! k) as [c|]; [destruct (is_equal c)|].
  - intros ?%IH. lia.
  - intros [= <-]. lia.
  - intros ?%IH. lia.
Qed.

Lemma last_change_lookup k p :
  last_change changes k = Some p →
  ∃ c, changes !! p = Some c ∧ type c ≠ T_equal.
Proof.
  induction k as [|k IH]; simpl; [done|].
  destruct (changes !! k) as [c|] eqn:Hk; [destruct (is_equal c) eqn:Hc|]; try done.
  intros [= <-]. exists c. split; [done|]. by apply is_equal_false.
Qed.

Lemma last_change_between k p q c :
  last_change changes k = Some p → p < q → q < k →
  changes !! q = Some c → type c = T_equal.
Proof.
  induction k as [|k IH]; simpl; [done|].
  intros Hlast Hpq Hqk Hq.
  destruct (decide (q = k)) as [->|].
  - rewrite Hq in Hlast. destruct (is_equal c) eqn:Hc; [by apply is_equal_true|].
    injection Hlast as <-. lia.
  - destruct (changes !! k) as [c'|]; [destruct (is_equal c')|].
    + apply IH; (done || lia).
    + injection Hlast as <-. lia.
    + apply IH; (done || lia).
Qed.

Lemma last_change_none k q c :
  last_change changes k = None → q < k →
  changes !! q = Some c → type c = T_equal.
Proof.
  induction k as [|k IH]; simpl; [lia|].
  intros Hlast Hqk Hq.
  destruct (decide (q = k)) as [->|].
  - rewrite Hq in Hlast. destruct (is_equal c) eqn:Hc; [by apply is_equal_true|done].
  - destruct (changes !! k) as [c'|]; [destruct (is_equal c')|]; try done.
    + apply IH; (done || lia).
    + apply IH; (done || lia).
Qed.

(** A slice whose records are all Equal. *)
Lemma slice_all_equal i j :
  j ≤ length changes →
  (∀ q c, i ≤ q → q < j → changes !! q = Some c → type c = T_equal) →
  Forall (λ c, type c = T_equal) (slice changes i j).
Proof.
  intros Hj Hall. apply Forall_lookup. intros q c Hq.
  assert (q < j - i) as Hlt.
  { apply lookup_lt_Some in Hq. rewrite length_slice in Hq; done. }
  rewrite slice_lookup in Hq by done. eapply Hall; [| |done]; lia.
Qed.

Lemma drop_slice i j :
  i ≤ j → j ≤ length changes →
  drop i changes = slice changes i j ++ drop j changes.
Proof.
  intros Hij Hj. unfold slice.
  rewrite <- (take_drop (j - i) (drop i changes)) at 1.
  rewrite drop_drop. do 2 f_equal. lia.
Qed.

Lemma push_change_lines idx c st :
  hunkLines (push_change idx c st) = hunkLines st ++ [change_line c].
Proof. unfold push_change, change_line. by case_decide. Qed.

Lemma push_change_hunks idx c st : hunks (push_change idx c st) = hunks st.
Proof. unfold push_change. by case_decide. Qed.

Lemma push_change_last idx c st :
  lastChangeIdx (push_change idx c st) = Z.of_nat idx.
Proof. unfold push_change. by case_decide. Qed.

(** The four ways through the body of the loop. *)
Lemma hunk_step_equal st idx c :
  type c = T_equal → hunk_step changes contextLines st idx c = st.
Proof. intros Hc%is_equal_true. unfold hunk_step. by rewrite Hc. Qed.

Lemma hunk_step_first idx c :
  type c ≠ T_equal →
  hunk_step changes contextLines hs_init idx c =
    push_change idx c (open_hunk changes contextLines idx c hs_init).
Proof.
  intros Hc%is_equal_false. unfold hunk_step. rewrite Hc.
  destruct (decide (far_from_last contextLines idx hs_init ∧ hunks hs_init = [] ∧
                    hunkLines hs_init = [] ∧ (lastChangeIdx hs_init < 0)%Z))
    as [_|_]; [by rewrite decide_True|].
  destruct (decide (far_from_last contextLines idx hs_init ∧ hunkLines hs_init ≠ []))
    as [[_ ?]|_]; [done|].
  by rewrite decide_True.
Qed.

Lemma hunk_step_merge st idx c :
  type c ≠ T_equal → hunkLines st ≠ [] →
  ¬ far_from_last contextLines idx st →
  hunk_step changes contextLines st idx c =
    push_change idx c (fill_gap changes idx st).
Proof.
  intros Hc%is_equal_false Hopen Hnear. unfold hunk_step. rewrite Hc.
  destruct (decide (far_from_last contextLines idx st ∧ hunks st = [] ∧
                    hunkLines st = [] ∧ (lastChangeIdx st < 0)%Z))
    as [[? _]|_]; [done|].
  destruct (decide (far_from_last contextLines idx st ∧ hunkLines st ≠ []))
    as [[? _]|_]; [done|].
  by rewrite decide_False.
Qed.

Lemma hunk_step_split st idx c :
  type c ≠ T_equal → hunkLines st ≠ [] →
  far_from_last contextLines idx st →
  hunk_step changes contextLines st idx c =
    push_change idx c
      (open_hunk changes contextLines idx c
         (reset_hunk (close_hunk changes contextLines st))).
Proof.
  intros Hc%is_equal_false Hopen Hfar. unfold hunk_step. rewrite Hc.
  destruct (decide (far_from_last contextLines idx st ∧ hunks st = [] ∧
                    hunkLines st = [] ∧ (lastChangeIdx st < 0)%Z))
    as [(_ & _ & ? & _)|_]; [done|].
  destruct (decide (far_from_last contextLines idx st ∧ hunkLines st ≠ []))
    as [_|Hno]; [|by destruct Hno].
  rewrite decide_True; [done|].
  unfold reset_hunk. done.
Qed.

(** [open_hunk] puts the last [min contextLines (run_before idx)] records
    below [idx] in front of the buffer. *)
Lemma open_hunk_lines idx c st :
  idx ≤ length changes →
  hunkLines (open_hunk changes contextLines idx c st) =
    (ctx_line <$> slice changes (idx - contextLines `min` run_before changes idx) idx)
    ++ hunkLines st.
Proof.
  intros Hidx. unfold open_hunk. rewrite leading_loop_run. simpl.
  rewrite Nat.sub_0_r. fold (run_before changes idx).
  rewrite reverse_take_reverse_take; [done| |done].
  pose proof (equal_run_le (reverse (take idx changes))) as Hle.
  rewrite length_reverse, length_take in Hle. unfold run_before. lia.
Qed.

Lemma open_hunk_hunks idx c st :
  hunks (open_hunk changes contextLines idx c st) = hunks st.
Proof. unfold open_hunk. by destruct (leading_loop _ _ _ _). Qed.

(** [fill_gap] pushes the records between the last change and [idx], all
    of them Equal. *)
Lemma fill_gap_run idx st p :
  lastChangeIdx st = Z.of_nat p → idx ≤ length changes →
  (∀ q c, p < q → q < idx → changes !! q = Some c → type c = T_equal) →
  fill_gap changes idx st = foldl push_context st (slice changes (S p) idx).
Proof.
  intros Hp Hidx Hall. unfold fill_gap. rewrite Hp.
  replace (Z.to_nat (Z.of_nat p + 1)) with (S p) by lia.
  fold (slice changes (S p) idx).
  assert (Forall (λ c, type c = T_equal) (slice changes (S p) idx)) as Heqs.
  { apply slice_all_equal; [done|]. intros q c ???. eapply Hall; [| |done]; lia. }
  generalize dependent st. induction Heqs as [|c l Hc _ IH]; intros st Hp; [done|].
  simpl. apply is_equal_true in Hc. rewrite Hc. by apply IH.
Qed.

(** [close_hunk] pushes the buffer extended by the first
    [min contextLines (run_after p)] records after the last change [p],
    when the run after [p] holds [contextLines] records or reaches the end
    of the array. *)
Lemma close_hunk_run st p :
  lastChangeIdx st = Z.of_nat p →
  contextLines ≤ run_after changes p ∨
    run_after changes p = length (drop (S p) changes) →
  ∃ h, hunks (close_hunk changes contextLines st) = hunks st ++ [h] ∧
    lines h = hunkLines st ++
      (ctx_line <$> slice changes (S p) (S p + contextLines `min` run_after changes p)) ∧
    lastChangeIdx (close_hunk changes contextLines st) = Z.of_nat p.
Proof.
  intros Hp Hrun. unfold close_hunk, from_index. rewrite Hp.
  replace (Z.to_nat (Z.of_nat p + 1)) with (S p) by lia.
  rewrite trailing_loop_run by (fold (run_after changes p); lia).
  fold (run_after changes p). rewrite foldl_push_context. simpl.
  eexists. split; [done|]. simpl. split; [|done].
  rewrite Nat.sub_0_r. unfold slice. do 3 f_equal. lia.
Qed.

End grouper_step.

(** ** The hunk grouper: the state along the loop *)

Section grouper_loop.
Context (changes : list Change) (contextLines : nat).

Lemma hunk_loop_S k c :
  changes !! k = Some c →
  hunk_loop changes contextLines (S k) =
    hunk_step changes contextLines (hunk_loop changes contextLines k) k c.
Proof. intros Hk. simpl. by rewrite Hk. Qed.

Lemma hunk_loop_skip k c :
  changes !! k = Some c → type c = T_equal →
  hunk_loop changes contextLines (S k) = hunk_loop changes contextLines k.
Proof. intros Hk Hc. rewrite (hunk_loop_S _ _ Hk). by apply hunk_step_equal. Qed.

Lemma hunk_loop_past_end k :
  length changes ≤ k →
  hunk_loop changes contextLines k =
    hunk_loop changes contextLines (length changes).
Proof.
  induction k as [|k IH]; intros Hk.
  - by replace (length changes) with 0 by lia.
  - destruct (decide (length changes = S k)) as [->|]; [done|].
    simpl. rewrite lookup_ge_None_2 by lia. apply IH. lia.
Qed.

(** [lastChangeIdx] is the index of the last change seen, and the buffer
    is non-empty from the first change on. *)
Lemma hunk_loop_last k :
  match last_change changes k with
  | None => hunk_loop changes contextLines k = hs_init
  | Some p =>
      lastChangeIdx (hunk_loop changes contextLines k) = Z.of_nat p ∧
      hunkLines (hunk_loop changes contextLines k) ≠ []
  end.
Proof.
  induction k as [|k IH]; simpl; [done|].
  destruct (changes !! k) as [c|] eqn:Hk; [|done].
  destruct (is_equal c) eqn:Hc.
  - apply is_equal_true in Hc. by rewrite hunk_step_equal.
  - unfold hunk_step. rewrite Hc. rewrite push_change_last, push_change_lines.
    split; [done|]. by intros ?%app_nil_r_inv%eq_sym%nil_cons.
Qed.

Lemma run_before_gap k p :
  last_change changes k = Some p → k ≤ length changes →
  run_before changes k = k - S p.
Proof.
  intros Hlast Hk. pose proof (last_change_lt _ _ _ Hlast) as Hpk.
  destruct (last_change_lookup _ _ _ Hlast) as (cp & Hp & Hcp).
  unfold run_before.
  assert (take k changes = take p changes ++ cp :: slice changes (S p) k) as ->.
  { rewrite <- (take_drop p (take k changes)). rewrite take_take.
    replace (p `min` k) with p by lia. f_equal.
    replace k with (p + (k - p)) at 1 by lia.
    rewrite <- take_drop_commute. fold (slice changes p k).
    rewrite <- (slice_app changes p (S p) k) by lia.
    by rewrite (slice_singleton _ _ _ Hp). }
  rewrite reverse_app, reverse_cons, <- app_assoc. simpl.
  rewrite equal_run_app_stop; [|apply Forall_reverse|done].
  - rewrite length_reverse, length_slice; lia.
  - apply slice_all_equal; [done|]. intros q c ???.
    eapply last_change_between; [done| |done..]. lia.
Qed.

Lemma run_after_gap k p c :
  last_change changes k = Some p → changes !! k = Some c → type c ≠ T_equal →
  run_after changes p = k - S p.
Proof.
  intros Hlast Hk Hc. pose proof (last_change_lt _ _ _ Hlast) as Hpk.
  pose proof (lookup_lt_Some _ _ _ Hk) as Hklen.
  unfold run_after. rewrite (drop_slice changes (S p) k) by lia.
  rewrite (drop_S _ _ _ Hk).
  rewrite equal_run_app_stop; [|apply slice_all_equal; [lia|]|done].
  - rewrite length_slice; lia.
  - intros q c' ???. eapply last_change_between; [done| |done..]. lia.
Qed.

Lemma run_after_end p :
  last_change changes (length changes) = Some p →
  run_after changes p = length (drop (S p) changes).
Proof.
  intros Hlast. unfold run_after. apply equal_run_all.
  apply Forall_lookup. intros q c Hq. rewrite lookup_drop in Hq.
  pose proof (lookup_lt_Some _ _ _ Hq).
  eapply last_change_between; [done| |done..]. lia.
Qed.

Lemma far_from_last_gap k p st :
  lastChangeIdx st = Z.of_nat p → p < k →
  far_from_last contextLines k st ↔ 2 * contextLines < k - S p.
Proof. intros Hp Hpk. unfold far_from_last. rewrite Hp. lia. Qed.

(** The first change opens the first hunk. *)
Lemma hunk_loop_first k c :
  last_change changes k = None → changes !! k = Some c → type c ≠ T_equal →
  hunks (hunk_loop changes contextLines (S k)) = [] ∧
  hunkLines (hunk_loop changes contextLines (S k)) =
    (ctx_line <$> slice changes (k - contextLines `min` run_before changes k) k)
    ++ [change_line c].
Proof.
  intros Hlast Hk Hc. pose proof (lookup_lt_Some _ _ _ Hk) as Hklen.
  rewrite (hunk_loop_S _ _ Hk).
  pose proof (hunk_loop_last k) as Hst. rewrite Hlast in Hst. rewrite Hst.
  rewrite hunk_step_first by done.
  rewrite push_change_hunks, push_change_lines, open_hunk_hunks.
  rewrite open_hunk_lines by lia. simpl. by rewrite app_nil_r.
Qed.

(** A change at most [2 * contextLines] records after the last one joins
    the open hunk, with the records in between as context. *)
Lemma hunk_loop_merge k p c :
  last_change changes k = Some p → changes !! k = Some c → type c ≠ T_equal →
  k - S p ≤ 2 * contextLines →
  hunks (hunk_loop changes contextLines (S k)) =
    hunks (hunk_loop changes contextLines k) ∧
  hunkLines (hunk_loop changes contextLines (S k)) =
    hunkLines (hunk_loop changes contextLines k)
    ++ (ctx_line <$> slice changes (S p) k) ++ [change_line c].
Proof.
  intros Hlast Hk Hc Hgap. pose proof (lookup_lt_Some _ _ _ Hk) as Hklen.
  pose proof (last_change_lt _ _ _ Hlast) as Hpk.
  rewrite (hunk_loop_S _ _ Hk).
  pose proof (hunk_loop_last k) as Hst. rewrite Hlast in Hst.
  destruct Hst as [Hp Hopen].
  rewrite hunk_step_merge; [|done..|rewrite (far_from_last_gap k p) by done; lia].
  rewrite push_change_hunks, push_change_lines.
  rewrite (fill_gap_run changes k _ p); [|done|lia|].
  - rewrite foldl_push_context. simpl. by rewrite <- app_assoc.
  - intros q c' ???. by eapply last_change_between.
Qed.

(** A change more than [2 * contextLines] records after the last one
    closes the open hunk, with [contextLines] records of trailing context,
    and opens the next one, with [contextLines] records of leading
    context. *)
Lemma hunk_loop_split k p c :
  last_change changes k = Some p → changes !! k = Some c → type c ≠ T_equal →
  2 * contextLines < k - S p →
  ∃ h,
    hunks (hunk_loop changes contextLines (S k)) =
      hunks (hunk_loop changes contextLines k) ++ [h] ∧
    lines h = hunkLines (hunk_loop changes contextLines k)
              ++ (ctx_line <$> slice changes (S p) (S p + contextLines)) ∧
    hunkLines (hunk_loop changes contextLines (S k)) =
      (ctx_line <$> slice changes (k - contextLines) k) ++ [change_line c].
Proof.
  intros Hlast Hk Hc Hgap. pose proof (lookup_lt_Some _ _ _ Hk) as Hklen.
  pose proof (last_change_lt _ _ _ Hlast) as Hpk.
  rewrite (hunk_loop_S _ _ Hk).
  pose proof (hunk_loop_last k) as Hst. rewrite Hlast in Hst.
  destruct Hst as [Hp Hopen].
  rewrite hunk_step_split; [|done..|rewrite (far_from_last_gap k p) by done; lia].
  pose proof (run_after_gap k p c Hlast Hk Hc) as Hafter.
  pose proof (run_before_gap k p Hlast ltac:(lia)) as Hbefore.
  destruct (close_hunk_run changes contextLines _ p Hp) as (h & Hh & Hlines & _); [lia|].
  exists h.
  rewrite push_change_hunks, push_change_lines, open_hunk_hunks.
  rewrite open_hunk_lines by lia. simpl. rewrite app_nil_r.
  rewrite Hbefore. rewrite Hafter in Hlines.
  replace (contextLines `min` (k - S p)) with contextLines in * by lia.
  done.
Qed.

(** After the loop: no hunk without a change; otherwise the open hunk is
    closed with the context left after the last change. *)
Lemma group_hunks_no_change :
  last_change changes (length changes) = None →
  group_hunks changes contextLines = [].
Proof.
  intros Hlast. unfold group_hunks, close_last.
  pose proof (hunk_loop_last (length changes)) as Hst. rewrite Hlast in Hst.
  by rewrite Hst.
Qed.

Lemma group_hunks_last_change p :
  last_change changes (length changes) = Some p →
  ∃ h,
    group_hunks changes contextLines =
      hunks (hunk_loop changes contextLines (length changes)) ++ [h] ∧
    lines h = hunkLines (hunk_loop changes contextLines (length changes))
              ++ (ctx_line <$> slice changes (S p)
                    (S p + contextLines `min` run_after changes p)).
Proof.
  intros Hlast. unfold group_hunks, close_last.
  pose proof (hunk_loop_last (length changes)) as Hst. rewrite Hlast in Hst.
  destruct Hst as [Hp Hopen]. rewrite decide_True by done.
  destruct (close_hunk_run changes contextLines _ p Hp) as (h & Hh & Hlines & _).
  { right. by apply run_after_end. }
  exists h. done.
Qed.

End grouper_loop.

(** ** The hunk grouper: hunks only grow *)

Section grouper_extends.
Context (changes : list Change) (contextLines : nat).

Lemma hunk_extends_refl st : hunk_extends st st.
Proof. by left. Qed.

Lemma hunk_extends_trans st1 st2 st3 :
  hunk_extends st1 st2 → hunk_extends st2 st3 → hunk_extends st1 st3.
Proof.
  intros [[H12 P12]|(h & rest & H12 & P12)] [[H23 P23]|(h' & rest' & H23 & P23)].
  - left. split; [congruence|by etrans].
  - right. exists h', rest'. split; [congruence|by etrans].
  - right. exists h, rest. split; [congruence|done].
  - right. exists h, (rest ++ h' :: rest'). split; [|done].
    rewrite H23, H12, <- app_assoc. done.
Qed.

Lemma hunk_loop_extends_S k :
  hunk_extends (hunk_loop changes contextLines k)
               (hunk_loop changes contextLines (S k)).
Proof.
  destruct (changes !! k) as [c|] eqn:Hk.
  2: { simpl. rewrite Hk. apply hunk_extends_refl. }
  destruct (decide (type c = T_equal)) as [Hc|Hc].
  { rewrite (hunk_loop_skip _ _ _ _ Hk Hc). apply hunk_extends_refl. }
  destruct (last_change changes k) as [p|] eqn:Hlast.
  - destruct (decide (k - S p ≤ 2 * contextLines)) as [Hgap|Hgap].
    + destruct (hunk_loop_merge _ contextLines _ _ _ Hlast Hk Hc Hgap) as [Hh Hl].
      left. split; [done|]. rewrite Hl. by eexists.
    + destruct (hunk_loop_split _ contextLines _ _ _ Hlast Hk Hc) as (h & Hh & Hl & _); [lia|].
      right. exists h, []. split; [done|]. rewrite Hl. by eexists.
  - destruct (hunk_loop_first _ contextLines _ _ Hlast Hk Hc) as [Hh Hl].
    pose proof (hunk_loop_last changes contextLines k) as Hst.
    rewrite Hlast in Hst. rewrite Hst. left. split; [done|]. apply prefix_nil.
Qed.

Lemma hunk_loop_extends k k' :
  k ≤ k' →
  hunk_extends (hunk_loop changes contextLines k)
               (hunk_loop changes contextLines k').
Proof.
  induction 1 as [|k' _ IH]; [apply hunk_extends_refl|].
  eapply hunk_extends_trans; [exact IH|apply hunk_loop_extends_S].
Qed.

(** A buffer that is open at some point of the loop ends up, grown at its
    end, as the hunk that follows the hunks already pushed. *)
Lemma group_hunks_extends k :
  hunkLines (hunk_loop changes contextLines k) ≠ [] →
  ∃ h rest more,
    group_hunks changes contextLines =
      hunks (hunk_loop changes contextLines k) ++ h :: rest ∧
    lines h = hunkLines (hunk_loop changes contextLines k) ++ more.
Proof.
  intros Hopen.
  assert (hunk_extends (hunk_loop changes contextLines k)
            (hunk_loop changes contextLines (length changes))) as Hext.
  { destruct (decide (k ≤ length changes)); [by apply hunk_loop_extends|].
    rewrite (hunk_loop_past_end _ _ k) by lia. apply hunk_extends_refl. }
  destruct (last_change changes (length changes)) as [p|] eqn:Hlast.
  - destruct (group_hunks_last_change _ contextLines _ Hlast) as (hf & Hg & Hlf).
    destruct Hext as [[Hh [m Hm]]|(h & rest & Hh & [m Hm])].
    + exists hf, [], (m ++ (ctx_line <$> slice changes (S p)
                       (S p + contextLines `min` run_after changes p))).
      rewrite Hg, Hh, Hlf, Hm, <- app_assoc. done.
    + exists h, (rest ++ [hf]), m. rewrite Hg, Hh, <- app_assoc. done.
  - pose proof (hunk_loop_last changes contextLines (length changes)) as Hst.
    rewrite Hlast in Hst. rewrite Hst in Hext.
    destruct Hext as [[_ Hpre]|(h & rest & Hh & _)].
    + apply prefix_nil_inv in Hpre. done.
    + simpl in Hh. by apply app_cons_not_nil in Hh.
Qed.

Lemma last_change_at k p c :
  changes !! p = Some c → type c ≠ T_equal → p < k →
  (∀ q c', p < q → q < k → changes !! q = Some c' → type c' = T_equal) →
  last_change changes k = Some p.
Proof.
  intros Hp Hc. induction k as [|k IH]; intros Hpk Hall; [lia|]. simpl.
  destruct (decide (p = k)) as [->|].
  - rewrite Hp. apply is_equal_false in Hc. by rewrite Hc.
  - assert (last_change changes k = Some p) as Hk.
    { apply IH; [lia|]. intros q c' ???. eapply Hall; [| |done]; lia. }
    destruct (changes !! k) as [c'|] eqn:Hk'; [|done].
    assert (type c' = T_equal) as Hc'%is_equal_true by (eapply Hall; [| |done]; lia).
    by rewrite Hc'.
Qed.

Lemma hunk_loop_skip_run k k' :
  k ≤ k' →
  (∀ q c, k ≤ q → q < k' → changes !! q = Some c → type c = T_equal) →
  hunk_loop changes contextLines k' = hunk_loop changes contextLines k.
Proof.
  induction 1 as [|k' Hk IH]; intros Hall; [done|].
  rewrite <- IH by (intros q c ???; eapply Hall; [| |done]; lia).
  destruct (changes !! k') as [c|] eqn:Hk'.
  - eapply hunk_loop_skip; [done|]. eapply Hall; [| |done]; lia.
  - simpl. by rewrite Hk'.
Qed.

Lemma hunk_loop_change_last k c :
  changes !! k = Some c → type c ≠ T_equal →
  ∃ before,
    hunkLines (hunk_loop changes contextLines (S k)) = before ++ [change_line c].
Proof.
  intros Hk Hc%is_equal_false. rewrite (hunk_loop_S _ _ _ _ Hk).
  unfold hunk_step. rewrite Hc. rewrite push_change_lines. by eexists.
Qed.

End grouper_extends.

(** ** Merging and splitting of hunks *)

Section grouper_merge.
Context (changes : list Change) (contextLines : nat).
Context (p k : nat) (cx cy : Change).
Hypothesis Hp : changes !! p = Some cx.
Hypothesis Hcx : type cx ≠ T_equal.
Hypothesis Hk : changes !! k = Some cy.
Hypothesis Hcy : type cy ≠ T_equal.
Hypothesis Hpk : p < k.
Hypothesis Hbetween :
  ∀ q c, p < q → q < k → changes !! q = Some c → type c = T_equal.

Lemma last_change_consecutive : last_change changes k = Some p.
Proof. by eapply last_change_at. Qed.

Lemma hunk_loop_consecutive :
  hunk_loop changes contextLines k = hunk_loop changes contextLines (S p).
Proof.
  apply hunk_loop_skip_run; [lia|]. intros q c ???. eapply Hbetween; [| |done]; lia.
Qed.

Lemma hunk_loop_open_after_change :
  hunkLines (hunk_loop changes contextLines (S k)) ≠ [].
Proof.
  destruct (hunk_loop_change_last changes contextLines k cy Hk Hcy) as [before ->].
  by intros ?%app_nil_r_inv%eq_sym%nil_cons.
Qed.

(** Consecutive changes at most [2 * contextLines] records apart share a
    hunk. *)
Lemma consecutive_changes_merged :
  k - S p ≤ 2 * contextLines →
  ∃ h rest more,
    group_hunks changes contextLines =
      hunks (hunk_loop changes contextLines (S p)) ++ h :: rest ∧
    lines h = hunkLines (hunk_loop changes contextLines (S p))
              ++ (ctx_line <$> slice changes (S p) k) ++ change_line cy :: more.
Proof.
  intros Hgap.
  destruct (hunk_loop_merge changes contextLines k p cy
              last_change_consecutive Hk Hcy Hgap) as [Hh Hl].
  destruct (group_hunks_extends changes contextLines (S k) hunk_loop_open_after_change)
    as (h & rest & more & Hg & Hlines).
  exists h, rest, more. rewrite Hg, Hlines, Hh, Hl, hunk_loop_consecutive.
  split; [done|]. by rewrite <- !app_assoc.
Qed.

(** Consecutive changes more than [2 * contextLines] records apart are in
    two successive hunks. *)
Lemma consecutive_changes_split :
  2 * contextLines < k - S p →
  ∃ h1 h2 rest more,
    group_hunks changes contextLines =
      hunks (hunk_loop changes contextLines (S p)) ++ h1 :: h2 :: rest ∧
    lines h1 = hunkLines (hunk_loop changes contextLines (S p))
               ++ (ctx_line <$> slice changes (S p) (S p + contextLines)) ∧
    lines h2 = (ctx_line <$> slice changes (k - contextLines) k)
               ++ change_line cy :: more.
Proof.
  intros Hgap.
  destruct (hunk_loop_split changes contextLines k p cy
              last_change_consecutive Hk Hcy Hgap) as (h1 & Hh & Hl1 & Hl).
  destruct (group_hunks_extends changes contextLines (S k) hunk_loop_open_after_change)
    as (h2 & rest & more & Hg & Hlines).
  exists h1, h2, rest, more. rewrite Hg, Hlines, Hh, Hl, Hl1, hunk_loop_consecutive.
  split_and!; [|done|].
  - by rewrite <- app_assoc.
  - by rewrite <- app_assoc.
Qed.

End grouper_merge.

Section two_changes.
Context (pre eqs post : list Change) (x y : Change).
Hypothesis Hx : type x ≠ T_equal.
Hypothesis Hy : type y ≠ T_equal.
Hypothesis Heqs : Forall (λ c, type c = T_equal) eqs.

Lemma two_changes_drop :
  drop (S (length pre)) (pre ++ x :: eqs ++ y :: post) = eqs ++ y :: post.
Proof.
  change (pre ++ x :: eqs ++ y :: post) with (pre ++ [x] ++ eqs ++ y :: post).
  rewrite app_assoc. apply drop_app_length'. rewrite length_app. simpl. lia.
Qed.

Lemma two_changes_lookup_x :
  (pre ++ x :: eqs ++ y :: post) !! length pre = Some x.
Proof. by apply list_lookup_middle. Qed.

Lemma two_changes_lookup_y :
  (pre ++ x :: eqs ++ y :: post) !! (S (length pre) + length eqs) = Some y.
Proof.
  rewrite <- (Nat.add_0_r (S (length pre) + length eqs)).
  rewrite <- Nat.add_assoc, <- lookup_drop, two_changes_drop.
  rewrite lookup_app_r by lia. by replace (length eqs + 0 - length eqs) with 0 by lia.
Qed.

Lemma two_changes_between q c :
  length pre < q → q < S (length pre) + length eqs →
  (pre ++ x :: eqs ++ y :: post) !! q = Some c → type c = T_equal.
Proof.
  intros Hq1 Hq2 Hq.
  replace q with (S (length pre) + (q - S (length pre))) in Hq by lia.
  rewrite <- lookup_drop, two_changes_drop, lookup_app_l in Hq by lia.
  by eapply (proj1 (Forall_lookup _ _) Heqs).
Qed.

Lemma two_changes_slice :
  slice (pre ++ x :: eqs ++ y :: post) (S (length pre))
        (S (length pre) + length eqs) = eqs.
Proof.
  unfold slice. rewrite two_changes_drop. apply take_app_length'. lia.
Qed.

Lemma two_changes_slice_head n :
  n ≤ length eqs →
  slice (pre ++ x :: eqs ++ y :: post) (S (length pre)) (S (length pre) + n)
    = take n eqs.
Proof.
  intros Hn. unfold slice. rewrite two_changes_drop.
  replace (S (length pre) + n - S (length pre)) with n by lia.
  by apply take_app_le.
Qed.

Lemma two_changes_slice_tail n :
  n ≤ length eqs →
  slice (pre ++ x :: eqs ++ y :: post) (S (length pre) + length eqs - n)
        (S (length pre) + length eqs) = drop (length eqs - n) eqs.
Proof.
  intros Hn. unfold slice.
  replace (S (length pre) + length eqs - n)
    with (S (length pre) + (length eqs - n)) by lia.
  rewrite <- drop_drop, two_changes_drop, drop_app_le by lia.
  apply take_app_length'. rewrite length_drop. lia.
Qed.

End two_changes.

Section two_changes_only.
Context (pre eqs post : list Change) (x y : Change) (contextLines : nat).
Hypothesis Hx : type x ≠ T_equal.
Hypothesis Hy : type y ≠ T_equal.
Hypothesis Hpre : Forall (λ c, type c = T_equal) pre.
Hypothesis Heqs : Forall (λ c, type c = T_equal) eqs.
Hypothesis Hpost : Forall (λ c, type c = T_equal) post.

Lemma last_change_none_intro (l : list Change) k :
  (∀ q c, q < k → l !! q = Some c → type c = T_equal) →
  last_change l k = None.
Proof.
  induction k as [|k IH]; intros Hall; [done|]. simpl.
  rewrite IH by (intros q c ??; eapply Hall; [|done]; lia).
  destruct (l !! k) as [c|] eqn:Hk; [|done].
  assert (type c = T_equal) as Hc%is_equal_true by (eapply Hall; [|done]; lia).
  by rewrite Hc.
Qed.

(** With two changes and nothing else, the gap decides between one hunk
    and two. *)
Lemma group_hunks_two_changes_count :
  length (group_hunks (pre ++ x :: eqs ++ y :: post) contextLines) =
    if decide (length eqs ≤ 2 * contextLines) then 1 else 2.
Proof.
  set (changes := pre ++ x :: eqs ++ y :: post).
  set (k := S (length pre) + length eqs).
  pose proof (two_changes_lookup_x pre eqs post x y) as Hlx.
  pose proof (two_changes_lookup_y pre eqs post x y) as Hly.
  pose proof (two_changes_between pre eqs post x y Heqs) as Hbetween.
  assert (last_change changes (length pre) = None) as Hnone.
  { apply last_change_none_intro. intros q c Hq Hqc.
    unfold changes in Hqc. rewrite lookup_app_l in Hqc by done.
    by eapply (proj1 (Forall_lookup _ _) Hpre). }
  destruct (hunk_loop_first changes contextLines _ _ Hnone Hlx Hx) as [Hh0 _].
  assert (last_change changes k = Some (length pre)) as Hlast
    by (eapply last_change_consecutive; [done..|unfold k; lia|done]).
  assert (hunk_loop changes contextLines k
          = hunk_loop changes contextLines (S (length pre))) as Hskip
    by (eapply hunk_loop_consecutive; [unfold k; lia|done]).
  assert (length changes = S k + length post) as Hlen.
  { unfold changes, k. rewrite !length_app. simpl. rewrite length_app. simpl. lia. }
  assert (∀ q c, S k ≤ q → q < length changes →
                 changes !! q = Some c → type c = T_equal) as Hafter.
  { intros q c Hq1 Hq2 Hq.
    replace q with (S (length pre) + (length eqs + S (q - S k))) in Hq by (unfold k in *; lia).
    unfold changes in Hq.
    rewrite <- lookup_drop, two_changes_drop, lookup_app_r in Hq by lia.
    replace (length eqs + S (q - S k) - length eqs) with (S (q - S k)) in Hq by lia.
    simpl in Hq. by eapply (proj1 (Forall_lookup _ _) Hpost). }
  assert (last_change changes (length changes) = Some k) as Hend.
  { eapply last_change_at; [done..|lia|].
    intros q c ???. eapply Hafter; [| |done]; lia. }
  destruct (group_hunks_last_change changes contextLines k Hend) as (hf & -> & _).
  rewrite (hunk_loop_skip_run changes contextLines (S k) (length changes)) by (lia || done).
  rewrite length_app. change (length [hf]) with 1.
  case_decide as Hgap.
  - destruct (hunk_loop_merge changes contextLines k _ y Hlast Hly Hy) as [-> _];
      [unfold k; lia|].
    rewrite Hskip, Hh0. done.
  - destruct (hunk_loop_split changes contextLines k _ y Hlast Hly Hy)
      as (h & -> & _); [unfold k; lia|].
    rewrite Hskip, Hh0. done.
Qed.

End two_changes_only.

(** C4. In a change list [pre ++ x :: eqs ++ y :: post], where [x] and [y]
    are changes and the [g = length eqs] records between them are Equal:
    the line of [x] ends the buffer open once [x] is processed, in the hunk
    that follows the hunks pushed so far; if [g <= 2 * contextLines], that
    same hunk goes on with the [g] context lines and the line of [y]
    (merged); if [g > 2 * contextLines], that hunk ends with [contextLines]
    lines of trailing context and the hunk after it starts with
    [contextLines] lines of leading context and the line of [y] (split).
    Where nothing else changes, the report has one hunk in the first case and
    two in the second: with [contextLines = 3], one hunk for a gap of 6, two
    for a gap of 7. *)
Theorem hunk_merge_threshold (pre eqs post : list Change) (x y : Change)
    (contextLines : nat) :
  type x ≠ T_equal → type y ≠ T_equal →
  Forall (λ c, type c = T_equal) eqs →
  let changes := pre ++ x :: eqs ++ y :: post in
  let st := hunk_loop changes contextLines (S (length pre)) in
  (∃ before, hunkLines st = before ++ [change_line x]) ∧
  (length eqs ≤ 2 * contextLines →
     ∃ h rest more,
       group_hunks changes contextLines = hunks st ++ h :: rest ∧
       lines h = hunkLines st ++ (ctx_line <$> eqs) ++ change_line y :: more) ∧
  (2 * contextLines < length eqs →
     ∃ h1 h2 rest more,
       group_hunks changes contextLines = hunks st ++ h1 :: h2 :: rest ∧
       lines h1 = hunkLines st ++ (ctx_line <$> take contextLines eqs) ∧
       lines h2 = (ctx_line <$> drop (length eqs - contextLines) eqs)
                  ++ change_line y :: more) ∧
  (Forall (λ c, type c = T_equal) pre → Forall (λ c, type c = T_equal) post →
     length (group_hunks changes contextLines) =
       if decide (length eqs ≤ 2 * contextLines) then 1 else 2).
Proof.
  intros Hx Hy Heqs changes st.
  pose proof (two_changes_lookup_x pre eqs post x y) as Hlx.
  pose proof (two_changes_lookup_y pre eqs post x y) as Hly.
  pose proof (two_changes_between pre eqs post x y Heqs) as Hbetween.
  split_and!.
  - by apply hunk_loop_change_last.
  - intros Hgap.
    destruct (consecutive_changes_merged changes contextLines (length pre)
                (S (length pre) + length eqs) x y Hlx Hx Hly Hy ltac:(lia) Hbetween)
      as (h & rest & more & Hg & Hl); [lia|].
    exists h, rest, more. split; [done|].
    unfold changes in Hl. by rewrite two_changes_slice in Hl.
  - intros Hgap.
    destruct (consecutive_changes_split changes contextLines (length pre)
                (S (length pre) + length eqs) x y Hlx Hx Hly Hy ltac:(lia) Hbetween)
      as (h1 & h2 & rest & more & Hg & Hl1 & Hl2); [lia|].
    exists h1, h2, rest, more. split; [done|].
    unfold changes in Hl1, Hl2.
    rewrite two_changes_slice_head in Hl1 by lia.
    rewrite two_changes_slice_tail in Hl2 by lia. done.
  - intros Hpre Hpost. by apply group_hunks_two_changes_count.
Qed.

(** ** The shape of every hunk *)

Section grouper_shape.
Context (changes : list Change) (contextLines : nat).

Lemma any_line_change c : type c ≠ T_equal → any_line c = change_line c.
Proof. intros Hc%is_equal_false. unfold any_line. by rewrite Hc. Qed.

Lemma any_line_equal (l : list Change) :
  Forall (λ c, type c = T_equal) l → ctx_line <$> l = any_line <$> l.
Proof.
  induction 1 as [|c l Hc%is_equal_true _ IH]; [done|].
  rewrite !fmap_cons, IH. f_equal. unfold any_line. by rewrite Hc.
Qed.

Lemma boundaries_ok_snoc_inv spans f p k :
  boundaries_ok changes (spans ++ [(f, p)]) k →
  ((λ sp, last_change changes sp.1) <$> spans) ++ [last_change changes f]
    = None :: ((λ sp, Some sp.2) <$> spans).
Proof.
  unfold boundaries_ok. rewrite !fmap_app. simpl.
  rewrite app_comm_cons. intros Heq. by apply app_inj_tail in Heq as [? _].
Qed.

Lemma hunk_loop_inv_holds k :
  hunk_loop_inv changes contextLines k (hunk_loop changes contextLines k).
Proof.
  induction k as [|k IH].
  { exists [], []. split_and!; [constructor|done|done]. }
  destruct (changes !! k) as [c|] eqn:Hk.
  2: { unfold hunk_loop_inv, boundaries_ok in *. simpl. by rewrite Hk. }
  destruct (decide (type c = T_equal)) as [Hc|Hc].
  { rewrite (hunk_loop_skip _ _ _ _ Hk Hc). unfold hunk_loop_inv, boundaries_ok in *.
    simpl. rewrite Hk. apply is_equal_true in Hc. by rewrite Hc. }
  pose proof (lookup_lt_Some _ _ _ Hk) as Hklen.
  assert (last_change changes (S k) = Some k) as HlastS.
  { simpl. rewrite Hk. apply is_equal_false in Hc. by rewrite Hc. }
  destruct IH as (closed & open & IHh & IHb & IHo).
  unfold hunk_loop_inv. rewrite HlastS.
  destruct (last_change changes k) as [p|] eqn:Hlast.
  - destruct IHo as (f & -> & Hfp & Hf & Hbuf).
    pose proof (last_change_lt _ _ _ Hlast) as Hpk.
    pose proof (boundaries_ok_snoc_inv _ _ _ _ IHb) as Hstarts.
    destruct (decide (k - S p ≤ 2 * contextLines)) as [Hgap|Hgap].
    + destruct (hunk_loop_merge _ contextLines _ _ _ Hlast Hk Hc Hgap) as [-> ->].
      exists closed, [(f, k)]. split_and!; [done| |].
      { unfold boundaries_ok. rewrite HlastS, !fmap_app. simpl.
        rewrite Hstarts, app_comm_cons. done. }
      exists f. split_and!; [done|lia|done|].
      rewrite Hbuf, <- !app_assoc. f_equal.
      rewrite any_line_equal.
      2: { apply slice_all_equal; [lia|]. intros q c' ???.
           apply (last_change_between changes k p q c'); (done || lia). }
      rewrite <- (slice_app changes f (S p) (S k)) by lia.
      rewrite <- (slice_app changes (S p) k (S k)) by lia.
      rewrite (slice_singleton _ _ _ Hk), !fmap_app. simpl.
      by rewrite any_line_change.
    + destruct (hunk_loop_split _ contextLines _ _ _ Hlast Hk Hc)
        as (h & -> & Hh & ->); [lia|].
      pose proof (run_after_gap _ _ _ _ Hlast Hk Hc) as Hafter.
      pose proof (run_before_gap changes k p Hlast ltac:(lia)) as Hbefore.
      exists (closed ++ [(f, p)]), [(k, k)]. split_and!.
      * apply Forall2_app; [done|]. constructor; [|constructor].
        unfold hunk_spans. simpl. split_and!; [done|lia|done| |].
        { by eapply last_change_lookup. }
        rewrite Hh, Hbuf, Hafter, <- app_assoc.
        by replace (contextLines `min` (k - S p)) with contextLines by lia.
      * unfold boundaries_ok in *. rewrite HlastS. rewrite Hlast in IHb.
        rewrite !fmap_app in *. simpl in IHb |- *. by rewrite Hlast, IHb.
      * exists k. split_and!; [done|done|by exists c|].
        rewrite Hbefore.
        replace (contextLines `min` (k - S p)) with contextLines by lia.
        rewrite (slice_singleton _ _ _ Hk). simpl. by rewrite any_line_change.
  - subst open. rewrite app_nil_r in IHb.
    destruct (hunk_loop_first _ contextLines _ _ Hlast Hk Hc) as [Hh ->].
    pose proof (hunk_loop_last changes contextLines k) as Hst.
    rewrite Hlast in Hst. rewrite Hst in IHh. simpl in IHh.
    apply Forall2_nil_inv_r in IHh as ->.
    exists [], [(k, k)]. rewrite Hh. split_and!; [constructor| |].
    { unfold boundaries_ok. rewrite HlastS. simpl. by rewrite Hlast. }
    exists k. split_and!; [done|done|by exists c|].
    rewrite (slice_singleton _ _ _ Hk). simpl. by rewrite any_line_change.
Qed.

(** The hunks of the result span, in order, ranges that hold all the
    changes. *)
Lemma group_hunks_spans :
  ∃ spans,
    boundaries_ok changes spans (length changes) ∧
    Forall2 (λ sp h, hunk_spans changes contextLines sp.1 sp.2 h)
            spans (group_hunks changes contextLines).
Proof.
  destruct (hunk_loop_inv_holds (length changes)) as (closed & open & Hh & Hb & Ho).
  destruct (last_change changes (length changes)) as [p|] eqn:Hlast.
  - destruct (group_hunks_last_change _ contextLines _ Hlast) as (hf & -> & Hlf).
    destruct Ho as (f & -> & Hfp & Hf & Hbuf).
    exists (closed ++ [(f, p)]). split; [done|].
    apply Forall2_app; [done|]. constructor; [|constructor].
    unfold hunk_spans. simpl.
    split_and!; [done|by eapply last_change_lt|done|by eapply last_change_lookup|].
    by rewrite Hlf, Hbuf, <- app_assoc.
  - subst open. rewrite app_nil_r in Hb.
    rewrite group_hunks_no_change by done.
    pose proof (hunk_loop_last changes contextLines (length changes)) as Hst.
    rewrite Hlast in Hst. rewrite Hst in Hh. simpl in Hh.
    apply Forall2_nil_inv_r in Hh as ->.
    exists []. split; [done|constructor].
Qed.

Lemma is_context_change_line c : is_context_line (change_line c) = false.
Proof. unfold change_line. by case_decide. Qed.

Lemma leading_context_ctx (l : list Change) s rest :
  is_context_line s = false →
  leading_context ((ctx_line <$> l) ++ s :: rest) = length l.
Proof.
  intros Hs. induction l as [|c l IH]; simpl; [by rewrite Hs|].
  f_equal. exact IH.
Qed.

Lemma run_before_le f : run_before changes f ≤ f.
Proof.
  unfold run_before. pose proof (equal_run_le (reverse (take f changes))) as H.
  rewrite length_reverse, length_take in H. lia.
Qed.

Lemma run_after_le l : S l + run_after changes l ≤ length changes ∨ length changes ≤ l.
Proof.
  unfold run_after. pose proof (equal_run_le (drop (S l) changes)) as H.
  rewrite length_drop in H. lia.
Qed.

(** The context lines at both ends of a hunk that spans [f .. l]. *)
Lemma hunk_spans_context f l h :
  hunk_spans changes contextLines f l h →
  leading_context (lines h) = contextLines `min` run_before changes f ∧
  trailing_context (lines h) = contextLines `min` run_after changes l.
Proof.
  intros (Hfl & Hl & (cf & Hf & Hcf) & (cl & Hcl & Hccl) & Hlines).
  pose proof (run_before_le f). pose proof (run_after_le l).
  rewrite Hlines. split.
  - rewrite <- (slice_app changes f (S f) (S l)) by lia.
    rewrite (slice_singleton _ _ _ Hf). simpl.
    rewrite leading_context_ctx by (rewrite any_line_change by done;
                                     apply is_context_change_line).
    rewrite length_slice; lia.
  - unfold trailing_context.
    rewrite <- (slice_app changes f l (S l)) by lia.
    rewrite (slice_singleton _ _ _ Hcl).
    rewrite fmap_app, !reverse_app.
    rewrite <- (fmap_reverse ctx_line (slice changes (S l) _)).
    change (reverse (any_line <$> [cl])) with [any_line cl].
    rewrite <- !app_assoc. simpl.
    rewrite leading_context_ctx by (rewrite any_line_change by done;
                                     apply is_context_change_line).
    rewrite length_reverse, length_slice; lia.
Qed.

End grouper_shape.

(** C5. The hunks of the result span, in order, ranges [f .. l] of the
    change list that hold all the changes, [f] the first change of the hunk
    and [l] its last.  The number of context lines at the head of each hunk
    is [min contextLines (run_before f)], where [run_before f] counts the
    Equal records immediately before [f]; the number of context lines at its
    tail is [min contextLines (run_after l)], where [run_after l] counts the
    Equal records immediately after [l]. *)
Theorem hunk_context_bounded (changes : list Change) (contextLines : nat) :
  ∃ spans : list (nat * nat),
    boundaries_ok changes spans (length changes) ∧
    Forall2 (λ sp h,
               hunk_spans changes contextLines sp.1 sp.2 h ∧
               leading_context (lines h)
                 = contextLines `min` run_before changes sp.1 ∧
               trailing_context (lines h)
                 = contextLines `min` run_after changes sp.2)
            spans (group_hunks changes contextLines).
Proof.
  destruct (group_hunks_spans changes contextLines) as (spans & Hb & Hspans).
  exists spans. split; [done|].
  eapply Forall2_impl; [exact Hspans|].
  intros [f l] h Hspan. split; [done|]. by apply hunk_spans_context.
Qed.

(** ** The empty report *)

Section empty_report.

Lemma render_empty_iff hs fileA fileB :
  render hs fileA fileB = EmptyString ↔ hs = [].
Proof.
  unfold render. split.
  - case_decide as Hhs; [done|]. intros Hout. exfalso.
    destruct hs as [|h hs]; [done|]. simpl in Hout. discriminate Hout.
  - intros ->. done.
Qed.

Lemma last_change_none_iff (changes : list Change) :
  last_change changes (length changes) = None ↔
  Forall (λ c, type c = T_equal) changes.
Proof.
  split.
  - intros Hnone. apply Forall_lookup. intros q c Hq.
    eapply last_change_none; [done| |done]. by eapply lookup_lt_Some.
  - intros Hall. apply last_change_none_intro. intros q c _ Hq.
    by eapply (proj1 (Forall_lookup _ _) Hall).
Qed.

(** No hunk exactly when no record is a change. *)
Lemma group_hunks_nil_iff (changes : list Change) contextLines :
  group_hunks changes contextLines = [] ↔
  Forall (λ c, type c = T_equal) changes.
Proof.
  rewrite <- last_change_none_iff. split.
  - intros Hnil. destruct (last_change changes (length changes)) as [p|] eqn:Hlast; [|done].
    destruct (group_hunks_last_change _ contextLines _ Hlast) as (h & Hg & _).
    rewrite Hg in Hnil. by apply app_nil in Hnil as [_ ?].
  - apply group_hunks_no_change.
Qed.

Lemma all_equal_replay (l : list Change) :
  Forall (λ c, type c = T_equal) l → replay_A l = replay_B l.
Proof.
  induction 1 as [|c l Hc _ IH]; [done|].
  rewrite replay_A_cons, replay_B_cons, IH.
  rewrite !decide_False by (rewrite Hc; done). done.
Qed.

Lemma no_change_all_equal (l : list Change) :
  count_type T_insert l = 0 → count_type T_delete l = 0 →
  Forall (λ c, type c = T_equal) l.
Proof.
  induction l as [|c l IH]; [constructor|].
  rewrite !count_type_cons. intros Hi Hd.
  destruct (type c) eqn:Hc; simpl in *; try done.
  constructor; [done|]. by apply IH.
Qed.

Lemma lcs_len_diag (a : list string) i :
  i ≤ length a → lcs_len a a i i = i.
Proof.
  induction i as [|i IH]; intros Hi; [done|].
  rewrite lcs_len_S, decide_True by done. rewrite IH; lia.
Qed.

End empty_report.

(** C3. [computeUnifiedDiff] returns the empty string exactly when the two
    sequences are identical; in particular the diff of a sequence with itself
    is empty, whatever the context width and the labels. *)
Theorem diff_empty_iff_identical (linesA linesB : list string)
    (contextLines : nat) (fileA fileB : string) :
  (computeUnifiedDiff linesA linesB contextLines fileA fileB = Some EmptyString
   ↔ linesA = linesB) ∧
  computeUnifiedDiff linesA linesA contextLines fileA fileB = Some EmptyString.
Proof.
  assert (∀ a, computeUnifiedDiff a a contextLines fileA fileB = Some EmptyString)
    as Hsame.
  { intros a. unfold computeUnifiedDiff, computeUnifiedDiff_fuel.
    destruct (backtrack_fuel_spec a a (length a + length a) ltac:(done))
      as (changes & -> & HA & HB & HE). simpl. f_equal.
    apply render_empty_iff, group_hunks_nil_iff.
    rewrite lcs_len_diag in HE by done.
    pose proof (alignment_counts a a changes (conj HA HB)).
    apply no_change_all_equal; lia. }
  split; [|apply Hsame]. split; [|intros ->; apply Hsame].
  unfold computeUnifiedDiff, computeUnifiedDiff_fuel.
  destruct (backtrack_fuel_spec linesA linesB (length linesA + length linesB)
              ltac:(done)) as (changes & -> & HA & HB & _). simpl.
  intros [= Hout]. apply render_empty_iff, group_hunks_nil_iff in Hout.
  rewrite <- HA, <- HB. by apply all_equal_replay.
Qed.

(** ** The alignment *)

Lemma bt_reads_in_range (a b : list string) (s : BtState) :
  bt_inv a b s →
  (0 < bt_i s → is_Some (a !! (bt_i s - 1))) ∧
  (0 < bt_j s → is_Some (b !! (bt_j s - 1))).
Proof.
  intros (Hi & Hj & _). split; intros ?; apply lookup_lt_is_Some_2; lia.
Qed.

Lemma bt_loop_fuel_mono dp (a b : list string) fuel fuel' s s' :
  fuel ≤ fuel' →
  bt_loop fuel dp a b s = Some s' → bt_loop fuel' dp a b s = Some s'.
Proof.
  revert fuel' s. induction fuel as [|fuel IH]; intros fuel' s Hle; simpl.
  - destruct (bt_cond s) eqn:Hc; [done|]. intros [= <-].
    destruct fuel'; simpl; by rewrite Hc.
  - destruct (bt_cond s) eqn:Hc.
    + destruct fuel' as [|fuel']; [lia|]. simpl. rewrite Hc. apply IH. lia.
    + intros [= <-]. destruct fuel'; simpl; by rewrite Hc.
Qed.

Lemma backtrack_fuel_mono (a b : list string) fuel changes :
  length a + length b ≤ fuel →
  backtrack a b = Some changes → backtrack_fuel fuel a b = Some changes.
Proof.
  intros Hfuel. unfold backtrack, backtrack_fuel.
  destruct (bt_loop (length a + length b) _ _ _ _) as [s'|] eqn:Hloop; [|done].
  rewrite (bt_loop_fuel_mono _ _ _ _ _ _ _ Hfuel Hloop). done.
Qed.

(** C1. The change list left by the backtracking phase replays to both
    inputs: the texts of its Equal and Delete records, in order, are
    [linesA], and the texts of its Equal and Insert records, in order, are
    [linesB]. *)
Theorem backtrack_reconstructs (linesA linesB : list string) :
  ∃ changes, backtrack linesA linesB = Some changes ∧
    replay_A changes = linesA ∧ replay_B changes = linesB.
Proof.
  destruct (backtrack_fuel_spec linesA linesB (length linesA + length linesB)
              ltac:(done)) as (changes & Hbt & HA & HB & _).
  by exists changes.
Qed.

(** C2. The Insert and Delete records of the backtracked change list number
    [length linesA + length linesB - 2 * dp[length linesA][length linesB]],
    for [dp] the table of [computeLCS], and no alignment of the two inputs
    has fewer of them. *)
Theorem backtrack_minimal (linesA linesB : list string) :
  ∃ changes, backtrack linesA linesB = Some changes ∧
    count_type T_insert changes + count_type T_delete changes =
      length linesA + length linesB
      - 2 * dp_get (computeLCS linesA linesB) (length linesA) (length linesB) ∧
    2 * dp_get (computeLCS linesA linesB) (length linesA) (length linesB)
      ≤ length linesA + length linesB ∧
    ∀ l, alignment linesA linesB l →
      count_type T_insert changes + count_type T_delete changes
        ≤ count_type T_insert l + count_type T_delete l.
Proof.
  destruct (backtrack_fuel_spec linesA linesB (length linesA + length linesB)
              ltac:(done)) as (changes & Hbt & HA & HB & HE).
  exists changes. rewrite computeLCS_cell by done.
  pose proof (alignment_counts linesA linesB changes (conj HA HB)) as Hcount.
  split_and!; [done|lia|lia|].
  intros l Hl.
  pose proof (alignment_counts linesA linesB l Hl).
  pose proof (alignment_equal_bound linesA linesB l Hl). lia.
Qed.

(** ** Every change appears once in the report *)

Section changed_lines.
Context (changes : list Change) (contextLines : nat).
Context (P : string → bool).
Hypothesis P_ctx : ∀ c, P (ctx_line c) = false.

Lemma filter_ctx_lines (l : list Change) :
  filter (λ s, P s = true) (ctx_line <$> l) = [].
Proof.
  induction l as [|c l IH]; [done|].
  rewrite fmap_cons, filter_cons_False by (by rewrite P_ctx). done.
Qed.

Lemma body_lines_snoc hs h : body_lines (hs ++ [h]) = body_lines hs ++ lines h.
Proof.
  unfold body_lines. rewrite fmap_app, concat_app. simpl. by rewrite app_nil_r.
Qed.

Lemma filter_nonequal_snoc (l : list Change) c :
  filter (λ c, type c ≠ T_equal) (l ++ [c]) =
    filter (λ c, type c ≠ T_equal) l ++ (if is_equal c then [] else [c]).
Proof.
  rewrite filter_app. f_equal. destruct (is_equal c) eqn:Hc.
  - apply is_equal_true in Hc. by rewrite filter_cons_False by (by intros ?).
  - apply is_equal_false in Hc. by rewrite filter_cons_True.
Qed.

(** Along the loop, the lines selected by [P] in the hunks pushed and in
    the buffer are those of the changes seen so far, in order. *)
Lemma hunk_loop_lines k :
  filter (λ s, P s = true)
    (body_lines (hunks (hunk_loop changes contextLines k))
     ++ hunkLines (hunk_loop changes contextLines k)) =
  filter (λ s, P s = true)
    (change_line <$> filter (λ c, type c ≠ T_equal) (take k changes)).
Proof.
  induction k as [|k IH]; [done|].
  destruct (changes !! k) as [c|] eqn:Hk.
  2: { simpl hunk_loop. rewrite Hk.
       apply lookup_ge_None_1 in Hk.
       rewrite (take_ge changes (S k)) by lia.
       by rewrite (take_ge changes k) in IH by lia. }
  assert (filter (λ s, P s = true)
            (change_line <$> filter (λ c, type c ≠ T_equal) (take (S k) changes)) =
          filter (λ s, P s = true)
            (body_lines (hunks (hunk_loop changes contextLines k))
             ++ hunkLines (hunk_loop changes contextLines k))
          ++ filter (λ s, P s = true)
               (change_line <$> (if is_equal c then [] else [c]))) as ->.
  { by rewrite (take_S_r _ _ _ Hk), filter_nonequal_snoc, fmap_app, filter_app, <- IH. }
  destruct (decide (type c = T_equal)) as [Hc|Hc].
  { rewrite (hunk_loop_skip _ _ _ _ Hk Hc).
    apply is_equal_true in Hc. rewrite Hc. simpl. by rewrite app_nil_r. }
  pose proof Hc as Hc'%is_equal_false. rewrite Hc'.
  destruct (last_change changes k) as [p|] eqn:Hlast.
  - destruct (decide (k - S p ≤ 2 * contextLines)) as [Hgap|Hgap].
    + destruct (hunk_loop_merge _ contextLines _ _ _ Hlast Hk Hc Hgap) as [-> ->].
      rewrite !filter_app, filter_ctx_lines, <- !app_assoc. done.
    + destruct (hunk_loop_split _ contextLines _ _ _ Hlast Hk Hc)
        as (h & -> & Hh & ->); [lia|].
      rewrite body_lines_snoc, Hh.
      rewrite !filter_app, !filter_ctx_lines, !app_nil_r, <- !app_assoc. done.
  - destruct (hunk_loop_first _ contextLines _ _ Hlast Hk Hc) as [-> ->].
    pose proof (hunk_loop_last changes contextLines k) as Hst.
    rewrite Hlast in Hst. rewrite Hst.
    rewrite !filter_app, filter_ctx_lines. done.
Qed.

Lemma group_hunks_lines :
  filter (λ s, P s = true) (body_lines (group_hunks changes contextLines)) =
  filter (λ s, P s = true)
    (change_line <$> filter (λ c, type c ≠ T_equal) changes).
Proof.
  pose proof (hunk_loop_lines (length changes)) as Hloop.
  rewrite take_ge in Hloop by done. rewrite <- Hloop.
  destruct (last_change changes (length changes)) as [p|] eqn:Hlast.
  - destruct (group_hunks_last_change _ contextLines _ Hlast) as (h & -> & Hh).
    rewrite body_lines_snoc, Hh, !filter_app, filter_ctx_lines, app_nil_r. done.
  - rewrite group_hunks_no_change by done.
    pose proof (hunk_loop_last changes contextLines (length changes)) as Hst.
    rewrite Hlast in Hst. by rewrite Hst.
Qed.

End changed_lines.

Lemma count_lines_insert (changes : list Change) contextLines :
  count_lines "+" (group_hunks changes contextLines) = count_type T_insert changes.
Proof.
  unfold count_lines. rewrite group_hunks_lines by done.
  induction changes as [|c l IH]; [done|].
  rewrite count_type_cons. destruct (type c) eqn:Hc.
  - rewrite filter_cons_False by (rewrite Hc; by intros ?).
    rewrite decide_False by done. exact IH.
  - rewrite filter_cons_True by (by rewrite Hc). rewrite fmap_cons.
    unfold change_line at 1. rewrite decide_True by done.
    rewrite filter_cons_False by done. rewrite decide_False by done. exact IH.
  - rewrite filter_cons_True by (by rewrite Hc). rewrite fmap_cons.
    unfold change_line at 1. rewrite decide_False by (by rewrite Hc).
    rewrite filter_cons_True by done. rewrite decide_True by done.
    simpl. f_equal. exact IH.
Qed.

Lemma count_lines_delete (changes : list Change) contextLines :
  count_lines "-" (group_hunks changes contextLines) = count_type T_delete changes.
Proof.
  unfold count_lines. rewrite group_hunks_lines by done.
  induction changes as [|c l IH]; [done|].
  rewrite count_type_cons. destruct (type c) eqn:Hc.
  - rewrite filter_cons_False by (rewrite Hc; by intros ?).
    rewrite decide_False by done. exact IH.
  - rewrite filter_cons_True by (by rewrite Hc). rewrite fmap_cons.
    unfold change_line at 1. rewrite decide_True by done.
    rewrite filter_cons_True by done. rewrite decide_True by done.
    simpl. f_equal. exact IH.
  - rewrite filter_cons_True by (by rewrite Hc). rewrite fmap_cons.
    unfold change_line at 1. rewrite decide_False by (by rewrite Hc).
    rewrite filter_cons_False by done. rewrite decide_False by done. exact IH.
Qed.

(** The changed lines of the report are the lines of the non-Equal records,
    one each and in order. *)
Lemma group_hunks_changed_lines (changes : list Change) contextLines :
  changed_lines (group_hunks changes contextLines) =
    change_line <$> filter (λ c, type c ≠ T_equal) changes.
Proof.
  unfold changed_lines. rewrite group_hunks_lines by done.
  induction (filter (λ c, type c ≠ T_equal) changes) as [|c l IH]; [done|].
  rewrite fmap_cons, filter_cons_True, IH; [done|].
  unfold change_line. by case_decide.
Qed.

(** ** The report of a pure insertion *)

(** C7 fails as stated: the hunk of the insertion of ["new"] in an empty
    sequence has no header [@@ -0,0 +1,1 @@]. *)
Lemma pure_insertion_header_counterexample :
  ¬ ∃ changes h,
      backtrack [] ["new"] = Some changes ∧
      group_hunks changes 3 = [h] ∧
      lines h = ["+new"] ∧
      hunk_header h = "@@ -0,0 +1,1 @@".
Proof.
  intros (changes & h & Hbt & Hg & _ & Hhead).
  vm_compute in Hbt. injection Hbt as <-.
  vm_compute in Hg. injection Hg as <-.
  vm_compute in Hhead. discriminate Hhead.
Qed.

(** C7 (amended). For [linesA] empty and [linesB = ["new"]], with three lines
    of context, there is exactly one hunk; its body is the single line
    [+new], its header is [@@ -1,0 +1,1 @@] (the start of the empty A-side
    range is rendered as [startA + 1] like any other), and the report is
    the two label lines followed by that hunk. *)
Theorem pure_insertion_hunk (fileA fileB : string) :
  ∃ changes h,
    backtrack [] ["new"] = Some changes ∧
    group_hunks changes 3 = [h] ∧
    lines h = ["+new"] ∧
    hunk_header h = "@@ -1,0 +1,1 @@" ∧
    computeUnifiedDiff [] ["new"] 3 fileA fileB =
      Some (String.concat newline
              ["--- " +:+ fileA; "+++ " +:+ fileB; "@@ -1,0 +1,1 @@"; "+new"]).
Proof.
  exists [mkChange T_insert None (Some 0) "new"],
         (mkHunk 0 0 0 1 ["+new"]).
  split_and!; reflexivity.
Qed.

(** ** Swapping the inputs *)

(** C8 fails as stated: for [x; y] against [y; x] the first report deletes
    and inserts [x] around [y], the second deletes and inserts [y] around
    [x]; no line of one is a line of the other with the prefix swapped. *)
Lemma roles_swapped_counterexample :
  computeUnifiedDiff ["x"; "y"] ["y"; "x"] 3 "a" "b" =
    Some (String.concat newline
            ["--- a"; "+++ b"; "@@ -1,2 +1,2 @@"; "-x"; " y"; "+x"]) ∧
  computeUnifiedDiff ["y"; "x"] ["x"; "y"] 3 "b" "a" =
    Some (String.concat newline
            ["--- b"; "+++ a"; "@@ -1,2 +1,2 @@"; "-y"; " x"; "+y"]) ∧
  ¬ roles_swapped ["x"; "y"] ["y"; "x"] 3.
Proof.
  split_and!; [reflexivity..|].
  intros (chAB & chBA & HAB & HBA & Hperm).
  vm_compute in HAB. injection HAB as <-.
  vm_compute in HBA. injection HBA as <-.
  vm_compute in Hperm.
  assert ("-y" ∈ ["+x"; "-x"]) as Hin by (rewrite <- Hperm; by left).
  apply elem_of_cons in Hin as [Hin|Hin]; [discriminate Hin|].
  apply elem_of_cons in Hin as [Hin|Hin]; [discriminate Hin|].
  by apply elem_of_nil in Hin.
Qed.

(** C8 (amended). The report of the swapped inputs has as many [+] lines as
    the report of the inputs has [-] lines, and as many [-] lines as it has
    [+] lines; the lines themselves can differ. *)
Theorem diff_swap_counts (linesA linesB : list string) (contextLines : nat) :
  ∃ chAB chBA,
    backtrack linesA linesB = Some chAB ∧ backtrack linesB linesA = Some chBA ∧
    count_lines "+" (group_hunks chBA contextLines)
      = count_lines "-" (group_hunks chAB contextLines) ∧
    count_lines "-" (group_hunks chBA contextLines)
      = count_lines "+" (group_hunks chAB contextLines).
Proof.
  destruct (backtrack_fuel_spec linesA linesB (length linesA + length linesB)
              ltac:(done)) as (chAB & HbtAB & HA & HB & HE).
  destruct (backtrack_fuel_spec linesB linesA (length linesB + length linesA)
              ltac:(done)) as (chBA & HbtBA & HA' & HB' & HE').
  exists chAB, chBA. rewrite !count_lines_insert, !count_lines_delete.
  pose proof (length_replay_A chAB) as H1. pose proof (length_replay_B chAB) as H2.
  pose proof (length_replay_A chBA) as H3. pose proof (length_replay_B chBA) as H4.
  rewrite HA in H1. rewrite HB in H2. rewrite HA' in H3. rewrite HB' in H4.
  rewrite (lcs_len_swap linesB linesA (S (length linesB + length linesA))) in HE' by lia.
  split_and!; [done..|lia|lia].
Qed.

(** ** Validation of [context_lines] *)

Lemma is_integer_inject_Z (z : Z) : is_integer (inject_Z z) = true.
Proof. unfold is_integer. simpl. rewrite Z.mod_1_r. done. Qed.

(** C10. A request whose [context_lines] is a number below 0, above 20 or not
    an integer is rejected by the validation and the handler is not run; so
    is one whose [context_lines] is NaN, an infinity or not a number; an
    absent [context_lines] runs the handler with 3, and an integer from 0 to
    20 runs it with that integer. *)
Theorem context_lines_validated {Result : Type} (handler : JsNumber → Result)
    (q : Q) :
  (q < 0 ∨ 20 < q ∨ is_integer q = false)%Q →
  cc_diff_files_call handler (V_number (Finite q)) = None ∧
  cc_diff_files_call handler (V_number NaN) = None ∧
  (∀ negative, cc_diff_files_call handler (V_number (Infinity negative)) = None) ∧
  cc_diff_files_call handler V_other = None ∧
  cc_diff_files_call handler V_undefined = Some (handler (Finite 3)) ∧
  (∀ n : nat, n ≤ 20 →
     cc_diff_files_call handler (V_number (Finite (inject_Z (Z.of_nat n))))
       = Some (handler (Finite (inject_Z (Z.of_nat n))))).
Proof.
  intros Hq. split_and!; try reflexivity.
  - unfold cc_diff_files_call, parse_default, parse_number. simpl.
    destruct Hq as [Hq|[Hq|Hq]].
    + destruct (is_integer q); simpl; [|done].
      destruct (Qle_bool 0 q) eqn:Hle; simpl; [|done].
      apply Qle_bool_iff in Hle. by apply Qlt_not_le in Hq.
    + destruct (is_integer q); simpl; [|done].
      destruct (Qle_bool 0 q); simpl; [|done].
      destruct (Qle_bool q 20) eqn:Hle; simpl; [|done].
      apply Qle_bool_iff in Hle. by apply Qlt_not_le in Hq.
    + by rewrite Hq.
  - intros n Hn. unfold cc_diff_files_call, parse_default, parse_number. simpl.
    rewrite is_integer_inject_Z. simpl.
    assert (Qle_bool 0 (inject_Z (Z.of_nat n)) = true) as ->.
    { apply Qle_bool_iff. unfold Qle. simpl. lia. }
    assert (Qle_bool (inject_Z (Z.of_nat n)) 20 = true) as ->.
    { apply Qle_bool_iff. unfold Qle. simpl. lia. }
    done.
Qed.

(** ** The statements at sample inputs *)

(** Two edits six unchanged lines apart, with three lines of context: one
    hunk. *)
Example merge_gap_6 :
  computeUnifiedDiff ("a" :: six_lines ++ ["b"]) ("A" :: six_lines ++ ["B"]) 3 "f" "g" =
    Some (String.concat newline
            ["--- f"; "+++ g"; "@@ -1,8 +1,8 @@";
             "-a"; "+A"; " 1"; " 2"; " 3"; " 4"; " 5"; " 6"; "-b"; "+B"]).
Proof. reflexivity. Qed.

(** Seven unchanged lines apart: two hunks, each with three lines of
    context on the side of the gap. *)
Example split_gap_7 :
  computeUnifiedDiff ("a" :: seven_lines ++ ["b"]) ("A" :: seven_lines ++ ["B"]) 3 "f" "g" =
    Some (String.concat newline
            ["--- f"; "+++ g";
             "@@ -1,4 +1,4 @@"; "-a"; "+A"; " 1"; " 2"; " 3";
             "@@ -6,4 +6,4 @@"; " 5"; " 6"; " 7"; "-b"; "+B"]).
Proof. reflexivity. Qed.

Lemma backtrack_minimal_witness :
  alignment lines_xy lines_yx
    [mkChange T_delete None None "x"; mkChange T_delete None None "y";
     mkChange T_insert None None "y"; mkChange T_insert None None "x"] ∧
  ∃ changes, backtrack lines_xy lines_yx = Some changes ∧
    count_type T_insert changes + count_type T_delete changes ≤ 4.
Proof.
  assert (alignment lines_xy lines_yx
            [mkChange T_delete None None "x"; mkChange T_delete None None "y";
             mkChange T_insert None None "y"; mkChange T_insert None None "x"])
    as Hal by (split; reflexivity).
  split; [exact Hal|].
  destruct (backtrack_minimal lines_xy lines_yx) as (changes & Hbt & _ & _ & Hmin).
  exists changes. split; [exact Hbt|]. exact (Hmin _ Hal).
Defined.

Lemma diff_empty_iff_identical_witness :
  lines_xy = lines_xy ∧
  computeUnifiedDiff lines_xy lines_xy 3 "f" "g" = Some EmptyString.
Proof.
  split; [reflexivity|].
  apply (proj2 (proj1 (diff_empty_iff_identical lines_xy lines_xy 3 "f" "g"))).
  reflexivity.
Defined.

Lemma hunk_merge_threshold_witness :
  type sample_delete ≠ T_equal ∧ type (sample_insert 6) ≠ T_equal ∧
  Forall (λ c, type c = T_equal) (sample_equals 6) ∧
  length (group_hunks ([] ++ sample_delete :: sample_equals 6
                          ++ sample_insert 6 :: []) 3) = 1.
Proof.
  assert (type sample_delete ≠ T_equal) as Hx by (simpl; discriminate).
  assert (type (sample_insert 6) ≠ T_equal) as Hy by (simpl; discriminate).
  assert (Forall (λ c, type c = T_equal) (sample_equals 6)) as Heqs
    by (repeat constructor).
  split_and!; [exact Hx|exact Hy|exact Heqs|].
  destruct (hunk_merge_threshold [] (sample_equals 6) [] sample_delete
              (sample_insert 6) 3 Hx Hy Heqs) as (_ & _ & _ & Hcount).
  apply Hcount; constructor.
Defined.

Lemma context_lines_validated_witness :
  (21 < 0 ∨ 20 < 21 ∨ is_integer 21 = false)%Q ∧
  cc_diff_files_call (λ x, x) (V_number (Finite 21)) = None.
Proof.
  assert (21 < 0 ∨ 20 < 21 ∨ is_integer 21 = false)%Q as Hq
    by (right; left; reflexivity).
  split; [exact Hq|].
  exact (proj1 (context_lines_validated (λ x, x) 21 Hq)).
Defined.

(** * Further properties *)

(** ** The table is the table of longest common subsequences *)

Section lcs_subsequence.
Context (a b : list string).

Lemma lcs_len_ext (a' b' : list string) n : ∀ i j, i + j < n →
  (∀ k, k < i → a !! k = a' !! k) → (∀ k, k < j → b !! k = b' !! k) →
  lcs_len a b i j = lcs_len a' b' i j.
Proof.
  induction n as [|n IH]; intros i j Hn Ha Hb; [lia|].
  destruct i as [|i]; [done|]. destruct j as [|j]; [by rewrite !lcs_len_0_r|].
  rewrite !lcs_len_S, <- (Ha i), <- (Hb j) by lia.
  rewrite (IH i j), (IH i (S j)), (IH (S i) j); [done|lia|..];
    try (intros k ?; apply Ha; lia); try (intros k ?; apply Hb; lia); lia.
Qed.

Lemma replay_A_app l1 l2 : replay_A (l1 ++ l2) = replay_A l1 ++ replay_A l2.
Proof. unfold replay_A. by rewrite filter_app, fmap_app. Qed.

Lemma replay_B_app l1 l2 : replay_B (l1 ++ l2) = replay_B l1 ++ replay_B l2.
Proof. unfold replay_B. by rewrite filter_app, fmap_app. Qed.

Lemma count_type_app t l1 l2 :
  count_type t (l1 ++ l2) = count_type t l1 + count_type t l2.
Proof. unfold count_type. by rewrite filter_app, length_app. Qed.

Lemma length_equal_texts l : length (equal_texts l) = count_type T_equal l.
Proof. unfold equal_texts, count_type. by rewrite length_fmap. Qed.

Lemma equal_texts_sublist_A l : equal_texts l `sublist_of` replay_A l.
Proof.
  induction l as [|c l IH]; [constructor|].
  unfold equal_texts in *. rewrite replay_A_cons, filter_cons.
  destruct (type c) eqn:Hc; simpl; rewrite ?Hc; simpl.
  - by apply sublist_skip.
  - by apply sublist_cons.
  - done.
Qed.

Lemma equal_texts_sublist_B l : equal_texts l `sublist_of` replay_B l.
Proof.
  induction l as [|c l IH]; [constructor|].
  unfold equal_texts in *. rewrite replay_B_cons, filter_cons.
  destruct (type c) eqn:Hc; simpl; rewrite ?Hc; simpl.
  - by apply sublist_skip.
  - done.
  - by apply sublist_cons.
Qed.

(** A change list that inserts every line of [k]. *)
Lemma all_insert_alignment (k : list string) :
  ∃ l, replay_A l = [] ∧ replay_B l = k ∧ count_type T_equal l = 0.
Proof.
  exists (mkChange T_insert None None <$> k).
  induction k as [|x k (HA & HB & HE)]; [done|].
  rewrite fmap_cons, replay_A_cons, replay_B_cons, count_type_cons. simpl.
  by rewrite HA, HB, HE.
Qed.

(** A common subsequence gives an alignment with as many Equal records. *)
Lemma common_sublist_alignment (s u v : list string) :
  s `sublist_of` u → s `sublist_of` v →
  ∃ l, alignment u v l ∧ count_type T_equal l = length s.
Proof.
  intros Hu. revert v. induction Hu as [|x s u Hu IH|x s u Hu IH]; intros v Hv.
  - destruct (all_insert_alignment v) as (l & HA & HB & HE). by exists l.
  - apply sublist_cons_l in Hv as (v1 & v2 & -> & Hv2).
    destruct (IH v2 Hv2) as (l & [HA HB] & HE).
    destruct (all_insert_alignment v1) as (l1 & HA1 & HB1 & HE1).
    exists (l1 ++ mkChange T_equal None None x :: l). split; [split|].
    + rewrite replay_A_app, replay_A_cons, HA1, HA. done.
    + rewrite replay_B_app, replay_B_cons, HB1, HB. done.
    + rewrite count_type_app, count_type_cons, HE1, HE. done.
  - destruct (IH v Hv) as (l & [HA HB] & HE).
    exists (mkChange T_delete None None x :: l). split; [split|].
    + rewrite replay_A_cons, HA. done.
    + rewrite replay_B_cons, HB. done.
    + rewrite count_type_cons, HE. done.
Qed.

End lcs_subsequence.

(** X1. Every cell [dp[i][j]] of the table of [computeLCS] is the length of a
    longest common subsequence of the first [i] lines of [a] and the first [j]
    lines of [b]: some common subsequence has that length and none is
    longer. *)
Theorem computeLCS_longest (a b : list string) (i j : nat) :
  i ≤ length a → j ≤ length b →
  (∃ s, s `sublist_of` take i a ∧ s `sublist_of` take j b ∧
        length s = dp_get (computeLCS a b) i j) ∧
  (∀ s, s `sublist_of` take i a → s `sublist_of` take j b →
        length s ≤ dp_get (computeLCS a b) i j).
Proof.
  intros Hi Hj. rewrite computeLCS_cell by done.
  assert (length (take i a) = i) as Hla by (rewrite length_take; lia).
  assert (length (take j b) = j) as Hlb by (rewrite length_take; lia).
  assert (lcs_len (take i a) (take j b) i j = lcs_len a b i j) as Hext.
  { apply (lcs_len_ext _ _ _ _ (S (i + j))); [lia|..];
      intros k Hk; by rewrite lookup_take_lt. }
  split.
  - destruct (backtrack_fuel_spec (take i a) (take j b) (i + j))
      as (changes & _ & HA & HB & HE); [lia|].
    exists (equal_texts changes). split_and!.
    + rewrite <- HA. apply equal_texts_sublist_A.
    + rewrite <- HB. apply equal_texts_sublist_B.
    + rewrite length_equal_texts, HE, Hla, Hlb. exact Hext.
  - intros s Hsa Hsb.
    destruct (common_sublist_alignment s _ _ Hsa Hsb) as (l & [HA HB] & HE).
    rewrite <- HE. by apply lcs_len_upper.
Qed.

Lemma computeLCS_longest_witness :
  2 ≤ length lines_xy ∧ 2 ≤ length lines_yx ∧
  ∃ s, s `sublist_of` take 2 lines_xy ∧ s `sublist_of` take 2 lines_yx ∧
       length s = dp_get (computeLCS lines_xy lines_yx) 2 2.
Proof.
  assert (2 ≤ length lines_xy) as H1 by (simpl; lia).
  assert (2 ≤ length lines_yx) as H2 by (simpl; lia).
  split_and!; [exact H1|exact H2|].
  exact (proj1 (computeLCS_longest lines_xy lines_yx 2 2 H1 H2)).
Defined.

(** X2. The table of the swapped inputs is the transposed table, and no cell
    exceeds its row or its column index. *)
Theorem computeLCS_transpose_bound (a b : list string) (i j : nat) :
  i ≤ length a → j ≤ length b →
  dp_get (computeLCS a b) i j = dp_get (computeLCS b a) j i ∧
  dp_get (computeLCS a b) i j ≤ i `min` j.
Proof.
  intros Hi Hj. rewrite !computeLCS_cell by done. split.
  - apply (lcs_len_swap a b (S (i + j))). lia.
  - clear Hi Hj. assert (∀ n i j, i + j < n → lcs_len a b i j ≤ i `min` j) as H.
    { induction n as [|n IH]; intros i' j' Hn; [lia|].
      destruct i' as [|i']; [done|].
      destruct j' as [|j']; [by rewrite lcs_len_0_r|].
      rewrite lcs_len_S.
      pose proof (IH i' j' ltac:(lia)). pose proof (IH i' (S j') ltac:(lia)).
      pose proof (IH (S i') j' ltac:(lia)). case_decide; lia. }
    apply (H (S (i + j))). lia.
Qed.

Lemma computeLCS_transpose_bound_witness :
  2 ≤ length lines_xy ∧ 1 ≤ length lines_yx ∧
  dp_get (computeLCS lines_xy lines_yx) 2 1
    = dp_get (computeLCS lines_yx lines_xy) 1 2.
Proof.
  assert (2 ≤ length lines_xy) as H1 by (simpl; lia).
  assert (1 ≤ length lines_yx) as H2 by (simpl; lia).
  split_and!; [exact H1|exact H2|].
  exact (proj1 (computeLCS_transpose_bound lines_xy lines_yx 2 1 H1 H2)).
Defined.

(** ** The indices carried by the records *)

Section backtrack_indices.
Context (a b : list string).

Lemma bt_indexed_step s :
  bt_indexed_inv a b s → bt_cond s = true →
  bt_indexed_inv a b (bt_body (computeLCS a b) a b s).
Proof.
  intros [Hinv Hidx] Hc. split; [by apply bt_inv_step|].
  destruct Hinv as (Hi & Hj & _). apply bt_cond_true in Hc.
  destruct s as [i j out]. simpl in *.
  destruct (decide (0 < i ∧ 0 < j ∧ a !! (i - 1) = b !! (j - 1))) as [(Hi0 & Hj0 & Hab)|Hno].
  - rewrite bt_body_equal by done. simpl. rewrite reverse_snoc. simpl.
    replace (S (i - 1)) with i by lia. replace (S (j - 1)) with j by lia. done.
  - destruct (decide (0 < j ∧ (i = 0 ∨ dp_get (computeLCS a b) (i - 1) j
                                       ≤ dp_get (computeLCS a b) i (j - 1))))
      as [(Hj0 & Hdp)|Hno'].
    + rewrite bt_body_insert by done. simpl. rewrite reverse_snoc. simpl.
      replace (S (j - 1)) with j by lia. done.
    + assert (0 < i) as Hi0.
      { destruct (decide (i = 0)) as [->|]; [|lia].
        exfalso. apply Hno'. split; [lia|by left]. }
      rewrite bt_body_delete by done. simpl. rewrite reverse_snoc. simpl.
      replace (S (i - 1)) with i by lia. done.
Qed.

Lemma backtrack_indexed_spec :
  ∃ changes, backtrack a b = Some changes ∧
    replay_A changes = a ∧ replay_B changes = b ∧ indexed_from 0 0 changes.
Proof.
  unfold backtrack, backtrack_fuel.
  destruct (bt_loop_invariant a b (bt_indexed_inv a b) (computeLCS a b)
              bt_indexed_step (length a + length b)
              (mkBt (length a) (length b) []) ltac:(done))
    as (s' & Hloop & [(_ & _ & HA & HB & _) Hidx] & Hi & Hj).
  { split; [apply bt_inv_init|done]. }
  exists (reverse (bt_out s')). rewrite Hloop. simpl.
  rewrite Hi in HA, Hidx. rewrite Hj in HB, Hidx. done.
Qed.

(** In an indexed change list, [lineA] and [lineB] point at the text of the
    record in the sequences the list replays to. *)
Lemma indexed_text (l : list Change) : ∀ i0 j0 c,
  indexed_from i0 j0 l → c ∈ l →
  (∀ i, lineA c = Some i → i0 ≤ i ∧ replay_A l !! (i - i0) = Some (text c)) ∧
  (∀ j, lineB c = Some j → j0 ≤ j ∧ replay_B l !! (j - j0) = Some (text c)).
Proof.
  induction l as [|x l IH]; intros i0 j0 c Hidx Hc; [by apply elem_of_nil in Hc|].
  rewrite replay_A_cons, replay_B_cons. simpl in Hidx.
  apply elem_of_cons in Hc as [->|Hc].
  - destruct (type x) eqn:Hx; simpl; destruct Hidx as (HlA & HlB & _);
      rewrite HlA, HlB; split; intros k [= <-]; rewrite ?Nat.sub_diag; done.
  - destruct (type x) eqn:Hx; simpl; destruct Hidx as (_ & _ & Hidx);
      destruct (IH _ _ c Hidx Hc) as [HA HB]; split.
    + intros i Hi. destruct (HA i Hi) as [Hle Hl]. split; [lia|].
      replace (i - i0) with (S (i - S i0)) by lia. done.
    + intros j Hj. destruct (HB j Hj) as [Hle Hl]. split; [lia|].
      replace (j - j0) with (S (j - S j0)) by lia. done.
    + intros i Hi. destruct (HA i Hi) as [Hle Hl]. split; [lia|].
      replace (i - i0) with (S (i - S i0)) by lia. done.
    + done.
    + done.
    + intros j Hj. destruct (HB j Hj) as [Hle Hl]. split; [lia|].
      replace (j - j0) with (S (j - S j0)) by lia. done.
Qed.

End backtrack_indices.

(** X3. Every record of the backtracked change list carries the index of the
    line it consumes: the list is indexed from line 0 of both inputs (an
    Equal record holds both indices, a Delete only [lineA], an Insert only
    [lineB], each the number of lines consumed before it on that side), and
    the line of [linesA] at [lineA], or of [linesB] at [lineB], is the text
    of the record. *)
Theorem backtrack_indexed (linesA linesB : list string) :
  ∃ changes, backtrack linesA linesB = Some changes ∧
    indexed_from 0 0 changes ∧
    ∀ c, c ∈ changes →
      (∀ i, lineA c = Some i → linesA !! i = Some (text c)) ∧
      (∀ j, lineB c = Some j → linesB !! j = Some (text c)).
Proof.
  destruct (backtrack_indexed_spec linesA linesB)
    as (changes & Hbt & HA & HB & Hidx).
  exists changes. split_and!; [done..|].
  intros c Hc. destruct (indexed_text changes 0 0 c Hidx Hc) as [HlA HlB].
  rewrite HA in HlA. rewrite HB in HlB. split.
  - intros i Hi. destruct (HlA i Hi) as [_ H]. by rewrite Nat.sub_0_r in H.
  - intros j Hj. destruct (HlB j Hj) as [_ H]. by rewrite Nat.sub_0_r in H.
Qed.

(** ** The counters of the hunks *)

Section hunk_counts.
Context (changes : list Change) (contextLines : nat).

Lemma counts_ok_snoc cA cB ls s :
  counts_ok cA cB ls →
  counts_ok (cA + (if is_old_line s then 1 else 0))%Z
            (cB + (if is_new_line s then 1 else 0))%Z (ls ++ [s]).
Proof.
  intros [-> ->]. unfold counts_ok, old_count, new_count.
  rewrite !filter_app, !length_app, !filter_cons, !filter_nil.
  destruct (is_old_line s), (is_new_line s); simpl; split; lia.
Qed.

Lemma count_inv_push_context st ck : count_inv st → count_inv (push_context st ck).
Proof.
  intros [Hbuf Hhunks]. split; [|done]. simpl.
  by apply (counts_ok_snoc _ _ _ (ctx_line ck)) in Hbuf.
Qed.

Lemma count_inv_push_change st idx c : count_inv st → count_inv (push_change idx c st).
Proof.
  intros [Hbuf Hhunks]. unfold push_change. case_decide; (split; [|done]); simpl.
  - apply (counts_ok_snoc _ _ _ (del_line c)) in Hbuf. simpl in Hbuf.
    by rewrite Z.add_0_r in Hbuf.
  - apply (counts_ok_snoc _ _ _ (ins_line c)) in Hbuf. simpl in Hbuf.
    by rewrite Z.add_0_r in Hbuf.
Qed.

Lemma count_inv_trailing rest : ∀ t st,
  count_inv st → count_inv (trailing_loop contextLines rest t st).
Proof.
  induction rest as [|ck rest IH]; intros t st Hst; simpl; [done|].
  case_decide; [|done]. destruct (is_equal ck); apply IH; [|done].
  by apply count_inv_push_context.
Qed.

Lemma count_inv_close st :
  count_inv st → count_inv (reset_hunk (close_hunk changes contextLines st)).
Proof.
  intros Hst. unfold close_hunk.
  destruct (count_inv_trailing (from_index changes (lastChangeIdx st + 1)) 0 st Hst)
    as [Hbuf Hhunks].
  split; simpl; [done|]. apply Forall_app. split; [done|]. by constructor.
Qed.

Lemma count_inv_close_last st :
  count_inv st →
  Forall (λ h, counts_ok (countA h) (countB h) (lines h))
         (close_last changes contextLines st).
Proof.
  intros Hst. unfold close_last. case_decide; [|by destruct Hst].
  unfold close_hunk.
  destruct (count_inv_trailing (from_index changes (lastChangeIdx st + 1)) 0 st Hst)
    as [Hbuf Hhunks].
  simpl. apply Forall_app. split; [done|]. by constructor.
Qed.

Lemma counts_ok_context (l : list Change) :
  counts_ok (Z.of_nat (length l)) (Z.of_nat (length l)) (ctx_line <$> l).
Proof.
  induction l as [|c l [IHa IHb]]; [done|].
  unfold counts_ok, old_count, new_count in *.
  rewrite fmap_cons, !filter_cons_True by done. simpl length. split; lia.
Qed.

Lemma count_inv_open st idx c :
  count_inv st → hunkLines st = [] →
  count_inv (open_hunk changes contextLines idx c st).
Proof.
  intros [_ Hhunks] Hempty. unfold open_hunk.
  rewrite leading_loop_run, Hempty. simpl. split; [|done]. simpl.
  rewrite app_nil_r, Nat.sub_0_r.
  set (before := reverse (take idx changes)).
  set (n := contextLines `min` equal_run before).
  pose proof (equal_run_le before).
  pose proof (counts_ok_context (reverse (take n before))) as Hctx.
  rewrite length_reverse, length_take in Hctx.
  by replace (n `min` length before) with n in Hctx by lia.
Qed.

Lemma count_inv_fill_gap st idx :
  count_inv st → count_inv (fill_gap changes idx st).
Proof.
  unfold fill_gap. generalize (take (idx - Z.to_nat (lastChangeIdx st + 1))
                                 (drop (Z.to_nat (lastChangeIdx st + 1)) changes)).
  intros l. revert st. induction l as [|ck l IH]; intros st Hst; simpl; [done|].
  apply IH. destruct (is_equal ck); [|done]. by apply count_inv_push_context.
Qed.

Lemma count_inv_step st idx c :
  count_inv st → count_inv (hunk_step changes contextLines st idx c).
Proof.
  intros Hst. unfold hunk_step. destruct (is_equal c); [done|].
  apply count_inv_push_change.
  set (st1 := if decide _ then st else if decide _ then _ else st).
  assert (count_inv st1) as Hst1.
  { unfold st1. repeat case_decide; try done. by apply count_inv_close. }
  case_decide; [by apply count_inv_open|by apply count_inv_fill_gap].
Qed.

Lemma count_inv_loop k : count_inv (hunk_loop changes contextLines k).
Proof.
  induction k as [|k IH]; [by split|]. simpl.
  destruct (changes !! k); [|done]. by apply count_inv_step.
Qed.

End hunk_counts.

(** X4. The counts of every hunk are those of its body: [countA] is the
    number of its context and deletion lines, and [countB] the number of its
    context and insertion lines. *)
Theorem hunk_counts_match_body (changes : list Change) (contextLines : nat) :
  Forall (λ h, countA h = old_count (lines h) ∧ countB h = new_count (lines h))
         (group_hunks changes contextLines).
Proof.
  unfold group_hunks. apply count_inv_close_last, count_inv_loop.
Qed.

(** ** The start positions of the hunks *)

Section hunk_fields.
Context (changes : list Change) (contextLines : nat).

Lemma trailing_loop_fields rest : ∀ t st,
  hunks (trailing_loop contextLines rest t st) = hunks st ∧
  hunkStartA (trailing_loop contextLines rest t st) = hunkStartA st ∧
  hunkStartB (trailing_loop contextLines rest t st) = hunkStartB st.
Proof.
  induction rest as [|ck rest IH]; intros t st; simpl; [done|].
  case_decide; [|done]. destruct (is_equal ck); [|apply IH].
  destruct (IH (S t) (push_context st ck)) as (-> & -> & ->). done.
Qed.

Lemma fill_gap_fields st idx :
  hunkStartA (fill_gap changes idx st) = hunkStartA st ∧
  hunkStartB (fill_gap changes idx st) = hunkStartB st.
Proof.
  unfold fill_gap. generalize (take (idx - Z.to_nat (lastChangeIdx st + 1))
                                 (drop (Z.to_nat (lastChangeIdx st + 1)) changes)).
  intros l. revert st. induction l as [|ck l IH]; intros st; simpl; [done|].
  destruct (IH (if is_equal ck then push_context st ck else st)) as (-> & ->).
  by destruct (is_equal ck).
Qed.

Lemma push_change_fields idx c st :
  hunkStartA (push_change idx c st) = hunkStartA st ∧
  hunkStartB (push_change idx c st) = hunkStartB st.
Proof. unfold push_change. by case_decide. Qed.

Lemma open_hunk_fields idx c st :
  hunkStartA (open_hunk changes contextLines idx c st)
    = hunk_start changes idx c lineA (contextLines `min` run_before changes idx) ∧
  hunkStartB (open_hunk changes contextLines idx c st)
    = hunk_start changes idx c lineB (contextLines `min` run_before changes idx).
Proof.
  unfold open_hunk. rewrite leading_loop_run. simpl.
  rewrite Nat.sub_0_r. done.
Qed.

Lemma close_hunk_fields st :
  ∃ h, hunks (close_hunk changes contextLines st) = hunks st ++ [h] ∧
       startA h = hunkStartA st ∧ startB h = hunkStartB st.
Proof.
  unfold close_hunk.
  destruct (trailing_loop_fields (from_index changes (lastChangeIdx st + 1)) 0 st)
    as (Hh & HA & HB).
  eexists. simpl. rewrite Hh. split; [done|]. simpl. by rewrite HA, HB.
Qed.

Lemma hunk_loop_first_fields k c :
  last_change changes k = None → changes !! k = Some c → type c ≠ T_equal →
  hunkStartA (hunk_loop changes contextLines (S k))
    = hunk_start changes k c lineA (contextLines `min` run_before changes k) ∧
  hunkStartB (hunk_loop changes contextLines (S k))
    = hunk_start changes k c lineB (contextLines `min` run_before changes k).
Proof.
  intros Hlast Hk Hc. rewrite (hunk_loop_S _ _ _ _ Hk).
  pose proof (hunk_loop_last changes contextLines k) as Hst.
  rewrite Hlast in Hst. rewrite Hst, hunk_step_first by done.
  destruct (push_change_fields k c (open_hunk changes contextLines k c hs_init))
    as [-> ->].
  apply open_hunk_fields.
Qed.

Lemma hunk_loop_merge_fields k p c :
  last_change changes k = Some p → changes !! k = Some c → type c ≠ T_equal →
  k - S p ≤ 2 * contextLines →
  hunkStartA (hunk_loop changes contextLines (S k))
    = hunkStartA (hunk_loop changes contextLines k) ∧
  hunkStartB (hunk_loop changes contextLines (S k))
    = hunkStartB (hunk_loop changes contextLines k).
Proof.
  intros Hlast Hk Hc Hgap. pose proof (last_change_lt _ _ _ Hlast) as Hpk.
  rewrite (hunk_loop_S _ _ _ _ Hk).
  pose proof (hunk_loop_last changes contextLines k) as Hst. rewrite Hlast in Hst.
  destruct Hst as [Hp Hopen].
  rewrite hunk_step_merge;
    [|done..|rewrite (far_from_last_gap contextLines k p) by done; lia].
  destruct (push_change_fields k c
              (fill_gap changes k (hunk_loop changes contextLines k))) as [-> ->].
  apply fill_gap_fields.
Qed.

Lemma hunk_loop_split_fields k p c :
  last_change changes k = Some p → changes !! k = Some c → type c ≠ T_equal →
  2 * contextLines < k - S p →
  (∀ h, hunks (hunk_loop changes contextLines (S k))
          = hunks (hunk_loop changes contextLines k) ++ [h] →
        startA h = hunkStartA (hunk_loop changes contextLines k) ∧
        startB h = hunkStartB (hunk_loop changes contextLines k)) ∧
  hunkStartA (hunk_loop changes contextLines (S k))
    = hunk_start changes k c lineA (contextLines `min` run_before changes k) ∧
  hunkStartB (hunk_loop changes contextLines (S k))
    = hunk_start changes k c lineB (contextLines `min` run_before changes k).
Proof.
  intros Hlast Hk Hc Hgap. pose proof (last_change_lt _ _ _ Hlast) as Hpk.
  rewrite (hunk_loop_S _ _ _ _ Hk).
  pose proof (hunk_loop_last changes contextLines k) as Hst. rewrite Hlast in Hst.
  destruct Hst as [Hp Hopen].
  rewrite hunk_step_split;
    [|done..|rewrite (far_from_last_gap contextLines k p) by done; lia].
  set (st := hunk_loop changes contextLines k).
  destruct (close_hunk_fields st) as (h0 & Hh0 & HA0 & HB0).
  split.
  - intros h. rewrite push_change_hunks, open_hunk_hunks.
    change (hunks (reset_hunk (close_hunk changes contextLines st)))
      with (hunks (close_hunk changes contextLines st)). rewrite Hh0.
    intros [_ <-]%app_inj_tail. done.
  - destruct (push_change_fields k c
                (open_hunk changes contextLines k c
                   (reset_hunk (close_hunk changes contextLines st)))) as [-> ->].
    apply open_hunk_fields.
Qed.

Lemma group_hunks_last_fields p h :
  last_change changes (length changes) = Some p →
  group_hunks changes contextLines
    = hunks (hunk_loop changes contextLines (length changes)) ++ [h] →
  startA h = hunkStartA (hunk_loop changes contextLines (length changes)) ∧
  startB h = hunkStartB (hunk_loop changes contextLines (length changes)).
Proof.
  intros Hlast. unfold group_hunks, close_last.
  pose proof (hunk_loop_last changes contextLines (length changes)) as Hst.
  rewrite Hlast in Hst. destruct Hst as [_ Hopen]. rewrite decide_True by done.
  destruct (close_hunk_fields (hunk_loop changes contextLines (length changes)))
    as (h0 & -> & HA0 & HB0).
  intros [_ <-]%app_inj_tail. done.
Qed.

End hunk_fields.

Section hunk_positions.
Context (changes : list Change) (contextLines : nat).
Hypothesis Hidx : indexed_from 0 0 changes.

Lemma indexed_lookup (l : list Change) : ∀ i0 j0 k c,
  indexed_from i0 j0 l → l !! k = Some c →
  lineA c = (if decide (type c = T_insert) then None
             else Some (i0 + length (replay_A (take k l)))) ∧
  lineB c = (if decide (type c = T_delete) then None
             else Some (j0 + length (replay_B (take k l)))).
Proof.
  induction l as [|x l IH]; intros i0 j0 k c Hl Hk; [done|].
  destruct k as [|k]; simpl in Hk, Hl.
  - injection Hk as ->. rewrite take_0. simpl. rewrite !Nat.add_0_r.
    destruct (type c); destruct Hl as (-> & -> & _); done.
  - rewrite firstn_cons, replay_A_cons, replay_B_cons.
    destruct (type x) eqn:Hx; destruct Hl as (_ & _ & Hl);
      destruct (IH _ _ k c Hl Hk) as [-> ->]; simpl;
      split; case_decide; try done; f_equal; lia.
Qed.

Lemma replay_all_equal (l : list Change) :
  Forall (λ c, type c = T_equal) l →
  length (replay_A l) = length l ∧ length (replay_B l) = length l.
Proof.
  induction 1 as [|c l Hc _ [IHA IHB]]; [done|].
  rewrite replay_A_cons, replay_B_cons, !decide_False by (by rewrite Hc).
  simpl. by rewrite IHA, IHB.
Qed.

Lemma take_slice s e :
  s ≤ e → take e changes = take s changes ++ slice changes s e.
Proof.
  intros Hse. unfold slice. rewrite take_take_drop. f_equal. lia.
Qed.

Lemma a_pos_slice s e :
  s ≤ e → a_pos changes e = a_pos changes s + length (replay_A (slice changes s e)).
Proof.
  intros Hse. unfold a_pos. by rewrite (take_slice s e), replay_A_app, length_app.
Qed.

Lemma b_pos_slice s e :
  s ≤ e → b_pos changes e = b_pos changes s + length (replay_B (slice changes s e)).
Proof.
  intros Hse. unfold b_pos. by rewrite (take_slice s e), replay_B_app, length_app.
Qed.

Lemma equal_run_prefix (l : list Change) n :
  n ≤ equal_run l → Forall (λ c, type c = T_equal) (take n l).
Proof.
  revert n. induction l as [|c l IH]; intros n Hn; simpl in *.
  { rewrite take_nil. constructor. }
  destruct n as [|n]; [constructor|]. simpl.
  destruct (is_equal c) eqn:Hc; [|lia].
  constructor; [by apply is_equal_true|]. apply IH. lia.
Qed.

Lemma run_before_slice k n :
  n ≤ run_before changes k → k ≤ length changes →
  Forall (λ c, type c = T_equal) (slice changes (k - n) k).
Proof.
  intros Hn Hk. pose proof (run_before_le changes k).
  rewrite <- reverse_take_reverse_take by lia.
  apply Forall_reverse. by apply equal_run_prefix.
Qed.

Lemma run_after_slice l n :
  n ≤ run_after changes l →
  Forall (λ c, type c = T_equal) (slice changes (S l) (S l + n)).
Proof.
  intros Hn. unfold slice. replace (S l + n - S l) with n by lia.
  by apply equal_run_prefix.
Qed.

Lemma run_before_none k :
  last_change changes k = None → k ≤ length changes → run_before changes k = k.
Proof.
  intros Hlast Hk. unfold run_before.
  rewrite equal_run_all; [rewrite length_reverse, length_take; lia|].
  apply Forall_reverse, Forall_lookup. intros q c Hq.
  apply lookup_take_Some in Hq as [Hq Hqk]. by eapply last_change_none.
Qed.

(** The start positions computed when a hunk is opened at a change whose
    previous record, if any, is Equal. *)
Lemma open_start k c n :
  changes !! k = Some c → type c ≠ T_equal →
  n ≤ run_before changes k → k = 0 ∨ 1 ≤ run_before changes k →
  hunk_start changes k c lineA n = Z.of_nat (a_pos changes (k - n)) ∧
  hunk_start changes k c lineB n = Z.of_nat (b_pos changes (k - n)).
Proof.
  intros Hk Hc Hn Hprev. pose proof (lookup_lt_Some _ _ _ Hk) as Hklen.
  pose proof (run_before_le changes k) as Hrun.
  destruct (replay_all_equal _ (run_before_slice k n Hn ltac:(lia))) as [HnA HnB].
  rewrite length_slice in HnA, HnB by lia.
  pose proof (a_pos_slice (k - n) k ltac:(lia)) as HA.
  pose proof (b_pos_slice (k - n) k ltac:(lia)) as HB.
  rewrite HnA in HA. rewrite HnB in HB.
  destruct (indexed_lookup changes 0 0 k c Hidx Hk) as [HlA HlB].
  fold (a_pos changes k) in HlA. fold (b_pos changes k) in HlB.
  assert (prev_field changes k lineA =
            (if decide (k = 0) then None else Some (a_pos changes k - 1)) ∧
          prev_field changes k lineB =
            (if decide (k = 0) then None else Some (b_pos changes k - 1)) ∧
          (k ≠ 0 → 1 ≤ a_pos changes k ∧ 1 ≤ b_pos changes k)) as (HpA & HpB & Hpos).
  { unfold prev_field. destruct (decide (k = 0)) as [->|Hk0]; [done|].
    destruct Hprev as [?|Hprev]; [done|].
    pose proof (run_before_slice k 1 Hprev ltac:(lia)) as Hone.
    destruct (lookup_lt_is_Some_2 changes (k - 1)) as [e He]; [lia|].
    assert (slice changes (k - 1) k = [e]) as Hsl.
    { pose proof (slice_singleton changes (k - 1) e He) as H1.
      by replace (S (k - 1)) with k in H1 by lia. }
    rewrite Hsl, Forall_singleton in Hone.
    destruct (indexed_lookup changes 0 0 (k - 1) e Hidx He) as [HeA HeB].
    rewrite decide_False in HeA by (by rewrite Hone).
    rewrite decide_False in HeB by (by rewrite Hone).
    fold (a_pos changes (k - 1)) in HeA. fold (b_pos changes (k - 1)) in HeB.
    pose proof (a_pos_slice (k - 1) k ltac:(lia)) as HA1.
    pose proof (b_pos_slice (k - 1) k ltac:(lia)) as HB1.
    rewrite Hsl in HA1, HB1.
    rewrite replay_A_cons, decide_False in HA1 by (by rewrite Hone).
    rewrite replay_B_cons, decide_False in HB1 by (by rewrite Hone).
    simpl in HA1, HB1. rewrite He. simpl. rewrite HeA, HeB.
    split_and!; [f_equal; lia|f_equal; lia|intros _; lia]. }
  unfold hunk_start. rewrite HlA, HlB, HpA, HpB.
  assert (k = 0 → n = 0 ∧ a_pos changes k = 0 ∧ b_pos changes k = 0) as Hzero.
  { intros ->. split; [lia|]. done. }
  split.
  - destruct (decide (type c = T_insert)); [destruct (decide (k = 0)) as [Hk0|Hk0]|].
    + destruct (Hzero Hk0) as (-> & Ha & _). rewrite Nat.sub_0_r, Ha.
      by rewrite decide_False by lia.
    + destruct (Hpos Hk0). rewrite decide_False by lia. lia.
    + rewrite decide_False by lia. lia.
  - destruct (decide (type c = T_delete)); [destruct (decide (k = 0)) as [Hk0|Hk0]|].
    + destruct (Hzero Hk0) as (-> & _ & Hb). rewrite Nat.sub_0_r, Hb.
      by rewrite decide_False by lia.
    + destruct (Hpos Hk0). rewrite decide_False by lia. lia.
    + rewrite decide_False by lia. lia.
Qed.

Lemma ranges_sorted_grow r : ∀ lo s e e',
  ranges_sorted lo (r ++ [(s, e)]) → e ≤ e' → ranges_sorted lo (r ++ [(s, e')]).
Proof.
  induction r as [|x r IH]; intros lo s e e' Hs He; simpl in *.
  - destruct Hs as (? & ? & _). split_and!; (done || lia).
  - destruct Hs as (? & ? & Hs). split_and!; [done..|]. by eapply IH.
Qed.

Lemma ranges_sorted_snoc r : ∀ lo s e s' e',
  ranges_sorted lo (r ++ [(s, e)]) → e ≤ s' → s' ≤ e' →
  ranges_sorted lo ((r ++ [(s, e)]) ++ [(s', e')]).
Proof.
  induction r as [|x r IH]; intros lo s e s' e' Hs He He'; simpl in *.
  - destruct Hs as (? & ? & _). split_and!; (done || lia).
  - destruct Hs as (? & ? & Hs). split_and!; [done..|]. by apply IH.
Qed.

Lemma lead_lines k c n :
  changes !! k = Some c → type c ≠ T_equal → n ≤ run_before changes k →
  (ctx_line <$> slice changes (k - n) k) ++ [change_line c]
    = any_line <$> slice changes (k - n) (S k).
Proof.
  intros Hk Hc Hn. pose proof (lookup_lt_Some _ _ _ Hk) as Hklen.
  rewrite <- (slice_app changes (k - n) k (S k)) by lia.
  rewrite (slice_singleton _ _ _ Hk), fmap_app.
  rewrite any_line_equal by (apply run_before_slice; lia).
  simpl. by rewrite any_line_change.
Qed.

Lemma located_inv_holds k :
  located_inv changes k (hunk_loop changes contextLines k).
Proof.
  induction k as [|k IH].
  { exists []. split; [constructor|done]. }
  destruct (changes !! k) as [c|] eqn:Hk.
  2: { unfold located_inv in *. simpl. by rewrite Hk. }
  destruct (decide (type c = T_equal)) as [Hc|Hc].
  { rewrite (hunk_loop_skip _ _ _ _ Hk Hc). unfold located_inv in *.
    simpl. rewrite Hk. apply is_equal_true in Hc. by rewrite Hc. }
  pose proof (lookup_lt_Some _ _ _ Hk) as Hklen.
  assert (last_change changes (S k) = Some k) as HlastS.
  { simpl. rewrite Hk. apply is_equal_false in Hc. by rewrite Hc. }
  destruct IH as (closed & IHh & IHo). unfold located_inv. rewrite HlastS.
  pose proof (run_before_le changes k) as Hrun.
  destruct (last_change changes k) as [p|] eqn:Hlast.
  - destruct IHo as (s & Hsp & Hsorted & Hbuf & HsA & HsB).
    pose proof (last_change_lt _ _ _ Hlast) as Hpk.
    pose proof (run_after_gap _ _ _ _ Hlast Hk Hc) as Hafter.
    pose proof (run_before_gap changes k p Hlast ltac:(lia)) as Hbefore.
    destruct (decide (k - S p ≤ 2 * contextLines)) as [Hgap|Hgap].
    + destruct (hunk_loop_merge _ contextLines _ _ _ Hlast Hk Hc Hgap) as [Hh Hl].
      destruct (hunk_loop_merge_fields _ contextLines _ _ _ Hlast Hk Hc Hgap) as [HA HB].
      exists closed. rewrite Hh. split; [done|].
      exists s. split_and!; [lia| | |congruence|congruence].
      * eapply ranges_sorted_grow; [done|lia].
      * rewrite Hl, Hbuf.
        rewrite any_line_equal
          by (apply slice_all_equal; [lia|]; intros q c' ???;
              apply (last_change_between changes k p q c'); (done || lia)).
        rewrite <- (slice_app changes s (S p) (S k)) by lia.
        rewrite <- (slice_app changes (S p) k (S k)) by lia.
        rewrite (slice_singleton _ _ _ Hk), !fmap_app. simpl.
        by rewrite any_line_change.
    + destruct (hunk_loop_split _ contextLines _ _ _ Hlast Hk Hc)
        as (h & Hh & Hlh & Hl); [lia|].
      destruct (hunk_loop_split_fields _ contextLines _ _ _ Hlast Hk Hc)
        as (Hhf & HA & HB); [lia|].
      destruct (Hhf h Hh) as [HhA HhB].
      exists (closed ++ [(s, S p + contextLines)]). rewrite Hh. split.
      * apply Forall2_app; [done|]. constructor; [|constructor].
        unfold hunk_located. simpl. split_and!; [lia|lia| |congruence|congruence].
        rewrite Hlh, Hbuf.
        rewrite any_line_equal by (apply run_after_slice; lia).
        rewrite <- fmap_app. f_equal. apply slice_app; lia.
      * exists (k - contextLines).
        replace (contextLines `min` run_before changes k)
          with contextLines in HA, HB by lia.
        destruct (open_start k c contextLines Hk Hc) as [HsA' HsB']; [lia|lia|].
        split_and!; [lia| | |congruence|congruence].
        -- apply ranges_sorted_snoc; [|lia|lia].
           eapply ranges_sorted_grow; [done|lia].
        -- rewrite Hl. apply lead_lines; (done || lia).
  - subst closed.
    destruct (hunk_loop_first _ contextLines _ _ Hlast Hk Hc) as [Hh Hl].
    destruct (hunk_loop_first_fields _ contextLines _ _ Hlast Hk Hc) as [HA HB].
    pose proof (run_before_none k Hlast ltac:(lia)) as Hbefore.
    exists []. rewrite Hh. split; [constructor|].
    exists (k - contextLines `min` run_before changes k).
    destruct (open_start k c (contextLines `min` run_before changes k) Hk Hc)
      as [HsA' HsB']; [lia|lia|].
    split_and!; [lia| | |congruence|congruence].
    + simpl. lia.
    + rewrite Hl. apply lead_lines; (done || lia).
Qed.

(** The hunks of the result render ranges of the change list that follow
    each other, and start where their ranges start. *)
Lemma group_hunks_located :
  ∃ ranges,
    ranges_sorted 0 ranges ∧
    Forall2 (λ r h, hunk_located changes r.1 r.2 h)
            ranges (group_hunks changes contextLines).
Proof.
  destruct (located_inv_holds (length changes)) as (closed & Hh & Ho).
  destruct (last_change changes (length changes)) as [p|] eqn:Hlast.
  - destruct (group_hunks_last_change _ contextLines _ Hlast) as (hf & Hg & Hlf).
    destruct (group_hunks_last_fields _ contextLines _ hf Hlast Hg) as [HfA HfB].
    destruct Ho as (s & Hsp & Hsorted & Hbuf & HsA & HsB).
    pose proof (last_change_lt _ _ _ Hlast) as Hp.
    pose proof (run_after_le changes p) as Hrun.
    set (m := contextLines `min` run_after changes p) in *.
    exists (closed ++ [(s, S p + m)]). rewrite Hg. split.
    + eapply ranges_sorted_grow; [done|lia].
    + apply Forall2_app; [done|]. constructor; [|constructor].
      unfold hunk_located. simpl. split_and!; [lia|lia| |congruence|congruence].
      rewrite Hlf, Hbuf.
      rewrite any_line_equal by (apply run_after_slice; lia).
      rewrite <- fmap_app. f_equal. apply slice_app; lia.
  - subst closed. apply Forall2_nil_inv_l in Hh.
    rewrite group_hunks_no_change by done. exists []. split; [done|constructor].
Qed.

End hunk_positions.

(** ** The sides of the hunks *)

Lemma any_line_sides (c : Change) :
  strip_prefix (any_line c) = text c ∧
  (is_old_line (any_line c) = true ↔ type c = T_equal ∨ type c = T_delete) ∧
  (is_new_line (any_line c) = true ↔ type c = T_equal ∨ type c = T_insert).
Proof.
  unfold any_line, change_line, is_equal.
  destruct (type c) eqn:Hc; simpl; (split; [done|]);
    unfold is_old_line, is_new_line; simpl; split; split;
    solve [done | by left | by right | intros [?|?]; congruence].
Qed.

Lemma old_side_any_line (l : list Change) :
  old_side (any_line <$> l) = replay_A l.
Proof.
  unfold old_side, replay_A. induction l as [|c l IH]; [done|].
  destruct (any_line_sides c) as (Hs & Ho & _).
  rewrite fmap_cons, (filter_cons _ (any_line c)), (filter_cons _ c).
  destruct (decide (is_old_line (any_line c) = true)) as [H1|H1];
    destruct (decide (type c = T_equal ∨ type c = T_delete)) as [H2|H2];
    [|by apply Ho in H1|by apply Ho in H2|done].
  by rewrite !fmap_cons, Hs, IH.
Qed.

Lemma new_side_any_line (l : list Change) :
  new_side (any_line <$> l) = replay_B l.
Proof.
  unfold new_side, replay_B. induction l as [|c l IH]; [done|].
  destruct (any_line_sides c) as (Hs & _ & Hn).
  rewrite fmap_cons, (filter_cons _ (any_line c)), (filter_cons _ c).
  destruct (decide (is_new_line (any_line c) = true)) as [H1|H1];
    destruct (decide (type c = T_equal ∨ type c = T_insert)) as [H2|H2];
    [|by apply Hn in H1|by apply Hn in H2|done].
  by rewrite !fmap_cons, Hs, IH.
Qed.

Lemma group_hunks_counts_ok (changes : list Change) (contextLines : nat) :
  Forall (λ h, counts_ok (countA h) (countB h) (lines h))
         (group_hunks changes contextLines).
Proof. unfold group_hunks. apply count_inv_close_last, count_inv_loop. Qed.

Lemma replay_A_range (changes : list Change) s e :
  s ≤ e →
  replay_A changes = replay_A (take s changes) ++ replay_A (slice changes s e)
                     ++ replay_A (drop e changes).
Proof.
  intros Hse. rewrite <- (take_drop e changes) at 1.
  by rewrite (take_slice changes s e), !replay_A_app, <- app_assoc.
Qed.

Lemma replay_B_range (changes : list Change) s e :
  s ≤ e →
  replay_B changes = replay_B (take s changes) ++ replay_B (slice changes s e)
                     ++ replay_B (drop e changes).
Proof.
  intros Hse. rewrite <- (take_drop e changes) at 1.
  by rewrite (take_slice changes s e), !replay_B_app, <- app_assoc.
Qed.

Lemma take_drop_middle_app {A} (l1 l2 l3 : list A) :
  take (length l2) (drop (length l1) (l1 ++ l2 ++ l3)) = l2.
Proof. by rewrite drop_app_length, take_app_length. Qed.

(** A located hunk with the right counts shows, on each side, the lines of
    the input from its start position on. *)
Lemma located_sides (changes : list Change) s e h :
  hunk_located changes s e h →
  counts_ok (countA h) (countB h) (lines h) →
  countA h = Z.of_nat (a_pos changes e - a_pos changes s) ∧
  countB h = Z.of_nat (b_pos changes e - b_pos changes s) ∧
  a_pos changes s ≤ a_pos changes e ∧ b_pos changes s ≤ b_pos changes e ∧
  old_side (lines h) =
    take (Z.to_nat (countA h)) (drop (Z.to_nat (startA h)) (replay_A changes)) ∧
  new_side (lines h) =
    take (Z.to_nat (countB h)) (drop (Z.to_nat (startB h)) (replay_B changes)).
Proof.
  intros (Hse & He & Hl & HsA & HsB) [HcA HcB].
  pose proof (a_pos_slice changes s e ltac:(lia)) as HA.
  pose proof (b_pos_slice changes s e ltac:(lia)) as HB.
  assert (countA h = Z.of_nat (length (replay_A (slice changes s e)))) as HcA'.
  { rewrite HcA. unfold old_count.
    rewrite <- (length_fmap strip_prefix). fold (old_side (lines h)).
    by rewrite Hl, old_side_any_line. }
  assert (countB h = Z.of_nat (length (replay_B (slice changes s e)))) as HcB'.
  { rewrite HcB. unfold new_count.
    rewrite <- (length_fmap strip_prefix). fold (new_side (lines h)).
    by rewrite Hl, new_side_any_line. }
  split_and!; [lia..| |].
  - rewrite Hl, old_side_any_line, HcA', HsA, !Nat2Z.id.
    rewrite (replay_A_range changes s e) by lia.
    unfold a_pos. by rewrite take_drop_middle_app.
  - rewrite Hl, new_side_any_line, HcB', HsB, !Nat2Z.id.
    rewrite (replay_B_range changes s e) by lia.
    unfold b_pos. by rewrite take_drop_middle_app.
Qed.

Lemma a_pos_mono (changes : list Change) s e :
  s ≤ e → a_pos changes s ≤ a_pos changes e.
Proof. intros Hse. rewrite (a_pos_slice changes s e Hse). lia. Qed.

Lemma b_pos_mono (changes : list Change) s e :
  s ≤ e → b_pos changes s ≤ b_pos changes e.
Proof. intros Hse. rewrite (b_pos_slice changes s e Hse). lia. Qed.

Lemma located_ordered (changes : list Change) : ∀ ranges hs lo,
  ranges_sorted lo ranges →
  Forall2 (λ r h, hunk_located changes r.1 r.2 h) ranges hs →
  Forall (λ h, counts_ok (countA h) (countB h) (lines h)) hs →
  hunks_ordered (Z.of_nat (a_pos changes lo)) (Z.of_nat (b_pos changes lo)) hs.
Proof.
  intros ranges hs lo Hs Hl. revert lo Hs.
  induction Hl as [|r h ranges hs Hrh _ IH]; intros lo Hs Hc; [done|].
  apply Forall_cons in Hc as [Hch Hc]. destruct Hs as (Hlo & Hr & Hs).
  destruct (located_sides changes _ _ h Hrh Hch) as (HcA & HcB & HleA & HleB & _).
  destruct Hrh as (_ & _ & _ & HsA & HsB).
  pose proof (a_pos_mono changes lo r.1 Hlo).
  pose proof (b_pos_mono changes lo r.1 Hlo).
  simpl. split_and!; [lia..|].
  replace (startA h + countA h)%Z with (Z.of_nat (a_pos changes r.2)) by lia.
  replace (startB h + countB h)%Z with (Z.of_nat (b_pos changes r.2)) by lia.
  by apply IH.
Qed.

(** X5. Each hunk of the diff of [linesA] and [linesB] shows the lines of the
    two inputs it announces: its context and deletion lines, without their
    prefix, are the [countA] lines of [linesA] from the 0-based position
    [startA] on, and its context and insertion lines are the [countB] lines
    of [linesB] from [startB] on.  (The header prints the positions plus
    one.) *)
Theorem hunk_sides_located (linesA linesB : list string) (contextLines : nat) :
  ∃ changes, backtrack linesA linesB = Some changes ∧
    Forall (λ h,
        (0 ≤ startA h)%Z ∧ (0 ≤ countA h)%Z ∧
        (0 ≤ startB h)%Z ∧ (0 ≤ countB h)%Z ∧
        old_side (lines h) =
          take (Z.to_nat (countA h)) (drop (Z.to_nat (startA h)) linesA) ∧
        new_side (lines h) =
          take (Z.to_nat (countB h)) (drop (Z.to_nat (startB h)) linesB))
      (group_hunks changes contextLines).
Proof.
  destruct (backtrack_indexed_spec linesA linesB)
    as (changes & Hbt & HA & HB & Hidx).
  exists changes. split; [done|].
  destruct (group_hunks_located changes contextLines Hidx) as (ranges & _ & Hloc).
  pose proof (group_hunks_counts_ok changes contextLines) as Hcount.
  revert Hcount. induction Hloc as [|r h ranges hs Hrh _ IH]; intros Hcount;
    [constructor|].
  apply Forall_cons in Hcount as [Hch Hcount]. constructor; [|by apply IH].
  destruct (located_sides changes _ _ h Hrh Hch) as (HcA & HcB & _ & _ & HoA & HoB).
  destruct Hrh as (_ & _ & _ & HsA & HsB).
  rewrite HA in HoA. rewrite HB in HoB. split_and!; (done || lia).
Qed.

(** X6. The hunks of a diff come in increasing order and do not overlap:
    on both sides the first hunk starts at position 0 or later, and each
    further hunk starts at or after the end [start + count] of the one
    before. *)
Theorem hunks_in_order (linesA linesB : list string) (contextLines : nat) :
  ∃ changes, backtrack linesA linesB = Some changes ∧
    hunks_ordered 0 0 (group_hunks changes contextLines).
Proof.
  destruct (backtrack_indexed_spec linesA linesB)
    as (changes & Hbt & _ & _ & Hidx).
  exists changes. split; [done|].
  destruct (group_hunks_located changes contextLines Hidx) as (ranges & Hs & Hloc).
  exact (located_ordered changes ranges _ 0 Hs Hloc
           (group_hunks_counts_ok changes contextLines)).
Qed.

(** X7. No hunk holds context only: every hunk of the grouping has a line
    that is an insertion or a deletion. *)
Theorem hunk_has_change (changes : list Change) (contextLines : nat) :
  Forall (λ h, ∃ s, s ∈ lines h ∧ is_changed_line s = true)
         (group_hunks changes contextLines).
Proof.
  destruct (group_hunks_spans changes contextLines) as (spans & _ & Hsp).
  induction Hsp as [|sp h spans hs Hh _ IH]; constructor; [|done].
  destruct Hh as (Hfl & Hl & (c & Hf & Hc) & _ & Hlines).
  exists (change_line c). split.
  - rewrite Hlines, <- (slice_app changes sp.1 (S sp.1) (S sp.2)) by lia.
    rewrite (slice_singleton _ _ _ Hf), fmap_app. simpl.
    rewrite any_line_change by done.
    apply elem_of_app. right. apply elem_of_cons. by left.
  - unfold change_line. by case_decide.
Qed.

(** X8. The insertion and deletion lines of the hunks, read in order, are
    the lines of the non-Equal records of the change list, one each and in
    order; the number of context lines asked for does not change them. *)
Theorem changed_lines_kept (changes : list Change) (contextLines n : nat) :
  changed_lines (group_hunks changes contextLines) =
    change_line <$> filter (λ c, type c ≠ T_equal) changes ∧
  changed_lines (group_hunks changes contextLines) =
    changed_lines (group_hunks changes n).
Proof. by rewrite !group_hunks_changed_lines. Qed.

(** * The handler of [cc_diff_files] *)

Section split_join.

Lemma split_lines_not_nil s : split_lines s ≠ [].
Proof.
  destruct s as [|c t]; simpl; [done|].
  case_decide; [done|]. by destruct (split_lines t).
Qed.

Lemma split_lines_cons_nl t :
  split_lines (String (ascii_of_nat 10) t) = EmptyString :: split_lines t.
Proof. done. Qed.

Lemma concat_cons_cons (sep x y : string) (l : list string) :
  String.concat sep (x :: y :: l) = x +:+ sep +:+ String.concat sep (y :: l).
Proof. done. Qed.

(** Joining the pieces gives the string back. *)
Lemma join_split_lines s : String.concat newline (split_lines s) = s.
Proof.
  induction s as [|c t IH]; [done|]. simpl.
  case_decide as Hc.
  - pose proof (split_lines_not_nil t) as Hne.
    destruct (split_lines t) as [|l ls]; [done|].
    rewrite concat_cons_cons, IH. simpl. by rewrite Hc.
  - pose proof (split_lines_not_nil t) as Hne.
    destruct (split_lines t) as [|l ls]; [done|].
    destruct ls as [|l' ls]; [simpl in *; by subst|].
    rewrite concat_cons_cons in *. by rewrite <- IH.
Qed.

Lemma split_lines_inj s1 s2 : split_lines s1 = split_lines s2 → s1 = s2.
Proof.
  intros H. by rewrite <- (join_split_lines s1), <- (join_split_lines s2), H.
Qed.

Lemma split_lines_no_newline s :
  Forall (λ l, has_newline l = false) (split_lines s).
Proof.
  induction s as [|c t IH]; simpl; [by repeat constructor|].
  case_decide as Hc; [by constructor|].
  pose proof (split_lines_not_nil t) as Hne.
  destruct (split_lines t) as [|l ls]; [done|].
  apply Forall_cons in IH as [Hl Hls]. constructor; [|done].
  simpl. rewrite Hl. by rewrite bool_decide_false.
Qed.

Lemma split_lines_line x :
  has_newline x = false → split_lines x = [x].
Proof.
  induction x as [|c t IH]; [done|]. simpl.
  intros [Hc Ht]%orb_false_iff. apply bool_decide_eq_false in Hc.
  rewrite decide_False by done. by rewrite IH.
Qed.

Lemma split_lines_app x rest :
  has_newline x = false →
  split_lines (x +:+ newline +:+ rest) = x :: split_lines rest.
Proof.
  induction x as [|c t IH]; intros Hx.
  - apply split_lines_cons_nl.
  - simpl in Hx. apply orb_false_iff in Hx as [Hc Ht].
    apply bool_decide_eq_false in Hc.
    change (String c t +:+ newline +:+ rest)
      with (String c (t +:+ newline +:+ rest)).
    simpl. rewrite decide_False by done.
    change (String.append t (String (ascii_of_nat 10) rest))
      with (t +:+ newline +:+ rest).
    by rewrite IH.
Qed.

(** Splitting the join of lines without a newline gives the lines back. *)
Lemma split_join_lines (l : list string) :
  l ≠ [] → Forall (λ x, has_newline x = false) l →
  split_lines (String.concat newline l) = l.
Proof.
  induction l as [|x l IH]; [done|]. intros _ Hl.
  apply Forall_cons in Hl as [Hx Hl].
  destruct l as [|y l]; [by apply split_lines_line|].
  rewrite concat_cons_cons, split_lines_app by done.
  by rewrite IH.
Qed.

Lemma has_newline_app s1 s2 :
  has_newline (s1 +:+ s2) = has_newline s1 || has_newline s2.
Proof.
  induction s1 as [|c t IH]; [done|]. simpl. by rewrite IH, orb_assoc.
Qed.

Lemma uint_no_newline (d : Decimal.uint) :
  has_newline (NilEmpty.string_of_uint d) = false.
Proof. induction d; simpl; done. Qed.

Lemma num_no_newline z : has_newline (num z) = false.
Proof.
  unfold num, NilZero.string_of_int, NilZero.string_of_uint.
  destruct (Z.to_int z) as [d|d]; destruct d; simpl;
    try done; apply uint_no_newline.
Qed.

Lemma hunk_header_no_newline h : has_newline (hunk_header h) = false.
Proof.
  unfold hunk_header. by rewrite !has_newline_app, !num_no_newline.
Qed.

End split_join.

Section diff_files_counting.

Lemma count_changes_acc (l : list string) : ∀ acc,
  foldl count_step acc l =
    (acc.1 + length (filter (λ s, is_added s = true) l),
     acc.2 + length (filter (λ s, is_removed s = true) l)).
Proof.
  induction l as [|x l IH]; intros [a r]; simpl.
  { f_equal; lia. }
  rewrite IH. unfold count_step. simpl.
  rewrite !filter_cons.
  destruct (is_added x), (is_removed x); simpl; f_equal; lia.
Qed.

Lemma count_changes_filter (l : list string) :
  count_changes l =
    (length (filter (λ s, is_added s = true) l),
     length (filter (λ s, is_removed s = true) l)).
Proof. unfold count_changes. by rewrite count_changes_acc. Qed.

(** Neither the two file lines nor the hunk headers are counted. *)
Lemma filter_report_lines (P : string → bool) (fileA fileB : string)
    (hs : list DiffHunk) :
  P ("--- " +:+ fileA) = false → P ("+++ " +:+ fileB) = false →
  (∀ h, P (hunk_header h) = false) →
  filter (λ s, P s = true)
    (["--- " +:+ fileA; "+++ " +:+ fileB] ++
     concat (map (λ h, hunk_header h :: lines h) hs))
  = filter (λ s, P s = true) (body_lines hs).
Proof.
  intros HA HB Hh. rewrite filter_app.
  rewrite filter_cons_False by (by rewrite HA).
  rewrite filter_cons_False by (by rewrite HB).
  rewrite filter_nil, app_nil_l. unfold body_lines.
  induction hs as [|h hs IH]; [done|]. simpl.
  rewrite filter_cons_False by (by rewrite Hh).
  by rewrite !filter_app, IH.
Qed.

Lemma prefix_empty (s : string) : String.prefix EmptyString s = true.
Proof. by destruct s. Qed.

Lemma is_added_change_line (c : Change) :
  type c ≠ T_equal → is_added (change_line c) = true ↔ counted_insert c.
Proof.
  intros Hc. unfold counted_insert, change_line, is_added, del_line, ins_line.
  destruct (decide (type c = T_delete)) as [Hd|Hd]; simpl.
  - split; [done|]. intros [Hi _]. congruence.
  - assert (type c = T_insert) as Hi by (by destruct (type c)).
    rewrite prefix_empty.
    destruct (String.prefix "++" (text c)); simpl; split; try done.
    by intros [_ ?].
Qed.

Lemma is_removed_change_line (c : Change) :
  type c ≠ T_equal → is_removed (change_line c) = true ↔ counted_delete c.
Proof.
  intros Hc. unfold counted_delete, change_line, is_removed, del_line, ins_line.
  destruct (decide (type c = T_delete)) as [Hd|Hd]; simpl.
  - rewrite prefix_empty.
    destruct (String.prefix "--" (text c)); simpl; split; try done.
    by intros [_ ?].
  - split; [done|]. by intros [? _].
Qed.

Lemma counted_lines (P : string → bool) (Q : Change → Prop)
    `{!∀ c, Decision (Q c)} (l : list Change) :
  (∀ c, type c ≠ T_equal → P (change_line c) = true ↔ Q c) →
  (∀ c, Q c → type c ≠ T_equal) →
  length (filter (λ s, P s = true)
            (change_line <$> filter (λ c, type c ≠ T_equal) l))
  = length (filter Q l).
Proof.
  intros HPQ HQ. induction l as [|c l IH]; [done|].
  rewrite (filter_cons Q), (filter_cons (λ c, type c ≠ T_equal)).
  destruct (decide (type c ≠ T_equal)) as [Hc|Hc].
  - rewrite fmap_cons, filter_cons.
    destruct (decide (P (change_line c) = true)) as [HP|HP];
      destruct (decide (Q c)) as [Hq|Hq]; simpl; try by rewrite IH.
    + by apply HPQ in HP.
    + by apply HPQ in Hq.
  - destruct (decide (Q c)) as [Hq|Hq]; [by apply HQ in Hq|done].
Qed.

Lemma counted_insert_lines (l : list Change) :
  length (filter (λ s, is_added s = true)
            (change_line <$> filter (λ c, type c ≠ T_equal) l))
  = length (filter counted_insert l).
Proof.
  apply counted_lines; [apply is_added_change_line|].
  intros c [Hc _]. by rewrite Hc.
Qed.

Lemma counted_delete_lines (l : list Change) :
  length (filter (λ s, is_removed s = true)
            (change_line <$> filter (λ c, type c ≠ T_equal) l))
  = length (filter counted_delete l).
Proof.
  apply counted_lines; [apply is_removed_change_line|].
  intros c [Hc _]. by rewrite Hc.
Qed.

Lemma slice_elem_of (l : list Change) i j c : c ∈ slice l i j → c ∈ l.
Proof.
  unfold slice. intros Hc.
  apply (subseteq_take (j - i)) in Hc. by apply (subseteq_drop i) in Hc.
Qed.

(** The texts of the records of an alignment are lines of the inputs. *)
Lemma replay_texts (l : list Change) (P : string → Prop) :
  Forall P (replay_A l) → Forall P (replay_B l) →
  Forall (λ c, P (text c)) l.
Proof.
  induction l as [|c l IH]; [constructor|].
  rewrite replay_A_cons, replay_B_cons. intros HA HB.
  destruct (type c) eqn:Hc; simpl in HA, HB.
  - apply Forall_cons in HA as [? HA]. apply Forall_cons in HB as [? HB].
    constructor; [done|by apply IH].
  - apply Forall_cons in HA as [? HA]. constructor; [done|by apply IH].
  - apply Forall_cons in HB as [? HB]. constructor; [done|by apply IH].
Qed.

Lemma group_hunks_no_newline (changes : list Change) (contextLines : nat) :
  Forall (λ c, has_newline (text c) = false) changes →
  Forall (λ s, has_newline s = false)
         (concat (map (λ h, hunk_header h :: lines h)
                      (group_hunks changes contextLines))).
Proof.
  intros Htexts.
  assert (∀ l : list Change, (∀ c, c ∈ l → c ∈ changes) →
            Forall (λ s, has_newline s = false) (ctx_line <$> l) ∧
            Forall (λ s, has_newline s = false) (any_line <$> l)) as Hsub.
  { intros l Hl. split; apply Forall_fmap, Forall_forall; intros c Hc;
      apply Hl in Hc; rewrite Forall_forall in Htexts; specialize (Htexts c Hc);
      unfold any_line, change_line, ctx_line, del_line, ins_line; simpl;
      repeat (case_match || case_decide); simpl; done. }
  destruct (group_hunks_spans changes contextLines) as (spans & _ & Hsp).
  induction Hsp as [|sp h spans hs Hh _ IH]; [constructor|]. simpl.
  constructor; [apply hunk_header_no_newline|].
  apply Forall_app. split; [|done].
  destruct Hh as (_ & _ & _ & _ & ->).
  rewrite !Forall_app. split_and!;
    apply Hsub; intros c; apply slice_elem_of.
Qed.

End diff_files_counting.

(** ** The call of [computeUnifiedDiff] *)

Section diff_call.

(** No hunk has more lines than the change list has records. *)
Lemma hunk_lines_bound (changes : list Change) (contextLines : nat) :
  Forall (λ h, length (lines h) ≤ length changes)
         (group_hunks changes contextLines).
Proof.
  destruct (group_hunks_spans changes contextLines) as (spans & _ & Hsp).
  induction Hsp as [|sp h spans hs Hh _ IH]; constructor; [|done].
  destruct Hh as (Hfl & Hl & _ & _ & ->).
  pose proof (run_before_le changes sp.1).
  pose proof (run_after_le changes sp.2).
  rewrite !length_app, !length_fmap, !length_slice by lia. lia.
Qed.

Lemma render_loop_returns (max_args : nat) (hs : list DiffHunk) :
  Forall (λ h, length (lines h) ≤ max_args) hs →
  ∀ output,
    render_loop max_args hs output =
      Returns (output ++ concat (map (λ h, hunk_header h :: lines h) hs)).
Proof.
  induction 1 as [|h hs Hh _ IH]; intros output; simpl.
  { by rewrite app_nil_r. }
  unfold push_spread. rewrite decide_True by done.
  rewrite IH. f_equal. by rewrite <- !app_assoc.
Qed.

(** What a call does: it throws when the change list has more records
    than a call takes arguments, and returns the report otherwise. *)
Lemma computeUnifiedDiff_run_spec (max_args : nat)
    (linesA linesB : list string) (contextLines : nat)
    (fileA fileB : string) :
  ∃ changes,
    backtrack linesA linesB = Some changes ∧
    replay_A changes = linesA ∧ replay_B changes = linesB ∧
    length linesA ≤ length changes ∧ length linesB ≤ length changes ∧
    length changes ≤ length linesA + length linesB ∧
    (group_hunks changes contextLines = [] ↔ linesA = linesB) ∧
    (linesA = linesB → length changes = length linesA) ∧
    computeUnifiedDiff_run max_args linesA linesB contextLines fileA fileB
      = Some (if decide (length changes ≤ max_args)
              then Returns (render (group_hunks changes contextLines)
                              fileA fileB)
              else Throws).
Proof.
  unfold computeUnifiedDiff_run, computeUnifiedDiff_run_fuel, backtrack.
  destruct (backtrack_fuel_spec linesA linesB (length linesA + length linesB)
              ltac:(done)) as (changes & Hbt & HA & HB & HE).
  pose proof (alignment_counts linesA linesB changes (conj HA HB)) as Hcount.
  pose proof (count_type_total changes) as Htotal.
  pose proof (length_replay_A changes) as HlA. rewrite HA in HlA.
  pose proof (length_replay_B changes) as HlB. rewrite HB in HlB.
  assert (linesA = linesB → Forall (λ c, type c = T_equal) changes) as Hsame.
  { intros Heq. rewrite <- Heq in HB, HE, Hcount.
    rewrite lcs_len_diag in HE by done. apply no_change_all_equal; lia. }
  exists changes. rewrite Hbt. split_and!; [done|done|done|lia|lia|lia| | |].
  - split; [|intros Heq; by apply group_hunks_nil_iff, Hsame].
    intros Hnil%group_hunks_nil_iff. rewrite <- HA, <- HB.
    by apply all_equal_replay.
  - intros Heq. pose proof (Hsame Heq) as Hall.
    rewrite <- Heq in HE. rewrite lcs_len_diag in HE by done. 
    assert (count_type T_delete changes = 0 ∧ count_type T_insert changes = 0)
      as [? ?]; [|lia].
    rewrite <- Heq in Hcount. lia.
  - simpl. f_equal. unfold push_spread.
    destruct (decide (length changes ≤ max_args)) as [Hle|Hgt]; [|done].
    simpl. unfold render. case_decide as Hnil; [done|].
    rewrite render_loop_returns; [done|].
    eapply Forall_impl; [apply hunk_lines_bound|]. simpl. intros h ?. lia.
Qed.

(** A side with more lines than a call takes arguments makes the call
    throw. *)
Lemma computeUnifiedDiff_run_throws (max_args : nat)
    (linesA linesB : list string) (contextLines : nat)
    (fileA fileB : string) :
  max_args < length linesA ∨ max_args < length linesB →
  computeUnifiedDiff_run max_args linesA linesB contextLines fileA fileB
    = Some Throws.
Proof.
  intros Hlong.
  destruct (computeUnifiedDiff_run_spec max_args linesA linesB contextLines
              fileA fileB) as (changes & _ & _ & _ & ? & ? & _ & _ & _ & ->).
  by rewrite decide_False by lia.
Qed.

(** A call that returns, returns the string of [computeUnifiedDiff]. *)
Lemma computeUnifiedDiff_run_value (max_args : nat)
    (linesA linesB : list string) (contextLines : nat)
    (fileA fileB out : string) :
  computeUnifiedDiff_run max_args linesA linesB contextLines fileA fileB
    = Some (Returns out) →
  computeUnifiedDiff linesA linesB contextLines fileA fileB = Some out.
Proof.
  destruct (computeUnifiedDiff_run_spec max_args linesA linesB contextLines
              fileA fileB) as (changes & Hbt & _ & _ & _ & _ & _ & _ & _ & ->).
  case_decide; [|done]. intros [= <-].
  unfold computeUnifiedDiff, computeUnifiedDiff_fuel.
  unfold backtrack in Hbt. by rewrite Hbt.
Qed.

End diff_call.

(** C9. [computeUnifiedDiff] does not return a string on every input.  Its
    loops end: the backtracking loop strictly decreases [i + j], so it runs
    at most [length linesA + length linesB] times, and the other loops walk
    the change list.  But the copy [changes.push(...backtrack)] passes one
    argument per record, and a call takes only so many: whatever that number
    is for the engine, the diff against a file of one more line throws a
    RangeError instead of returning. *)
Theorem computeUnifiedDiff_spread_throws (max_args : nat)
    (linesA : list string) (contextLines : nat) (fileA fileB : string) :
  computeUnifiedDiff_run max_args linesA (replicate (S max_args) "x")
    contextLines fileA fileB = Some Throws ∧
  (∀ linesB dp s, bt_cond s = true →
     bt_i (bt_body dp linesA linesB s) + bt_j (bt_body dp linesA linesB s)
       < bt_i s + bt_j s) ∧
  (∀ linesB, ∃ outcome,
     computeUnifiedDiff_run max_args linesA linesB contextLines fileA fileB
       = Some outcome ∧
     (length linesA + length linesB ≤ max_args →
      ∃ out, outcome = Returns out)).
Proof.
  split_and!.
  - apply computeUnifiedDiff_run_throws. right. rewrite length_replicate. lia.
  - intros linesB dp s. apply bt_body_decreases.
  - intros linesB.
    destruct (computeUnifiedDiff_run_spec max_args linesA linesB contextLines
                fileA fileB) as (changes & _ & _ & _ & _ & _ & ? & _ & _ & ->).
    eexists. split; [done|]. intros Hle.
    rewrite decide_True by lia. by eexists.
Qed.

(** X9. The numbers of added and removed lines that [cc_diff_files] prints
    are not the numbers of insertions and deletions of the diff: a line is
    counted as added only if it starts with [+] and not with [+++], so an
    inserted line whose own text starts with [++] is left out, and likewise
    a deleted line whose text starts with [--].  For two readable files with
    different contents, of no more lines together than a call takes
    arguments, and paths without a newline, the result is the report of
    the diff of their lines with exactly these counts. *)
Theorem diff_files_counts (env : DiffFilesEnv) (file_a file_b : string)
    (context_lines : option nat) (contentA contentB : string) :
  pathExists env (normalizePath env file_a) = true →
  pathExists env (normalizePath env file_b) = true →
  readFile env (normalizePath env file_a) = inl contentA →
  readFile env (normalizePath env file_b) = inl contentB →
  contentA ≠ contentB →
  length (split_lines contentA) + length (split_lines contentB)
    ≤ maxArgs env →
  has_newline (normalizePath env file_a) = false →
  has_newline (normalizePath env file_b) = false →
  ∃ changes,
    backtrack (split_lines contentA) (split_lines contentB) = Some changes ∧
    group_hunks changes (default 3 context_lines) ≠ [] ∧
    cc_diff_files env file_a file_b context_lines =
      Some (mkToolResult false
        (String.concat newline
           [t_header env (basename env (normalizePath env file_a))
                         (basename env (normalizePath env file_b));
            EmptyString;
            t_linesChanged env (length (filter counted_insert changes))
                               (length (filter counted_delete changes));
            EmptyString;
            "```diff";
            render (group_hunks changes (default 3 context_lines))
                   (normalizePath env file_a) (normalizePath env file_b);
            "```"])).
Proof.
  intros HeA HeB HrA HrB Hne Hmax HnA HnB.
  set (fileA := normalizePath env file_a) in *.
  set (fileB := normalizePath env file_b) in *.
  set (cl := default 3 context_lines).
  destruct (computeUnifiedDiff_run_spec (maxArgs env) (split_lines contentA)
              (split_lines contentB) cl fileA fileB)
    as (changes & Hbt & HA & HB & _ & _ & Hlen & Hnil & _ & Hdiff).
  rewrite decide_True in Hdiff by lia.
  assert (group_hunks changes cl ≠ []) as Hhs.
  { intros Hhs%Hnil. by apply split_lines_inj in Hhs. }
  exists changes. split_and!; [done..|].
  assert (split_lines (render (group_hunks changes cl) fileA fileB) =
            ["--- " +:+ fileA; "+++ " +:+ fileB] ++
            concat (map (λ h, hunk_header h :: lines h) (group_hunks changes cl)))
    as Hlines.
  { unfold render. rewrite decide_False by done.
    apply split_join_lines; [done|].
    apply Forall_app. split.
    - repeat constructor; by rewrite has_newline_app.
    - apply group_hunks_no_newline.
      apply (replay_texts changes (λ s, has_newline s = false));
        [rewrite HA|rewrite HB]; apply split_lines_no_newline. }
  assert (count_changes (split_lines (render (group_hunks changes cl) fileA fileB))
            = (length (filter counted_insert changes),
               length (filter counted_delete changes))) as Hcount.
  { rewrite Hlines, count_changes_filter.
    rewrite !filter_report_lines by done.
    rewrite (group_hunks_lines changes cl is_added) by done.
    rewrite (group_hunks_lines changes cl is_removed) by done.
    by rewrite counted_insert_lines, counted_delete_lines. }
  unfold cc_diff_files. fold fileA fileB cl.
  rewrite HeA, HeB, HrA, HrB. simpl.
  rewrite decide_False by done. rewrite Hdiff. simpl.
  by rewrite Hcount.
Qed.

(** X10. The shortcut that [cc_diff_files] takes for equal contents agrees
    with the diff engine.  A call of [computeUnifiedDiff] on the lines of
    two contents ends; if it returns the empty string the contents are
    equal, so the handler, which skips the call for equal contents, never
    prints an empty diff block; and for equal contents of no more lines
    than a call takes arguments the call does return the empty string. *)
Theorem diff_files_identical_iff (max_args : nat) (contentA contentB : string)
    (contextLines : nat) (fileA fileB : string) :
  ∃ outcome,
    computeUnifiedDiff_run max_args (split_lines contentA)
      (split_lines contentB) contextLines fileA fileB = Some outcome ∧
    (outcome = Returns EmptyString → contentA = contentB) ∧
    (contentA = contentB → length (split_lines contentA) ≤ max_args →
     outcome = Returns EmptyString).
Proof.
  destruct (computeUnifiedDiff_run_spec max_args (split_lines contentA)
              (split_lines contentB) contextLines fileA fileB)
    as (changes & _ & _ & _ & _ & _ & _ & Hnil & Hsame & ->).
  eexists. split; [done|]. split.
  - case_decide; [|done]. intros [= Hout].
    apply render_empty_iff, Hnil in Hout. by apply split_lines_inj.
  - intros Heq Hle. subst contentB.
    rewrite decide_True by (by rewrite Hsame).
    f_equal. apply render_empty_iff. by apply Hnil.
Qed.

(** X11. [cc_diff_files] always answers.  The answer is no error exactly
    when both paths exist, both reads succeed, and the contents are equal
    or the call of [computeUnifiedDiff] returns; a missing first file is
    reported without looking at the second path.  Two readable files of
    no more lines together than a call takes arguments never give an
    error; two readable files with different contents, one of them with
    more lines than that, give the error of the RangeError that the
    handler catches. *)
Theorem diff_files_errors (env : DiffFilesEnv) (file_a file_b : string)
    (context_lines : option nat) :
  ∃ r, cc_diff_files env file_a file_b context_lines = Some r ∧
    (isError r = false ↔
       pathExists env (normalizePath env file_a) = true ∧
       pathExists env (normalizePath env file_b) = true ∧
       ∃ contentA contentB,
         readFile env (normalizePath env file_a) = inl contentA ∧
         readFile env (normalizePath env file_b) = inl contentB ∧
         (contentA = contentB ∨
          ∃ out, computeUnifiedDiff_run (maxArgs env) (split_lines contentA)
                   (split_lines contentB) (default 3 context_lines)
                   (normalizePath env file_a) (normalizePath env file_b)
                 = Some (Returns out))) ∧
    (pathExists env (normalizePath env file_a) = false →
     r = mkToolResult true (t_fileNotFound env (normalizePath env file_a))) ∧
    (∀ contentA contentB,
       pathExists env (normalizePath env file_a) = true →
       pathExists env (normalizePath env file_b) = true →
       readFile env (normalizePath env file_a) = inl contentA →
       readFile env (normalizePath env file_b) = inl contentB →
       (length (split_lines contentA) + length (split_lines contentB)
          ≤ maxArgs env → isError r = false) ∧
       (contentA ≠ contentB →
        maxArgs env < length (split_lines contentA) ∨
        maxArgs env < length (split_lines contentB) →
        r = mkToolResult true (t_error env (rangeErrorMessage env)))).
Proof.
  unfold cc_diff_files.
  destruct (pathExists env (normalizePath env file_a)) eqn:HeA; simpl.
  2: { eexists. split; [done|]. split_and!; [|done|done]. simpl.
       split; [done|]. by intros (? & _). }
  destruct (pathExists env (normalizePath env file_b)) eqn:HeB; simpl.
  2: { eexists. split; [done|]. split_and!; [|done|done]. simpl.
       split; [done|]. by intros (_ & ? & _). }
  destruct (readFile env (normalizePath env file_a)) as [contentA|msg] eqn:HrA.
  2: { eexists. split; [done|]. split_and!; [|done|done]. simpl.
       split; [done|]. by intros (_ & _ & ? & ? & ? & _). }
  destruct (readFile env (normalizePath env file_b)) as [contentB|msg] eqn:HrB.
  2: { eexists. split; [done|]. split_and!; [|done|done]. simpl.
       split; [done|]. by intros (_ & _ & ? & ? & _ & ? & _). }
  case_decide as Heq.
  { eexists. split; [done|]. split_and!; [|done|]; simpl.
    - split; [|done]. intros _. split_and!; [done..|]. eauto 6.
    - intros ? ? _ _ [= <-] [= <-]. done. }
  destruct (computeUnifiedDiff_run_spec (maxArgs env) (split_lines contentA)
              (split_lines contentB) (default 3 context_lines)
              (normalizePath env file_a) (normalizePath env file_b))
    as (changes & _ & _ & _ & HlA & HlB & Hlen & _ & _ & Hrun).
  rewrite Hrun. simpl.
  destruct (decide (length changes ≤ maxArgs env)) as [Hle|Hgt]; simpl.
  - eexists. split; [done|]. split_and!; [|done|]; simpl.
    + split; [|done]. intros _. split_and!; [done..|].
      exists contentA, contentB. split_and!; [done..|]. right.
      rewrite Hrun. by eexists.
    + intros ? ? _ _ [= <-] [= <-]. split; [done|]. intros _ ?. lia.
  - eexists. split; [done|]. split_and!; [|done|]; simpl.
    + split; [done|].
      intros (_ & _ & cA & cB & [= <-] & [= <-] & [?|[out Hout]]); [done|].
      by rewrite Hrun in Hout.
    + intros ? ? _ _ [= <-] [= <-]. split; [lia|done].
Qed.

Lemma diff_files_counts_witness :
  ∃ changes,
    backtrack (split_lines "x
++y
z") (split_lines "x
z
++i
w") = Some changes ∧
    count_type T_insert changes = 2 ∧
    length (filter counted_insert changes) = 1 ∧
    result_text <$> cc_diff_files sample_env "a.txt" "b.txt" (Some 1) =
      Some (String.concat newline
        ["Diff: a.txt vs b.txt"; EmptyString; "+1 -1"; EmptyString; "```diff";
         render (group_hunks changes 1) "a.txt" "b.txt"; "```"]).
Proof.
  assert (length (split_lines "x
++y
z") + length (split_lines "x
z
++i
w") ≤ maxArgs sample_env) as Hmax by (vm_compute; lia).
  destruct (diff_files_counts sample_env "a.txt" "b.txt" (Some 1)
              "x
++y
z" "x
z
++i
w" eq_refl eq_refl eq_refl eq_refl ltac:(discriminate) Hmax eq_refl eq_refl)
    as (changes & Hbt & _ & Hres).
  exists changes. split; [exact Hbt|].
  assert (changes = [mkChange T_equal (Some 0) (Some 0) "x";
                     mkChange T_delete (Some 1) None "++y";
                     mkChange T_equal (Some 2) (Some 1) "z";
                     mkChange T_insert None (Some 2) "++i";
                     mkChange T_insert None (Some 3) "w"]) as ->.
  { vm_compute in Hbt. injection Hbt as <-. reflexivity. }
  rewrite Hres. split; [reflexivity|]. split; reflexivity.
Defined.

(** * classifyImport and the handler of [cc_organize_imports] *)

Section code_unit_strings.

Lemma startsWith_app (p s : jsstr) : startsWith p (p ++ s) = true.
Proof. unfold startsWith. by rewrite take_app_length, bool_decide_eq_true_2. Qed.

Lemma startsWith_split (p s : jsstr) :
  startsWith p s = true → s = p ++ drop (length p) s.
Proof.
  unfold startsWith. intros H%bool_decide_eq_true.
  rewrite <- (take_drop (length p) s) at 1. by rewrite H.
Qed.

Lemma split_on_not_nil sep s : split_on sep s ≠ [].
Proof.
  destruct s as [|c t]; simpl; [done|].
  case_decide; [done|]. by destruct (split_on sep t).
Qed.

Lemma split_on_head (sep : N) (p rest : jsstr) :
  sep ∉ p → head (split_on sep (p ++ sep :: rest)) = Some p.
Proof.
  induction p as [|c p IH]; intros Hp; simpl.
  { by rewrite decide_True. }
  apply not_elem_of_cons in Hp as [Hc Hp]. rewrite decide_False by done.
  specialize (IH Hp). destruct (split_on sep (p ++ sep :: rest)); [done|].
  simpl in *. by injection IH as ->.
Qed.

Lemma split_on_head_whole (sep : N) (p : jsstr) :
  sep ∉ p → head (split_on sep p) = Some p.
Proof.
  induction p as [|c p IH]; intros Hp; simpl; [done|].
  apply not_elem_of_cons in Hp as [Hc Hp]. rewrite decide_False by done.
  specialize (IH Hp). destruct (split_on sep p); [done|].
  simpl in *. by injection IH as ->.
Qed.

Lemma drop_while_app_all (p : N → bool) (ws s : jsstr) :
  Forall (λ c, p c = true) ws → drop_while p (ws ++ s) = drop_while p s.
Proof. induction 1 as [|c ws Hc _ IH]; [done|]. simpl. by rewrite Hc. Qed.

Lemma drop_while_stop (p : N → bool) (s : jsstr) :
  (∀ c, head s = Some c → p c = false) → drop_while p s = s.
Proof. destruct s as [|c s]; [done|]. intros H. simpl. by rewrite (H c). Qed.

Lemma take_while_app_all (p : N → bool) (m s : jsstr) :
  Forall (λ c, p c = true) m → (∀ c, head s = Some c → p c = false) →
  take_while p (m ++ s) = m.
Proof.
  intros Hm Hs. induction Hm as [|c m Hc _ IH]; simpl.
  - destruct s as [|c s]; [done|]. simpl. by rewrite (Hs c).
  - by rewrite Hc, IH.
Qed.

End code_unit_strings.

Section classify_import.

Lemma topLevel_dotted (p rest : jsstr) :
  46%N ∉ p → topLevel (p ++ 46%N :: rest) = p ∧ topLevel p = p.
Proof.
  intros Hp. unfold topLevel.
  by rewrite split_on_head, split_on_head_whole.
Qed.

Lemma import_module_import (l : jsstr) :
  startsWith (u "import ") l = true → import_module l = u "import".
Proof.
  intros H%startsWith_split. rewrite H.
  generalize (drop (length (u "import ")) l). intros r.
  unfold import_module, capture_module. vm_compute. reflexivity.
Qed.

Lemma replace_from_token (m : jsstr) :
  Forall (λ c, is_ws c = false) m → replace_from m = m.
Proof.
  intros Hm. unfold replace_from.
  rewrite (drop_while_stop is_ws (drop 4 m)).
  - rewrite (bool_decide_eq_false_2 (drop 4 m ≠ drop 4 m)) by (by intros []).
    by rewrite andb_false_r.
  - intros c Hc. apply (Forall_drop _ 4) in Hm.
    destruct (drop 4 m) as [|c' m']; [done|]. injection Hc as ->.
    by apply Forall_cons in Hm as [? _].
Qed.

Lemma import_module_from (ws m rest : jsstr) :
  ws ≠ [] → Forall (λ c, is_ws c = true) ws →
  m ≠ [] → Forall (λ c, is_ws c = false) m →
  (∀ c, head rest = Some c → is_ws c = true) →
  import_module (u "from" ++ ws ++ m ++ rest) = m.
Proof.
  intros Hws1 Hws Hm1 Hm Hrest. unfold import_module, capture_module.
  rewrite startsWith_app.
  change (drop 4 (u "from" ++ ws ++ m ++ rest)) with (ws ++ m ++ rest).
  rewrite drop_while_app_all by done.
  assert (drop_while is_ws (m ++ rest) = m ++ rest) as ->.
  { apply drop_while_stop. destruct m as [|c m]; [done|].
    intros ? [= <-]. by apply Forall_cons in Hm as [? _]. }
  rewrite bool_decide_eq_true_2.
  2: { intros Heq. apply (f_equal length) in Heq. rewrite !length_app in Heq.
       destruct ws; [done|]. simpl in Heq. lia. }
  rewrite bool_decide_eq_true_2 by (by destruct m).
  simpl.
  rewrite take_while_app_all.
  - by apply replace_from_token.
  - eapply Forall_impl; [exact Hm|]. intros c Hc. simpl. by rewrite Hc.
  - intros c Hc. by rewrite (Hrest c Hc).
Qed.

End classify_import.

(** X12. [classifyImport] answers [local] exactly for the modules that start
    with a dot; any other module is classified as its top-level package,
    the part before the first dot. *)
Theorem classifyImport_top_level (p rest : jsstr) :
  46%N ∉ p → p ≠ [] →
  classifyImport (p ++ 46%N :: rest) = classifyImport p ∧
  (∀ m, classifyImport m = local ↔ startsWith (u ".") m = true).
Proof.
  intros Hp Hne. split.
  - assert (∀ s, startsWith (u ".") (p ++ s) = false) as Hdot.
    { intros s. destruct p as [|c p]; [done|].
      apply not_elem_of_cons in Hp as [Hc _].
      unfold startsWith. apply bool_decide_eq_false_2. simpl.
      change (u ".") with [46%N]. rewrite take_0. by intros [= ->]. }
    destruct (topLevel_dotted p rest Hp) as [Ht1 Ht2].
    unfold classifyImport. rewrite Hdot.
    pose proof (Hdot []) as Hdot'. rewrite app_nil_r in Hdot'. rewrite Hdot'.
    by rewrite Ht1, Ht2.
  - intros m. unfold classifyImport.
    destruct (startsWith (u ".") m); [done|].
    by case_bool_decide.
Qed.

Lemma classifyImport_top_level_witness :
  classifyImport (u "os" ++ 46%N :: u "path") = stdlib ∧
  classifyImport (46%N :: u "os") = local.
Proof.
  destruct (classifyImport_top_level (u "os") (u "path")) as (H1 & H2).
  - vm_compute. intros H. by repeat (apply elem_of_cons in H as [?|H]; [done|]);
      apply elem_of_nil in H.
  - done.
  - split; [|by apply H2]. rewrite H1. vm_compute. reflexivity.
Defined.

Section organize_imports.

Lemma uniqueImports_acc (l : list jsstr) : ∀ acc x,
  x ∈ foldl (λ acc l, if bool_decide (l ∈ acc) then acc else acc ++ [l]) acc l
  ↔ x ∈ acc ∨ x ∈ l.
Proof.
  induction l as [|y l IH]; intros acc x; simpl.
  { rewrite elem_of_nil. tauto. }
  rewrite IH, elem_of_cons. case_bool_decide as Hy.
  - split; [tauto|]. intros [?|[->|?]]; tauto.
  - rewrite elem_of_app, list_elem_of_singleton. tauto.
Qed.

Lemma uniqueImports_elem (l : list jsstr) x : x ∈ uniqueImports l ↔ x ∈ l.
Proof.
  unfold uniqueImports. rewrite uniqueImports_acc, elem_of_nil. tauto.
Qed.

Lemma sort_elem (l : list jsstr) x : x ∈ sort l ↔ x ∈ l.
Proof. unfold sort. by rewrite merge_sort_Permutation. Qed.

Lemma pop_empty_nil (l : list jsstr) :
  pop_empty l = [] ↔ Forall (λ x, x = []) l.
Proof.
  induction l as [|x l IH]; simpl; [done|].
  destruct (pop_empty l) as [|y k] eqn:Hk.
  - case_decide as Hx.
    + split; [|done]. intros _. constructor; [done|]. by apply IH.
    + split; [done|]. by intros [? _]%Forall_cons.
  - split; [done|]. intros [_ Hl]%Forall_cons. by apply IH in Hl.
Qed.

Lemma pop_empty_elem (l : list jsstr) x :
  (x ∈ pop_empty l → x ∈ l) ∧ (x ≠ [] → x ∈ l → x ∈ pop_empty l).
Proof.
  induction l as [|y l [IH1 IH2]]; simpl; [done|].
  destruct (pop_empty l) as [|z k] eqn:Hk.
  - apply pop_empty_nil in Hk. rewrite Forall_forall in Hk. split.
    + case_decide; [by intros ?%elem_of_nil|].
      intros ->%list_elem_of_singleton. by left.
    + intros Hx [->|Hin]%elem_of_cons.
      * rewrite decide_False by done. by apply list_elem_of_singleton.
      * by apply Hk in Hin.
  - split.
    + intros [->|Hin]%elem_of_cons; [by left|]. right. by apply IH1.
    + intros Hx [->|Hin]%elem_of_cons; [by left|]. right. by apply IH2.
Qed.

Lemma groups_elem (unique : list jsstr) x :
  (x ∈ futureImports unique ↔ x ∈ unique ∧ is_future x = true) ∧
  (x ∈ stdlibImports unique ↔
     x ∈ unique ∧ is_future x = false ∧
     classifyImport (import_module x) = stdlib) ∧
  (x ∈ thirdPartyImports unique ↔
     x ∈ unique ∧ classifyImport (import_module x) = third_party) ∧
  (x ∈ localImports unique ↔
     x ∈ unique ∧ classifyImport (import_module x) = local).
Proof.
  unfold futureImports, stdlibImports, thirdPartyImports, localImports.
  rewrite !sort_elem, !list_elem_of_filter. tauto.
Qed.

(** Every line found is in one of the four groups. *)
Lemma groups_cover (unique : list jsstr) x :
  x ∈ unique →
  x ∈ futureImports unique ∨ x ∈ stdlibImports unique ∨
  x ∈ thirdPartyImports unique ∨ x ∈ localImports unique.
Proof.
  intros Hx. destruct (groups_elem unique x) as (Hf & Hs & Ht & Hl).
  rewrite Hf, Hs, Ht, Hl.
  destruct (is_future x); [tauto|].
  destruct (classifyImport (import_module x)); tauto.
Qed.

Lemma push_group_returns (max_args : nat) (block group : list jsstr) :
  length group < max_args →
  push_group max_args block group =
    Returns (block ++ if decide (group = []) then [] else group ++ [[]]).
Proof.
  intros Hlen. unfold push_group, push_spread. case_decide.
  - by rewrite app_nil_r.
  - rewrite decide_True; [done|]. rewrite length_app. simpl. lia.
Qed.

Lemma separated_elem (group : list jsstr) x :
  x ≠ [] → x ∈ (if decide (group = []) then [] else group ++ [[]]) ↔ x ∈ group.
Proof.
  intros Hx. case_decide as Hg; [by subst group|].
  rewrite elem_of_app, list_elem_of_singleton. tauto.
Qed.

Lemma sort_length (l : list jsstr) : length (sort l) = length l.
Proof. unfold sort. by rewrite merge_sort_Permutation. Qed.

Lemma uniqueImports_length_acc (l : list jsstr) : ∀ acc,
  length (foldl (λ acc l, if bool_decide (l ∈ acc) then acc else acc ++ [l])
                acc l)
  ≤ length acc + length l.
Proof.
  induction l as [|y l IH]; intros acc; simpl; [lia|].
  case_bool_decide.
  - pose proof (IH acc). lia.
  - pose proof (IH (acc ++ [y])) as H'. rewrite length_app in H'. simpl in H'.
    lia.
Qed.

Lemma uniqueImports_length (l : list jsstr) :
  length (uniqueImports l) ≤ length l.
Proof. apply (uniqueImports_length_acc l []). Qed.

(** With fewer lines than a call takes arguments, no push throws, and the
    block holds the lines of the four groups and empty lines. *)
Lemma newImportBlock_returns (max_args : nat) (unique : list jsstr) :
  length unique < max_args →
  ∃ block,
    newImportBlock max_args unique = Returns block ∧
    ∀ x, x ≠ [] →
      x ∈ block ↔
        x ∈ futureImports unique ∨ x ∈ stdlibImports unique ∨
        x ∈ thirdPartyImports unique ∨ x ∈ localImports unique.
Proof.
  intros Hlen.
  assert (∀ P `{!∀ x, Decision (P x)},
            length (sort (filter P unique)) < max_args) as Hgroup.
  { intros P ?. rewrite sort_length.
    pose proof (length_filter P unique). lia. }
  unfold newImportBlock.
  rewrite (push_group_returns _ _ (futureImports unique)) by apply Hgroup.
  rewrite (push_group_returns _ _ (stdlibImports unique)) by apply Hgroup.
  rewrite (push_group_returns _ _ (thirdPartyImports unique)) by apply Hgroup.
  rewrite (push_group_returns _ _ (localImports unique)) by apply Hgroup.
  eexists. split; [done|]. intros x Hx.
  match goal with |- x ∈ pop_empty ?l ↔ _ =>
    destruct (pop_empty_elem l x) as [H1 H2] end.
  rewrite !elem_of_app, !separated_elem, elem_of_nil in H1, H2 by done.
  split; [intros H%H1; tauto|intros H; apply H2; tauto].
Qed.

Lemma newImportBlock_lines (max_args : nat) (importLines : list jsstr) :
  length importLines < max_args →
  ∃ block,
    newImportBlock max_args (uniqueImports importLines) = Returns block ∧
    ∀ x, x ≠ [] → x ∈ block ↔ x ∈ importLines.
Proof.
  intros Hlen.
  destruct (newImportBlock_returns max_args (uniqueImports importLines))
    as (block & Hblock & Helem).
  { pose proof (uniqueImports_length importLines). lia. }
  exists block. split; [done|]. intros x Hx. rewrite (Helem x Hx). split.
  - destruct (groups_elem (uniqueImports importLines) x) as (Hf & Hs & Ht & Hl).
    rewrite Hf, Hs, Ht, Hl, uniqueImports_elem. tauto.
  - intros Hin. apply groups_cover. by apply uniqueImports_elem.
Qed.

Lemma is_import_line_not_nil x : is_import_line x = true → x ≠ [].
Proof. by intros H ->. Qed.

(** *** The scanning loop *)

Lemma scan_from_app (l1 l2 : list jsstr) : ∀ i st,
  scan_from i (l1 ++ l2) st = scan_from (i + length l1) l2 (scan_from i l1 st).
Proof.
  induction l1 as [|x l1 IH]; intros i st; simpl.
  { by rewrite Nat.add_0_r. }
  rewrite IH. f_equal. lia.
Qed.

Lemma scan_take_S (lines : list jsstr) k line :
  lines !! k = Some line →
  scan_from 0 (take (S k) lines) (mkImportScan (-1) (-1) [] false)
  = scan_step (scan_from 0 (take k lines) (mkImportScan (-1) (-1) [] false))
              k line.
Proof.
  intros Hk. rewrite (take_S_r _ _ _ Hk), scan_from_app. simpl.
  rewrite length_take. pose proof (lookup_lt_Some _ _ _ Hk).
  by replace (k `min` length lines) with k by lia.
Qed.

End organize_imports.

Section import_scan.
Context (lines : list jsstr).

Lemma region_extend s e k line :
  s ≤ e → e < k → lines !! k = Some line →
  take (S k - s) (drop s lines)
  = take (S e - s) (drop s lines) ++ take (k - S e) (drop (S e) lines) ++ [line].
Proof.
  intros Hse Hek Hk.
  replace (S k - s) with ((S e - s) + S (k - S e)) by lia.
  rewrite <- take_take_drop, drop_drop.
  replace (s + (S e - s)) with (S e) by lia. f_equal.
  apply take_S_r. rewrite lookup_drop. rewrite <- Hk. f_equal. lia.
Qed.

Lemma region_no_import e k :
  (∀ i line, e < i → i < k → lines !! i = Some line →
     is_import_line (trim line) = false) →
  filter (λ x, is_import_line x = true)
         (trim <$> take (k - S e) (drop (S e) lines)) = [].
Proof.
  intros Hno.
  assert (Forall (λ line, is_import_line (trim line) = false)
            (take (k - S e) (drop (S e) lines))) as Hall.
  { apply Forall_lookup. intros j line Hj.
    apply lookup_take_Some in Hj as [Hj Hjk]. rewrite lookup_drop in Hj.
    apply (Hno (S e + j)); (done || lia). }
  induction Hall as [|x l Hx _ IH]; [done|].
  rewrite fmap_cons, filter_cons_False by (by rewrite Hx). done.
Qed.

Lemma region_single k line :
  lines !! k = Some line → take (S k - k) (drop k lines) = [line].
Proof.
  intros Hk. replace (S k - k) with 1 by lia.
  by rewrite (drop_S _ _ _ Hk).
Qed.

Lemma scan_inv_step k line st :
  lines !! k = Some line → scan_inv lines k st →
  scan_inv lines (S k) (scan_step st k line).
Proof.
  intros Hk Hst. unfold scan_step.
  destruct (stopped st) eqn:Hstop.
  { destruct Hst as [(_ & _ & _ & ? & _)|(s & e & ? & ? & ? & ? & ? & ? & ? & _)];
      [congruence|].
    right. exists s, e. split_and!; try done; [lia|]. by rewrite Hstop. }
  destruct (is_import_line (trim line)) eqn:Himp.
  - right. destruct Hst as [(Hil & Hs & He & _ & Hno)
                           |(s & e & Hs & He & Hse & Hek & Hil & Hfirst & Hlast & Hno)].
    + exists k, k. simpl. rewrite Hs, Hil. split_and!; try done; [lia| |by eauto..|].
      * unfold import_region. rewrite (region_single k line Hk). simpl.
        by rewrite filter_cons_True, filter_nil by done.
      * intros _ i l' ? ?. lia.
    + exists s, k. simpl. rewrite Hs, decide_False by lia.
      split_and!; try done; [lia|lia| |by eauto|].
      * unfold import_region.
        rewrite (region_extend s e k line) by (done || lia).
        rewrite !fmap_app, !filter_app.
        rewrite (region_no_import e k) by (by apply Hno).
        rewrite Hil. unfold import_region. simpl.
        by rewrite filter_cons_True, filter_nil by done.
      * intros _ i l' ? ?. lia.
  - destruct Hst as [(Hil & Hs & He & _ & Hno)
                    |(s & e & Hs & He & Hse & Hek & Hil & Hfirst & Hlast & Hno)].
    + rewrite (bool_decide_eq_false_2 (importStart st ≠ (-1)%Z))
        by (intros H; by apply H).
      simpl. left. split_and!; try done.
      intros i l' Hi Hl'. destruct (decide (i = k)) as [->|]; [congruence|].
      apply (Hno i); (done || lia).
    + assert (∀ i l', e < i → i < S k → lines !! i = Some l' →
                is_import_line (trim l') = false) as Hno'.
      { intros i l' Hi1 Hi2 Hl'. destruct (decide (i = k)) as [->|]; [congruence|].
        apply (Hno Hstop i); (done || lia). }
      destruct (_ && _); [case_decide|]; right; exists s, e;
        split_and!; try done; lia.
Qed.

Lemma scan_inv_holds k :
  k ≤ length lines →
  scan_inv lines k (scan_from 0 (take k lines) (mkImportScan (-1) (-1) [] false)).
Proof.
  induction k as [|k IH]; intros Hk.
  { rewrite take_0. left. simpl. split_and!; try done. intros; lia. }
  destruct (lookup_lt_is_Some_2 lines k) as [line Hline]; [lia|].
  rewrite (scan_take_S _ _ _ Hline). apply scan_inv_step; [done|]. apply IH. lia.
Qed.

(** The import block found by the loop. *)
Lemma scan_imports_found :
  importLines (scan_imports lines) ≠ [] →
  ∃ s e,
    importStart (scan_imports lines) = Z.of_nat s ∧
    importEnd (scan_imports lines) = Z.of_nat e ∧
    s ≤ e ∧ e < length lines ∧
    importLines (scan_imports lines) =
      filter (λ x, is_import_line x = true) (import_region lines s e) ∧
    (∃ line, lines !! s = Some line ∧ is_import_line (trim line) = true) ∧
    (∃ line, lines !! e = Some line ∧ is_import_line (trim line) = true).
Proof.
  intros Hne. pose proof (scan_inv_holds (length lines) ltac:(done)) as Hinv.
  rewrite take_ge in Hinv by done. fold (scan_imports lines) in Hinv.
  destruct Hinv as [(? & _)|(s & e & ? & ? & ? & ? & ? & ? & ? & _)]; [done|].
  exists s, e. split_and!; done.
Qed.

End import_scan.

(** X13. The loop of [cc_organize_imports] that looks for the import block:
    when it finds an import line, [importStart] and [importEnd] are the
    indices of two import lines of the file, the first not after the
    second, and [importLines] holds, trimmed and in order, exactly the
    import lines between them; what else stands between them (blank lines,
    comments, and code that follows an import closely) is not recorded. *)
Theorem scan_imports_region (lines : list jsstr) :
  importLines (scan_imports lines) ≠ [] →
  ∃ s e,
    importStart (scan_imports lines) = Z.of_nat s ∧
    importEnd (scan_imports lines) = Z.of_nat e ∧
    s ≤ e ∧ e < length lines ∧
    importLines (scan_imports lines) =
      filter (λ x, is_import_line x = true) (import_region lines s e) ∧
    (∃ line, lines !! s = Some line ∧ is_import_line (trim line) = true) ∧
    (∃ line, lines !! e = Some line ∧ is_import_line (trim line) = true).
Proof. apply scan_imports_found. Qed.

Lemma scan_imports_region_witness :
  ∃ s e,
    importStart (scan_imports [u "# m"; u "import os"; u "x = 1"; u " from a import b"; u "y"])
      = Z.of_nat s ∧
    importEnd (scan_imports [u "# m"; u "import os"; u "x = 1"; u " from a import b"; u "y"])
      = Z.of_nat e ∧
    s = 1 ∧ e = 3.
Proof.
  destruct (scan_imports_region
              [u "# m"; u "import os"; u "x = 1"; u " from a import b"; u "y"])
    as (s & e & Hs & He & _).
  - vm_compute. discriminate.
  - exists s, e. split; [exact Hs|]. split; [exact He|].
    assert (importStart (scan_imports
              [u "# m"; u "import os"; u "x = 1"; u " from a import b"; u "y"])
            = 1%Z) as E1 by (vm_compute; reflexivity).
    assert (importEnd (scan_imports
              [u "# m"; u "import os"; u "x = 1"; u " from a import b"; u "y"])
            = 3%Z) as E2 by (vm_compute; reflexivity).
    rewrite E1 in Hs. rewrite E2 in He. split; lia.
Defined.

Lemma scan_first_inv_holds (lines : list jsstr) k :
  k ≤ length lines →
  scan_first_inv lines k
    (scan_from 0 (take k lines) (mkImportScan (-1) (-1) [] false)).
Proof.
  induction k as [|k IH]; intros Hk.
  { rewrite take_0. left. simpl. split_and!; try done. intros; lia. }
  destruct (lookup_lt_is_Some_2 lines k) as [line Hline]; [lia|].
  rewrite (scan_take_S _ _ _ Hline). specialize (IH ltac:(lia)).
  set (st := scan_from 0 (take k lines) (mkImportScan (-1) (-1) [] false)) in *.
  unfold scan_step. destruct (stopped st) eqn:Hstop.
  { destruct IH as [(_ & ? & _)|IH]; [congruence|by right]. }
  destruct (is_import_line (trim line)) eqn:Himp.
  - right. destruct IH as [(Hs & _ & Hno)|(s & Hs & Hno)]; simpl.
    + exists k. rewrite Hs. simpl. split; [done|]. exact Hno.
    + exists s. rewrite Hs, decide_False by lia. done.
  - destruct IH as [(Hs & _ & Hno)|(s & Hs & Hno)].
    + rewrite (bool_decide_eq_false_2 (importStart st ≠ (-1)%Z))
        by (intros H; by apply H).
      simpl. left. split_and!; try done.
      intros i l' Hi Hl'. destruct (decide (i = k)) as [->|]; [congruence|].
      apply (Hno i); (done || lia).
    + destruct (_ && _); [case_decide|]; right; exists s; done.
Qed.

Lemma scan_imports_first (lines : list jsstr) s :
  importStart (scan_imports lines) = Z.of_nat s →
  ∀ i line, i < s → lines !! i = Some line →
    is_import_line (trim line) = false.
Proof.
  intros Hs. pose proof (scan_first_inv_holds lines (length lines) ltac:(done))
    as Hinv.
  rewrite take_ge in Hinv by done. fold (scan_imports lines) in Hinv.
  destruct Hinv as [(Hneg & _)|(s' & Hs' & Hno)]; [lia|].
  assert (s' = s) as -> by lia. exact Hno.
Qed.

Lemma import_region_length (lines : list jsstr) s e :
  length (filter (λ x, is_import_line x = true) (import_region lines s e))
  ≤ length lines.
Proof.
  etrans; [apply length_filter|]. unfold import_region.
  rewrite length_fmap, length_take, length_drop. lia.
Qed.

Lemma import_region_elem (lines : list jsstr) s e i line :
  s ≤ i → i ≤ e → lines !! i = Some line →
  trim line ∈ import_region lines s e.
Proof.
  intros Hsi Hie Hi. unfold import_region. apply list_elem_of_fmap_2.
  apply list_elem_of_lookup. exists (i - s).
  rewrite lookup_take_lt by lia. rewrite lookup_drop. rewrite <- Hi.
  f_equal. lia.
Qed.

(** X14. What [cc_organize_imports] writes, for a file of fewer lines than
    a call takes arguments.  The lines before [importStart], the first
    import line of the file, and those after [importEnd], an import line
    too, are kept as they are; the lines from [importStart] to
    [importEnd] are replaced by the block built from the import lines
    found, which holds nothing but import lines and empty separator
    lines.  An import line is in the block exactly when it is (up to
    trimming) a line of the replaced region; any other line of the region
    that is not blank (a comment, a line of code) is in it no more: it is
    deleted from the file.  With [dry_run] nothing is written. *)
Theorem organize_rewrites_region (env : OrganizeEnv) (path content : jsstr) :
  oe_pathExists env (oe_normalizePath env path) = true →
  oe_readFile env (oe_normalizePath env path) = inl content →
  importLines (scan_imports (split_on 10 content)) ≠ [] →
  length (split_on 10 content) < oe_maxArgs env →
  (∀ c, oe_writeFile env (oe_normalizePath env path) c = None) →
  ∃ s e block,
    importStart (scan_imports (split_on 10 content)) = Z.of_nat s ∧
    importEnd (scan_imports (split_on 10 content)) = Z.of_nat e ∧
    s ≤ e ∧ e < length (split_on 10 content) ∧
    (∃ line, split_on 10 content !! s = Some line ∧
             is_import_line (trim line) = true) ∧
    (∃ line, split_on 10 content !! e = Some line ∧
             is_import_line (trim line) = true) ∧
    (∀ i line, i < s → split_on 10 content !! i = Some line →
       is_import_line (trim line) = false) ∧
    newImportBlock (oe_maxArgs env)
      (uniqueImports (importLines (scan_imports (split_on 10 content))))
      = Returns block ∧
    cc_organize_imports env path false =
      mkOrganizeResult false
        (org_text (cc_organize_imports env path false))
        (Some (oe_normalizePath env path,
               join [10%N] (take s (split_on 10 content) ++ block
                            ++ drop (S e) (split_on 10 content)))) ∧
    (∀ x, x ∈ block → x = [] ∨ is_import_line x = true) ∧
    (∀ x, is_import_line x = true →
       x ∈ block ↔ x ∈ import_region (split_on 10 content) s e) ∧
    (∀ i line, s ≤ i → i ≤ e → split_on 10 content !! i = Some line →
       trim line ≠ [] → is_import_line (trim line) = false →
       trim line ∉ block) ∧
    org_written (cc_organize_imports env path true) = None.
Proof.
  intros Hex Hread Hne Hmax Hwrite.
  set (lines := split_on 10 content) in *.
  destruct (scan_imports_found lines Hne)
    as (s & e & Hs & He & Hse & Hel & Hil & Hfirst & Hlast).
  destruct (newImportBlock_lines (oe_maxArgs env)
              (importLines (scan_imports lines))) as (block & Hnew & Hlines).
  { rewrite Hil. pose proof (import_region_length lines s e). lia. }
  exists s, e, block.
  assert (∀ x, x ≠ [] →
            x ∈ block
            ↔ is_import_line x = true ∧ x ∈ import_region lines s e) as Hblock.
  { intros x Hx. rewrite (Hlines x Hx), Hil, list_elem_of_filter. tauto. }
  split_and!; [done..| |done| | | | |].
  - by apply scan_imports_first.
  - unfold cc_organize_imports. rewrite Hex, Hread. simpl. fold lines.
    rewrite decide_False by done. rewrite Hnew, Hwrite. simpl.
    unfold newLines. rewrite Hs, He.
    replace (Z.of_nat e + 1)%Z with (Z.of_nat (S e)) by lia.
    by rewrite !Nat2Z.id.
  - intros x Hx. destruct (decide (x = [])) as [|Hn]; [by left|]. right.
    by apply Hblock in Hx as [? _].
  - intros x Hx. rewrite Hblock by (by apply is_import_line_not_nil). tauto.
  - intros i line Hsi Hie Hi Hnb Hni Hin.
    apply Hblock in Hin as [Himp _]; [|done]. congruence.
  - unfold cc_organize_imports. rewrite Hex, Hread. simpl. fold lines.
    rewrite decide_False by done. rewrite Hnew.
    by destruct (push_spread _ _ _).
Qed.

Lemma organize_rewrites_region_witness :
  importStart (scan_imports (split_on 10 (u "import os
x = 1
from os import path"))) = 0%Z ∧
  importEnd (scan_imports (split_on 10 (u "import os
x = 1
from os import path"))) = 2%Z ∧
  org_written (cc_organize_imports sample_organize_env (u "m.py") false) =
    Some (u "m.py", u "from os import path

import os") ∧
  org_written (cc_organize_imports sample_organize_env (u "m.py") true) = None.
Proof.
  destruct (organize_rewrites_region sample_organize_env (u "m.py")
              (u "import os
x = 1
from os import path") eq_refl eq_refl)
    as (s & e & block & _ & _ & _ & _ & _ & _ & _ & _ & Hres & _ & _ & _ & Hdry).
  - vm_compute. discriminate.
  - vm_compute. lia.
  - done.
  - split; [vm_compute; reflexivity|]. split; [vm_compute; reflexivity|].
    split; [|exact Hdry]. vm_compute. reflexivity.
Defined.

(** X15. An [import x] statement is never classified by its module: the
    expression that extracts the module name captures the keyword
    [import] itself, which is not in the list of standard modules, so
    every line that starts with [import ] lands in the third-party group,
    [import os] included, and in neither the stdlib nor the local group. *)
Theorem import_statement_third_party (unique : list jsstr) (l : jsstr) :
  l ∈ unique → startsWith (u "import ") l = true →
  import_module l = u "import" ∧
  l ∈ thirdPartyImports unique ∧
  (l ∉ stdlibImports unique) ∧ (l ∉ localImports unique).
Proof.
  intros Hin Hl. pose proof (import_module_import l Hl) as Hm.
  destruct (groups_elem unique l) as (_ & Hs & Ht & Hlo).
  assert (classifyImport (u "import") = third_party) as Hc
    by (vm_compute; reflexivity).
  rewrite Hs, Ht, Hlo, Hm, Hc. split; [done|]. split; [done|].
  split; [by intros (_ & _ & ?)|by intros (_ & ?)].
Qed.

Lemma import_statement_third_party_witness :
  u "import os" ∈ thirdPartyImports [u "import os"; u "from os import path"] ∧
  (u "import os" ∉ stdlibImports [u "import os"; u "from os import path"]) ∧
  classifyImport (u "os") = stdlib.
Proof.
  destruct (import_statement_third_party
              [u "import os"; u "from os import path"] (u "import os"))
    as (_ & H1 & H2 & _).
  - by left.
  - vm_compute. reflexivity.
  - split; [exact H1|]. split; [exact H2|]. vm_compute. reflexivity.
Defined.

(** X16. A [from m import ...] statement is classified by [m]: for a line
    made of [from], white space, a module name without white space, and
    then white space or nothing, the module extracted is that name, and
    the line is in the third-party or in the local group exactly when
    [classifyImport] says so of the name. *)
Theorem from_import_by_module (unique : list jsstr) (ws m rest : jsstr) :
  ws ≠ [] → Forall (λ c, is_ws c = true) ws →
  m ≠ [] → Forall (λ c, is_ws c = false) m →
  (∀ c, head rest = Some c → is_ws c = true) →
  (u "from" ++ ws ++ m ++ rest) ∈ unique →
  import_module (u "from" ++ ws ++ m ++ rest) = m ∧
  ((u "from" ++ ws ++ m ++ rest) ∈ thirdPartyImports unique
     ↔ classifyImport m = third_party) ∧
  ((u "from" ++ ws ++ m ++ rest) ∈ localImports unique
     ↔ classifyImport m = local).
Proof.
  intros Hws1 Hws Hm1 Hm Hrest Hin.
  pose proof (import_module_from ws m rest Hws1 Hws Hm1 Hm Hrest) as Hmod.
  destruct (groups_elem unique (u "from" ++ ws ++ m ++ rest)) as (_ & _ & Ht & Hl).
  rewrite Ht, Hl, Hmod. tauto.
Qed.

Lemma from_import_by_module_witness :
  import_module (u "from os import path") = u "os" ∧
  u "from os import path" ∉ thirdPartyImports [u "from os import path"].
Proof.
  destruct (from_import_by_module [u "from os import path"]
              [32%N] (u "os") (u " import path")) as (H1 & H2 & _).
  - done.
  - by repeat constructor.
  - done.
  - by repeat constructor.
  - intros c [= <-]. reflexivity.
  - by left.
  - split; [exact H1|]. intros H%H2. vm_compute in H. discriminate.
Defined.

(** * The handler of [cc_cleanup_file] *)

Section cleanup.

Lemma strip_trailing_elem pending content c :
  c ∈ strip_trailing pending content → c ∈ pending ∨ c ∈ content.
Proof.
  revert pending. induction content as [|d rest IH]; intros pending; simpl.
  { by intros ?%elem_of_nil. }
  rewrite (elem_of_cons rest).
  destruct (is_blank d).
  - intros H%IH. rewrite elem_of_app, list_elem_of_singleton in H. tauto.
  - destruct (is_line_terminator d).
    + rewrite elem_of_cons. intros [?|H%IH]; [tauto|].
      rewrite elem_of_nil in H. tauto.
    + rewrite elem_of_app, elem_of_cons. intros [?|[?|H%IH]]; [tauto..|].
      rewrite elem_of_nil in H. tauto.
Qed.

Lemma crlf_to_lf_elem content c : c ∈ crlf_to_lf content → c ∈ content.
Proof.
  assert (∀ n content, length content ≤ n →
            c ∈ crlf_to_lf content → c ∈ content) as H.
  { intros n. induction n as [|n IH]; intros [|a [|b rest]] Hlen; simpl;
      try done; simpl in Hlen; try lia.
    case_decide as Hab.
    - destruct Hab as [-> ->].
      intros [->|Hin]%elem_of_cons; [right; by left|].
      right. right. apply IH; [lia|done].
    - intros [->|Hin]%elem_of_cons; [by left|].
      right. apply (IH (b :: rest)); [simpl; lia|done]. }
  by apply (H (length content)).
Qed.

Lemma lf_to_crlf_elem content c :
  c ∈ lf_to_crlf content → c ∈ content ∨ c = 13%N.
Proof.
  unfold lf_to_crlf. intros (d & Hc & Hd)%list_elem_of_bind.
  case_decide as Hd10.
  - subst d. rewrite elem_of_cons, list_elem_of_singleton in Hc.
    destruct Hc as [->| ->]; [by right|by left].
  - apply list_elem_of_singleton in Hc. subst c. by left.
Qed.

Lemma remove_nul_spec content : 0%N ∉ remove_nul content.
Proof. unfold remove_nul. rewrite list_elem_of_filter. by intros [? _]. Qed.

(** *** Trailing white space *)

Lemma at_line_end_strip content :
  at_line_end (strip_trailing [] content) = true ∨
  (∃ c, head (strip_trailing [] content) = Some c ∧ is_blank c = false
        ∧ is_line_terminator c = false) ∨
  (∃ c, head (strip_trailing [] content) = Some c ∧ is_blank c = true).
Proof.
  destruct (strip_trailing [] content) as [|c s]; [by left|]. simpl.
  destruct (is_line_terminator c) eqn:?; [by left|].
  destruct (is_blank c) eqn:?; [right; right|right; left]; eauto.
Qed.

Lemma blank_not_terminator c : is_blank c = true → is_line_terminator c = false.
Proof.
  unfold is_blank, is_line_terminator.
  intros [->%bool_decide_eq_true| ->%bool_decide_eq_true]%orb_true_iff; done.
Qed.

Lemma ends_clean_app_blank (pending s : jsstr) :
  Forall (λ c, is_blank c = true) pending →
  ends_clean s = true → at_line_end s = false →
  ends_clean (pending ++ s) = true ∧ at_line_end (pending ++ s) = false.
Proof.
  intros Hp Hs Hend. induction Hp as [|c pending Hc _ [IH1 IH2]]; [done|].
  simpl. rewrite IH1, IH2, andb_false_r. split; [done|].
  by apply blank_not_terminator.
Qed.

(** The scan leaves no blank before a line end; its result starts with the
    pending run unless that run is dropped. *)
Lemma strip_trailing_clean content : ∀ pending,
  Forall (λ c, is_blank c = true) pending →
  ends_clean (strip_trailing pending content) = true ∧
  (pending ≠ [] → at_line_end (strip_trailing pending content) = true ∨
                  ∃ s, strip_trailing pending content = pending ++ s ∧
                       at_line_end s = false).
Proof.
  induction content as [|c rest IH]; intros pending Hp; simpl.
  { split; [done|]. intros _. by left. }
  destruct (is_blank c) eqn:Hb.
  - destruct (IH (pending ++ [c])) as [IH1 IH2].
    { apply Forall_app. split; [done|]. by repeat constructor. }
    split; [done|]. intros _.
    destruct IH2 as [?|(s & -> & Hs)]; [by destruct pending|by left|].
    right. exists (c :: s). rewrite <- app_assoc. split; [done|].
    simpl. by apply blank_not_terminator.
  - destruct (IH [] ltac:(constructor)) as [IH1 _].
    destruct (is_line_terminator c) eqn:Ht.
    + simpl. rewrite Hb. simpl. split; [done|]. intros _. by left.
    + assert (ends_clean (c :: strip_trailing [] rest) = true
              ∧ at_line_end (c :: strip_trailing [] rest) = false) as [H1 H2].
      { simpl. by rewrite Hb, IH1, Ht. }
      destruct (ends_clean_app_blank pending _ Hp H1 H2) as [? ?].
      split; [done|]. intros _. right. by eexists.
Qed.

Lemma at_line_end_crlf_to_lf content :
  at_line_end (crlf_to_lf content) = at_line_end content.
Proof.
  destruct content as [|a [|b rest]]; simpl; try done.
  case_decide as Hab; [|done]. by destruct Hab as [-> ->].
Qed.

Lemma ends_clean_crlf_to_lf content :
  ends_clean content = true → ends_clean (crlf_to_lf content) = true.
Proof.
  assert (∀ n content, length content ≤ n →
            ends_clean content = true → ends_clean (crlf_to_lf content) = true)
    as H.
  { intros n. induction n as [|n IH]; intros [|a [|b rest]] Hlen;
      try done; simpl in Hlen; try lia.
    intros Hc.
    change (ends_clean (a :: b :: rest))
      with (negb (is_blank a && at_line_end (b :: rest))
            && ends_clean (b :: rest)) in Hc.
    apply andb_true_iff in Hc as [Ha Hrest].
    change (crlf_to_lf (a :: b :: rest))
      with (if decide (a = 13%N ∧ b = 10%N) then 10%N :: crlf_to_lf rest
            else a :: crlf_to_lf (b :: rest)).
    case_decide as Hab.
    - destruct Hab as [-> ->]. simpl in Hrest.
      change (ends_clean (10%N :: crlf_to_lf rest))
        with (ends_clean (crlf_to_lf rest)).
      apply IH; [lia|done].
    - change (ends_clean (a :: crlf_to_lf (b :: rest)))
        with (negb (is_blank a && at_line_end (crlf_to_lf (b :: rest)))
              && ends_clean (crlf_to_lf (b :: rest))).
      rewrite at_line_end_crlf_to_lf, Ha, andb_true_l.
      apply IH; [simpl; lia|done]. }
  by apply (H (length content)).
Qed.

Lemma at_line_end_lf_to_crlf content :
  at_line_end (lf_to_crlf content) = at_line_end content.
Proof.
  destruct content as [|a rest]; [done|]. unfold lf_to_crlf. simpl.
  case_decide as Ha; [by subst a|done].
Qed.

Lemma ends_clean_lf_to_crlf content :
  ends_clean content = true → ends_clean (lf_to_crlf content) = true.
Proof.
  induction content as [|a rest IH]; [done|]. simpl.
  intros [Ha Hrest]%andb_true_iff. specialize (IH Hrest).
  change (lf_to_crlf (a :: rest))
    with ((if decide (a = 10%N) then [13; 10]%N else [a]) ++ lf_to_crlf rest).
  case_decide as Ha10.
  - subst a. simpl. done.
  - simpl. by rewrite at_line_end_lf_to_crlf, Ha, IH.
Qed.

(** *** The steps and the list of fixes *)

Lemma cleanup_step_fixes (p : CleanupParams) (st : jsstr * list CleanupFix) :
  (∃ l, (cleanup_bom p st).2 = st.2 ++ l ∧
        (l = [] → (cleanup_bom p st).1 = st.1)) ∧
  (∃ l, (cleanup_nul p st).2 = st.2 ++ l ∧
        (l = [] → (cleanup_nul p st).1 = st.1)) ∧
  (∃ l, (cleanup_whitespace p st).2 = st.2 ++ l ∧
        (l = [] → (cleanup_whitespace p st).1 = st.1)) ∧
  (∃ l, (cleanup_line_endings p st).2 = st.2 ++ l ∧
        (l = [] → (cleanup_line_endings p st).1 = st.1)).
Proof.
  unfold cleanup_bom, cleanup_nul, cleanup_whitespace, cleanup_line_endings.
  split_and!.
  - destruct (_ && _); [by eexists|]. exists []. by rewrite app_nil_r.
  - destruct (_ && _); [by eexists|]. exists []. by rewrite app_nil_r.
  - destruct (remove_trailing_whitespace p); [|exists []; by rewrite app_nil_r].
    simpl. case_decide as Hc; [by eexists|].
    exists []. rewrite app_nil_r. split; [done|]. intros _.
    by destruct (decide (strip_trailing [] st.1 = st.1)).
  - destruct (normalize_line_endings p) as [le|];
      [|exists []; by rewrite app_nil_r].
    simpl. case_decide as Hc; [by eexists|].
    exists []. rewrite app_nil_r. split; [done|]. intros _.
    match goal with |- ?x = _ => by destruct (decide (x = st.1)) end.
Qed.

End cleanup.

(** X17. [cc_cleanup_file] never loses track of a change: when the list of
    fixes is empty (the handler then answers that the file is already clean
    and writes nothing) the cleaned content is the content read, whatever
    the parameters. *)
Theorem cleanup_no_fix_unchanged (p : CleanupParams) (raw : jsstr) :
  (cleanup_content p raw).2 = [] → (cleanup_content p raw).1 = raw.
Proof.
  unfold cleanup_content.
  set (s1 := cleanup_bom p (raw, [])).
  set (s2 := cleanup_nul p s1). set (s3 := cleanup_whitespace p s2).
  destruct (cleanup_step_fixes p (raw, [])) as ((l1 & H1 & E1) & _).
  destruct (cleanup_step_fixes p s1) as (_ & (l2 & H2 & E2) & _).
  destruct (cleanup_step_fixes p s2) as (_ & _ & (l3 & H3 & E3) & _).
  destruct (cleanup_step_fixes p s3) as (_ & _ & _ & (l4 & H4 & E4)).
  fold s1 in H1, E1. fold s2 in H2, E2. fold s3 in H3, E3.
  rewrite H4, H3, H2, H1. simpl.
  intros Hnil. repeat (apply app_eq_nil in Hnil as [Hnil ?]).
  rewrite E4, E3, E2, E1 by done. done.
Qed.

Lemma cleanup_no_fix_unchanged_witness :
  (cleanup_content (mkCleanupParams true true (Some lf) true false)
     (u "a b" ++ [10%N] ++ u "c")).1 = u "a b" ++ [10%N] ++ u "c".
Proof.
  apply (cleanup_no_fix_unchanged
           (mkCleanupParams true true (Some lf) true false)).
  vm_compute. reflexivity.
Defined.

Lemma cleanup_content_no_nul (p : CleanupParams) (raw : jsstr) :
  remove_nul_bytes p = true → 0%N ∉ (cleanup_content p raw).1.
Proof.
  intros Hp. unfold cleanup_content.
  set (s1 := cleanup_bom p (raw, [])).
  assert (0%N ∉ (cleanup_nul p s1).1) as H2.
  { unfold cleanup_nul. rewrite Hp. simpl. case_bool_decide as H0; simpl.
    - apply remove_nul_spec.
    - done. }
  set (s2 := cleanup_nul p s1) in *.
  assert (0%N ∉ (cleanup_whitespace p s2).1) as H3.
  { unfold cleanup_whitespace. destruct (remove_trailing_whitespace p); [|done].
    simpl. intros [?%elem_of_nil|?]%strip_trailing_elem; done. }
  set (s3 := cleanup_whitespace p s2) in *.
  unfold cleanup_line_endings. destruct (normalize_line_endings p) as [le|]; [|done].
  simpl. case_decide.
  - intros [?%crlf_to_lf_elem|?]%lf_to_crlf_elem; done.
  - by intros ?%crlf_to_lf_elem.
Qed.

Lemma cleanup_content_ends_clean (p : CleanupParams) (raw : jsstr) :
  remove_trailing_whitespace p = true →
  ends_clean (cleanup_content p raw).1 = true.
Proof.
  intros Hp. unfold cleanup_content.
  set (s2 := cleanup_nul p (cleanup_bom p (raw, []))).
  assert (ends_clean (cleanup_whitespace p s2).1 = true) as H3.
  { unfold cleanup_whitespace. rewrite Hp. simpl.
    by destruct (strip_trailing_clean s2.1 [] ltac:(constructor)). }
  set (s3 := cleanup_whitespace p s2) in *.
  unfold cleanup_line_endings. destruct (normalize_line_endings p) as [le|]; [|done].
  simpl. case_decide.
  - by apply ends_clean_lf_to_crlf, ends_clean_crlf_to_lf.
  - by apply ends_clean_crlf_to_lf.
Qed.

(** X18. What [cc_cleanup_file] writes: it writes only with [dry_run] off
    and at least one fix recorded, to the normalized path, and the content
    written is clean in the sense asked for.  With [remove_nul_bytes] it
    holds no NUL character (none survives the removal and no later step
    brings one in); with [remove_trailing_whitespace] no space or tab
    stands before a line terminator or at the end, also after the line
    endings have been normalized. *)
Theorem cleanup_written (env : CleanupEnv) (path : jsstr) (p : CleanupParams)
    (file content : jsstr) :
  cl_written (cc_cleanup_file env path p) = Some (file, content) →
  file = ce_normalizePath env path ∧
  cleanup_dry_run p = false ∧
  (∃ raw, ce_readFile env file = inl raw ∧
     content = (cleanup_content p raw).1 ∧ (cleanup_content p raw).2 ≠ []) ∧
  (remove_nul_bytes p = true → 0%N ∉ content) ∧
  (remove_trailing_whitespace p = true → ends_clean content = true).
Proof.
  unfold cc_cleanup_file.
  destruct (ce_pathExists env (ce_normalizePath env path)); simpl; [|done].
  destruct (ce_readFile env (ce_normalizePath env path)) as [raw|msg] eqn:Hread;
    [|done].
  pose proof (cleanup_content_no_nul p raw) as Hnul.
  pose proof (cleanup_content_ends_clean p raw) as Hclean.
  destruct (cleanup_content p raw) as [c fixes] eqn:Hc.
  case_decide as Hf; [done|].
  destruct (cleanup_dry_run p); [done|].
  destruct (ce_writeFile env (ce_normalizePath env path) c); [done|].
  simpl. intros [= <- <-]. split_and!; [done..| |done|done].
  exists raw. by rewrite Hc.
Qed.

Lemma cleanup_written_witness :
  cl_written (cc_cleanup_file sample_cleanup_env (u "a.txt")
                (mkCleanupParams true true (Some lf) true false))
    = Some (u "a.txt", u "x" ++ [10%N] ++ u "y") ∧
  (0%N ∉ u "x" ++ [10%N] ++ u "y") ∧
  ends_clean (u "x" ++ [10%N] ++ u "y") = true.
Proof.
  assert (cl_written (cc_cleanup_file sample_cleanup_env (u "a.txt")
                        (mkCleanupParams true true (Some lf) true false))
          = Some (u "a.txt", u "x" ++ [10%N] ++ u "y")) as E
    by (vm_compute; reflexivity).
  destruct (cleanup_written _ _ _ _ _ E) as (_ & _ & _ & H1 & H2).
  split; [exact E|]. split; [by apply H1|by apply H2].
Defined.

(** * formatFileSize *)

Lemma scale_loop_exit (rounds : nat) : ∀ size unitIndex,
  length units - 1 ≤ unitIndex + rounds →
  Qle_bool 1024 (scale_loop rounds size unitIndex).1
  && bool_decide ((scale_loop rounds size unitIndex).2 < length units - 1)
  = false.
Proof.
  induction rounds as [|rounds IH]; intros size unitIndex Hr; simpl.
  - rewrite (bool_decide_eq_false_2 (unitIndex < 3)) by (simpl in Hr; lia).
    apply andb_false_r.
  - destruct (Qle_bool 1024 size && bool_decide (unitIndex < 3)) eqn:Hc;
      [|done].
    apply IH. simpl in *. lia.
Qed.

Lemma scale_loop_spec (rounds : nat) : ∀ size unitIndex,
  (scale_loop rounds size unitIndex).2 ≤ unitIndex + rounds ∧
  unitIndex ≤ (scale_loop rounds size unitIndex).2 ∧
  ((scale_loop rounds size unitIndex).1
     * 1024 ^ Z.of_nat ((scale_loop rounds size unitIndex).2 - unitIndex)
   == size)%Q ∧
  (unitIndex < (scale_loop rounds size unitIndex).2 →
   (1 <= (scale_loop rounds size unitIndex).1)%Q).
Proof.
  induction rounds as [|rounds IH]; intros size unitIndex; simpl.
  { rewrite Nat.sub_diag. split_and!; [lia|lia| |lia].
    change (1024 ^ Z.of_nat 0)%Q with 1%Q. ring. }
  destruct (Qle_bool 1024 size) eqn:Hle; simpl.
  2: { rewrite Nat.sub_diag. split_and!; [lia|lia| |lia].
       change (1024 ^ Z.of_nat 0)%Q with 1%Q. ring. }
  case_bool_decide as Hidx; simpl.
  2: { rewrite Nat.sub_diag. split_and!; [lia|lia| |lia].
       change (1024 ^ Z.of_nat 0)%Q with 1%Q. ring. }
  apply Qle_bool_iff in Hle.
  destruct (IH (size / 1024)%Q (S unitIndex)) as (H1 & H2 & H3 & H4).
  set (r := scale_loop rounds (size / 1024) (S unitIndex)) in *.
  split_and!; [lia|lia| |].
  - replace (r.2 - unitIndex) with (S (r.2 - S unitIndex)) by lia.
    replace (Z.of_nat (S (r.2 - S unitIndex)))
      with (Z.of_nat (r.2 - S unitIndex) + 1)%Z by lia.
    rewrite Qpower_plus' by lia.
    change (1024 ^ 1)%Q with 1024%Q.
    rewrite Qmult_assoc, H3. field.
  - intros _. destruct (decide (S unitIndex < r.2)) as [Hlt|Hge]; [by apply H4|].
    assert (r.2 = S unitIndex) as Heq by lia.
    rewrite Heq, Nat.sub_diag in H3.
    change (1024 ^ Z.of_nat 0)%Q with 1%Q in H3.
    rewrite Qmult_1_r in H3. rewrite H3.
    apply Qle_shift_div_l; [done|]. by rewrite Qmult_1_l.
Qed.

(** X19. What [formatFileSize] prints for a number of bytes below 2^53:
    the unit is B below 1024 bytes, KB below 1024^2, MB below 1024^3 and GB
    from there on, and the number printed is, in hundredths, the integer
    nearest to 100 times the bytes divided by 1024 to the index of the
    unit, halves rounded up; so 1048575 bytes are printed as 1024.00 KB. *)
Theorem formatFileSize_unit (number_to_string : Q → string) (bytes : N) :
  (bytes < 2 ^ 53)%N →
  ∃ idx unit n,
    units !! idx = Some unit ∧
    ((idx = 0 ∧ (Z.of_N bytes < 1024)%Z) ∨
     (idx = 1 ∧ (1024 ≤ Z.of_N bytes < 1048576)%Z) ∨
     (idx = 2 ∧ (1048576 ≤ Z.of_N bytes < 1073741824)%Z) ∨
     (idx = 3 ∧ (1073741824 ≤ Z.of_N bytes)%Z)) ∧
    n = ((200 * Z.of_N bytes + 1024 ^ Z.of_nat idx)
         / (2 * 1024 ^ Z.of_nat idx))%Z ∧
    formatFileSize number_to_string bytes =
      (num (n / 100)%Z +:+ "." +:+ two_digits (n mod 100)%Z)
      +:+ " " +:+ unit.
Proof.
  intros Hsafe.
  pose proof (scale_loop_spec 3 (inject_Z (Z.of_N bytes)) 0)
    as (H1 & _ & H3 & H4).
  pose proof (scale_loop_exit 3 (inject_Z (Z.of_N bytes)) 0 ltac:(simpl; lia))
    as Hexit.
  unfold formatFileSize. change (length units - 1) with 3 in *.
  destruct (scale_loop 3 (inject_Z (Z.of_N bytes)) 0) as [size idx] eqn:Hr.
  simpl in H1, H3, H4, Hexit. rewrite Nat.sub_0_r in H3.
  assert (idx < 3 → (size < 1024)%Q) as Hlt.
  { intros Hidx. rewrite (bool_decide_eq_true_2 (idx < 3)) in Hexit by done.
    rewrite andb_true_r in Hexit.
    apply Qnot_le_lt. intros Hle%Qle_bool_iff. congruence. }
  assert (0 <= inject_Z (Z.of_N bytes) < inject_Z (2 ^ 53))%Q as [Hb0 Hb53].
  { split; [rewrite <- (Zle_Qle 0)|rewrite <- Zlt_Qlt]; lia. }
  set (b := inject_Z (Z.of_N bytes)) in *.
  assert (∀ p : positive,
            (size * inject_Z (Z.pos p) == b)%Q →
            Qle_bool (inject_Z (10 ^ 21)) size = false ∧
            Qfloor (size * 100 + (1 # 2))
              = ((200 * Z.of_N bytes + Z.pos p) / (2 * Z.pos p))%Z) as Hfix.
  { intros p Hp.
    assert (0 < inject_Z (Z.pos p))%Q as Hpos by (rewrite <- (Zlt_Qlt 0); lia).
    assert (1 <= inject_Z (Z.pos p))%Q as Hone by (rewrite <- (Zle_Qle 1); lia).
    assert (size == b / inject_Z (Z.pos p))%Q as Hsize.
    { rewrite <- Hp. field. lra. }
    split.
    - destruct (Qle_bool (inject_Z (10 ^ 21)) size) eqn:Hbig; [|done].
      apply Qle_bool_iff in Hbig. exfalso.
      assert (0 <= size)%Q as Hs0.
      { rewrite Hsize. apply Qle_shift_div_l; [done|]. by rewrite Qmult_0_l. }
      assert (size <= b)%Q by nra.
      assert (inject_Z (2 ^ 53) <= inject_Z (10 ^ 21))%Q
        by (rewrite <- Zle_Qle; done).
      lra.
    - assert (size * 100 + (1 # 2)
                == (200 * Z.of_N bytes + Z.pos p) # (2 * p))%Q as ->.
      { rewrite Hsize. unfold b. unfold Qeq, Qdiv, Qmult, Qplus, Qinv. simpl.
        lia. }
      reflexivity. }
  assert (idx = 0 ∨ idx = 1 ∨ idx = 2 ∨ idx = 3) as Hidx by lia.
  exists idx.
  destruct Hidx as [->|[->|[->| ->]]]; cbn [fst snd]; unfold toFixed2.
  - change (1024 ^ Z.of_nat 0)%Q with (inject_Z 1) in H3.
    destruct (Hfix 1%positive H3) as [-> ->].
    exists "B", ((200 * Z.of_N bytes + 1) / (2 * 1))%Z.
    split_and!; [done| |reflexivity|reflexivity].
    left. split; [done|]. rewrite Zlt_Qlt. specialize (Hlt ltac:(lia)).
    fold b. change (inject_Z 1) with 1%Q in H3.
    change (inject_Z 1024) with 1024%Q. lra.
  - change (1024 ^ Z.of_nat 1)%Q with (inject_Z 1024) in H3.
    destruct (Hfix 1024%positive H3) as [-> ->].
    exists "KB", ((200 * Z.of_N bytes + 1024) / (2 * 1024))%Z.
    split_and!; [done| |reflexivity|reflexivity].
    right. left. split; [done|]. specialize (Hlt ltac:(lia)).
    specialize (H4 ltac:(lia)).
    change (inject_Z 1024) with 1024%Q in H3.
    split; [rewrite Zle_Qle|rewrite Zlt_Qlt]; fold b;
      [change (inject_Z 1024) with 1024%Q
      |change (inject_Z 1048576) with 1048576%Q]; lra.
  - change (1024 ^ Z.of_nat 2)%Q with (inject_Z 1048576) in H3.
    destruct (Hfix 1048576%positive H3) as [-> ->].
    exists "MB", ((200 * Z.of_N bytes + 1048576) / (2 * 1048576))%Z.
    split_and!; [done| |reflexivity|reflexivity].
    right. right. left. split; [done|]. specialize (Hlt ltac:(lia)).
    specialize (H4 ltac:(lia)).
    change (inject_Z 1048576) with 1048576%Q in H3.
    split; [rewrite Zle_Qle|rewrite Zlt_Qlt]; fold b;
      [change (inject_Z 1048576) with 1048576%Q
      |change (inject_Z 1073741824) with 1073741824%Q]; lra.
  - change (1024 ^ Z.of_nat 3)%Q with (inject_Z 1073741824) in H3.
    destruct (Hfix 1073741824%positive H3) as [-> ->].
    exists "GB", ((200 * Z.of_N bytes + 1073741824) / (2 * 1073741824))%Z.
    split_and!; [done| |reflexivity|reflexivity].
    right. right. right. split; [done|].
    specialize (H4 ltac:(lia)).
    change (inject_Z 1073741824) with 1073741824%Q in H3.
    rewrite Zle_Qle. fold b. change (inject_Z 1073741824) with 1073741824%Q. lra.
Qed.

Lemma formatFileSize_unit_witness :
  (1048575 < 2 ^ 53)%N ∧
  formatFileSize (λ _, EmptyString) 1048575 = "1024.00 KB" ∧
  formatFileSize (λ _, EmptyString) 1536 = "1.50 KB".
Proof.
  assert (1048575 < 2 ^ 53)%N as Hsafe by reflexivity.
  split; [exact Hsafe|].
  destruct (formatFileSize_unit (λ _, EmptyString) 1048575 Hsafe)
    as (idx & unit & n & _ & _ & _ & _).
  split; vm_compute; reflexivity.
Defined.

(** * The iterations of the backtracking loop *)

Section backtrack_trace.
Context (a b : list string).

Lemma bt_body_push dp s : ∃ c, bt_out (bt_body dp a b s) = bt_out s ++ [c].
Proof. unfold bt_body. repeat case_decide; by eexists. Qed.

Lemma bt_state_S dp n :
  bt_state dp a b (S n) = bt_body dp a b (bt_state dp a b n).
Proof. done. Qed.

(** The loop stops in the state after some number [N] of iterations, the
    first one in which the guard fails. *)
Lemma bt_loop_states dp : ∀ fuel n s',
  bt_loop fuel dp a b (bt_state dp a b n) = Some s' →
  ∃ N, n ≤ N ∧ s' = bt_state dp a b N ∧ bt_cond s' = false ∧
    ∀ m, n ≤ m → m < N → bt_cond (bt_state dp a b m) = true.
Proof.
  induction fuel as [|fuel IH]; intros n s'; simpl;
    destruct (bt_cond (bt_state dp a b n)) eqn:Hc; try done.
  - intros [= <-]. exists n. split_and!; [done..|]. intros; lia.
  - rewrite <- bt_state_S. intros (N & HN & -> & Hstop & Hrun)%IH.
    exists N. split_and!; [lia|done|done|].
    intros m Hm1 Hm2. destruct (decide (m = n)) as [->|]; [done|].
    apply Hrun; lia.
  - intros [= <-]. exists n. split_and!; [done..|]. intros; lia.
Qed.

Lemma bt_out_length dp n : length (bt_out (bt_state dp a b n)) = n.
Proof.
  induction n as [|n IH]; [done|]. rewrite bt_state_S.
  destruct (bt_body_push dp (bt_state dp a b n)) as [c ->].
  rewrite length_app, IH. simpl. lia.
Qed.

Lemma bt_out_prefix dp n : ∀ m,
  m ≤ n → take m (bt_out (bt_state dp a b n)) = bt_out (bt_state dp a b m).
Proof.
  induction n as [|n IH]; intros m Hm.
  { replace m with 0 by lia. done. }
  destruct (decide (m = S n)) as [->|Hne].
  { apply take_ge. by rewrite bt_out_length. }
  rewrite bt_state_S.
  destruct (bt_body_push dp (bt_state dp a b n)) as [c ->].
  rewrite take_app_le by (rewrite bt_out_length; lia). apply IH. lia.
Qed.

Lemma bt_inv_states n :
  (∀ m, m < n → bt_cond (bt_state (computeLCS a b) a b m) = true) →
  bt_inv a b (bt_state (computeLCS a b) a b n).
Proof.
  induction n as [|n IH]; intros Hrun; [apply bt_inv_init|].
  rewrite bt_state_S. apply bt_inv_step; [|apply Hrun; lia].
  apply IH. intros m Hm. apply Hrun. lia.
Qed.

(** The change list is the list of the records pushed, read backwards,
    and the iteration that pushes the record at position [k] runs with
    [i] and [j] the numbers of lines of [a] and of [b] that the records up
    to position [k] consume. *)
Lemma backtrack_iterations :
  ∃ changes N,
    backtrack a b = Some changes ∧ length changes = N ∧
    changes = reverse (bt_out (bt_state (computeLCS a b) a b N)) ∧
    bt_cond (bt_state (computeLCS a b) a b N) = false ∧
    ∀ k c, changes !! k = Some c →
      bt_cond (bt_state (computeLCS a b) a b (N - S k)) = true ∧
      bt_out (bt_state (computeLCS a b) a b (S (N - S k)))
        = bt_out (bt_state (computeLCS a b) a b (N - S k)) ++ [c] ∧
      bt_i (bt_state (computeLCS a b) a b (N - S k)) = a_pos changes (S k) ∧
      bt_j (bt_state (computeLCS a b) a b (N - S k)) = b_pos changes (S k).
Proof.
  unfold backtrack, backtrack_fuel.
  destruct (bt_loop_invariant a b (λ _, True) (computeLCS a b)
              ltac:(done) (length a + length b)
              (mkBt (length a) (length b) []) ltac:(done) I)
    as (s' & Hloop & _ & Hi0 & Hj0).
  rewrite Hloop. simpl.
  destruct (bt_loop_states (computeLCS a b) _ 0 s' Hloop)
    as (N & _ & -> & Hstop & Hrun).
  set (st := bt_state (computeLCS a b) a b) in *.
  assert (∀ n, n ≤ N → bt_inv a b (st n)) as Hinv.
  { intros n Hn. apply bt_inv_states. intros m Hm. apply Hrun; lia. }
  exists (reverse (bt_out (st N))), N.
  assert (length (reverse (bt_out (st N))) = N) as Hlen
    by (by rewrite length_reverse; apply bt_out_length).
  split_and!; [done..|].
  intros k c Hk.
  apply reverse_lookup_Some in Hk as [Hk HkN].
  unfold st in Hk, HkN. rewrite bt_out_length in Hk, HkN. fold st in Hk.
  set (n := N - S k) in *.
  assert (bt_out (st (S n)) = bt_out (st n) ++ [c]) as Hpush.
  { unfold st. rewrite <- (bt_out_prefix _ N (S n)) by lia.
    rewrite <- (bt_out_prefix _ N n) by lia. fold st.
    by apply take_S_r. }
  split_and!; [apply Hrun; lia|done| |].
  - destruct (Hinv n ltac:(lia)) as (Hi & _ & HA & _).
    destruct (Hinv N ltac:(lia)) as (_ & _ & HAN & _).
    rewrite Hi0, drop_0 in HAN.
    assert (reverse (bt_out (st n)) = drop (S k) (reverse (bt_out (st N))))
      as Hrev.
    { unfold st. rewrite <- (bt_out_prefix _ N n) by lia.
      rewrite reverse_take, bt_out_length. f_equal. lia. }
    rewrite Hrev in HA. unfold a_pos.
    pose proof (f_equal length HAN) as Hl.
    rewrite <- (take_drop (S k) (reverse (bt_out (st N)))) in Hl.
    rewrite replay_A_app, length_app, HA, length_drop in Hl. lia.
  - destruct (Hinv n ltac:(lia)) as (_ & Hj & _ & HB & _).
    destruct (Hinv N ltac:(lia)) as (_ & _ & _ & HBN & _).
    rewrite Hj0, drop_0 in HBN.
    assert (reverse (bt_out (st n)) = drop (S k) (reverse (bt_out (st N))))
      as Hrev.
    { unfold st. rewrite <- (bt_out_prefix _ N n) by lia.
      rewrite reverse_take, bt_out_length. f_equal. lia. }
    rewrite Hrev in HB. unfold b_pos.
    pose proof (f_equal length HBN) as Hl.
    rewrite <- (take_drop (S k) (reverse (bt_out (st N)))) in Hl.
    rewrite replay_B_app, length_app, HB, length_drop in Hl. lia.
Qed.

End backtrack_trace.

(** C6. The backtracking loop runs as many iterations as the change list
    has records, and the record at position [k] of the list is the one
    pushed by the iteration that runs with [i] and [j] the numbers of lines
    of A and of B consumed up to that record.  In that iteration, when
    [i > 0], [j > 0] and [A[i-1]] equals [B[j-1]], the record is the Equal
    record of that line; when the two lines differ and [dp[i][j-1]] equals
    [dp[i-1][j]], it is the Insert record of [B[j-1]], not a Delete. *)
Theorem backtrack_tie_break (linesA linesB : list string) :
  ∃ changes,
    backtrack linesA linesB = Some changes ∧
    bt_cond (bt_state (computeLCS linesA linesB) linesA linesB
               (length changes)) = false ∧
    ∀ k c, changes !! k = Some c →
      ∃ s,
        s = bt_state (computeLCS linesA linesB) linesA linesB
              (length changes - S k) ∧
        bt_cond s = true ∧
        bt_out (bt_body (computeLCS linesA linesB) linesA linesB s)
          = bt_out s ++ [c] ∧
        bt_i s = a_pos changes (S k) ∧ bt_j s = b_pos changes (S k) ∧
        (0 < bt_i s → 0 < bt_j s →
         linesA !! (bt_i s - 1) = linesB !! (bt_j s - 1) →
         c = mkChange T_equal (Some (bt_i s - 1)) (Some (bt_j s - 1))
               (line_at linesA (bt_i s - 1))) ∧
        (0 < bt_i s → 0 < bt_j s →
         linesA !! (bt_i s - 1) ≠ linesB !! (bt_j s - 1) →
         dp_get (computeLCS linesA linesB) (bt_i s) (bt_j s - 1)
           = dp_get (computeLCS linesA linesB) (bt_i s - 1) (bt_j s) →
         c = mkChange T_insert None (Some (bt_j s - 1))
               (line_at linesB (bt_j s - 1))).
Proof.
  destruct (backtrack_iterations linesA linesB)
    as (changes & N & Hbt & <- & _ & Hstop & Hrec).
  exists changes. split_and!; [done..|].
  intros k c Hk. destruct (Hrec k c Hk) as (Hc & Hpush & Hi & Hj).
  eexists. split; [done|].
  set (s := bt_state (computeLCS linesA linesB) linesA linesB
              (length changes - S k)) in *.
  change (bt_state (computeLCS linesA linesB) linesA linesB
            (S (length changes - S k)))
    with (bt_body (computeLCS linesA linesB) linesA linesB s) in Hpush.
  split_and!; [done..| |].
  - intros Hi0 Hj0 Hab.
    rewrite (bt_body_equal linesA linesB _ s Hi0 Hj0 Hab) in Hpush.
    simpl in Hpush. by apply app_inv_head in Hpush as [= <-].
  - intros Hi0 Hj0 Hab Htie.
    rewrite (bt_body_insert linesA linesB _ s) in Hpush;
      [|by intros (_ & _ & ?)|done|right; lia].
    simpl in Hpush. by apply app_inv_head in Hpush as [= <-].
Qed.

Lemma backtrack_tie_break_witness :
  ∃ changes,
    backtrack lines_xy lines_yx = Some changes ∧
    lines_xy !! 1 ≠ lines_yx !! 1 ∧
    dp_get (computeLCS lines_xy lines_yx) 2 1
      = dp_get (computeLCS lines_xy lines_yx) 1 2 ∧
    bt_state (computeLCS lines_xy lines_yx) lines_xy lines_yx 0 = mkBt 2 2 [] ∧
    changes !! 2 = Some (mkChange T_insert None (Some 1) "x").
Proof.
  destruct (backtrack_tie_break lines_xy lines_yx)
    as (changes & Hbt & _ & Hrec).
  exists changes.
  assert (lines_xy !! 1 ≠ lines_yx !! 1) as Hne by (simpl; discriminate).
  split; [exact Hbt|]. split; [exact Hne|]. split; [reflexivity|].
  split; [reflexivity|].
  assert (changes = [mkChange T_delete (Some 0) None "x";
                     mkChange T_equal (Some 1) (Some 0) "y";
                     mkChange T_insert None (Some 1) "x"]) as Hch.
  { vm_compute in Hbt. injection Hbt as <-. reflexivity. }
  destruct (lookup_lt_is_Some_2 changes 2) as [c Hc];
    [rewrite Hch; simpl; lia|].
  destruct (Hrec 2 c Hc) as (s & Hs & _ & _ & _ & _ & _ & Hins).
  rewrite Hc. f_equal.
  assert (s = mkBt 2 2 []) as Hs2 by (rewrite Hs, Hch; reflexivity).
  rewrite Hs2 in Hins. apply Hins; [simpl; lia|simpl; lia|exact Hne|reflexivity].
Defined.
